(** * Medical courier dashboard: the note autosave core

    A shallow embedding of the dashboard page component [DashboardPage]
    (the version with per-owner task notes; the earlier [src/app/page.tsx]
    has the same [addTask]) and the properties of its autosave, hydration
    and mutation handlers.

    - The [useState] cells and [useRef] boxes are the fields of the record
      [Dash].  A state update is committed at once; what React defers is
      the flush of the autosave effect, an event of its own.
    - Every [async] handler is split at its [await] into the part that
      runs up to the request and the continuation that runs on the
      answer (suffix [_resume]).
    - A function defined in the component body is a closure of one
      render: where it reads a state cell, the embedding takes the value
      of that render as an argument ([saveNote]) or stores it with the
      pending callback ([Timer]).
    - The browser (clock, pending timers), the awaited requests and the
      stored [task_notes] table are the fields of [World]; [step] runs one
      [Event] and [reachable] closes [initWorld] under it. *)

From Stdlib Require Import Ascii String.
From stdpp Require Import gmap strings list fin_maps.

Open Scope string_scope.
Open Scope list_scope.
Open Scope nat_scope.

(** ** Data model (the [type] declarations of the page) *)

(** [type Owner = "Co-Owner A (Ops/Compliance)" | "Co-Owner B (Sales/Finance)"] *)
Inductive Owner := OWNER_A | OWNER_B.

Definition owner_str (o : Owner) : string :=
  match o with
  | OWNER_A => "Co-Owner A (Ops/Compliance)"
  | OWNER_B => "Co-Owner B (Sales/Finance)"
  end.

Definition ALL_OWNERS : list Owner := [OWNER_A; OWNER_B].

#[global] Instance Owner_eq_dec : EqDecision Owner.
Proof. solve_decision. Defined.

#[global] Program Instance Owner_countable : Countable Owner :=
  inj_countable' (fun o => match o with OWNER_A => false | OWNER_B => true end)
                 (fun b : bool => if b then OWNER_B else OWNER_A) _.
Next Obligation. by intros []. Qed.

(** [type Status = "Pending" | "In Progress" | "Completed"] *)
Inductive Status := Pending | InProgress | Completed.

#[global] Instance Status_eq_dec : EqDecision Status.
Proof. solve_decision. Defined.

Record TaskRow := mkTaskRow {
  id : string;
  week_number : Z;
  owner : Owner;
  description : string;
  status : Status;
  created_at : option string;
  updated_at : option string
}.

(** A row of [task_notes] as the gateway returns it.  The loader guards
    the note with [r.note ?? ""], so a missing note is [None]. *)
Record TaskNoteRow := mkTaskNoteRow {
  nr_id : string;
  nr_task_id : string;
  nr_owner : Owner;
  nr_note : option string;
  nr_updated_at : string
}.

(** The cached value [{ note; updated_at?; id? }] of [notesByTask]. *)
Record NoteEntry := mkNoteEntry {
  ne_note : string;
  ne_updated_at : option string;
  ne_id : option string
}.

#[global] Instance NoteEntry_eq_dec : EqDecision NoteEntry.
Proof. solve_decision. Defined.

#[global] Instance TaskNoteRow_eq_dec : EqDecision TaskNoteRow.
Proof. solve_decision. Defined.

(** ** Strings: [String.prototype.trim] and [makeKey] *)

(** White space and line terminators that [trim] strips, for code units
    below 256: TAB, LF, VT, FF, CR, SPACE and NBSP. *)
Definition is_ws (c : ascii) : bool :=
  let n := nat_of_ascii c in
  (Nat.eqb n 9 || Nat.eqb n 10 || Nat.eqb n 11 || Nat.eqb n 12
   || Nat.eqb n 13 || Nat.eqb n 32 || Nat.eqb n 160)%bool.

Fixpoint dropWs (l : list ascii) : list ascii :=
  match l with
  | [] => []
  | c :: r => if is_ws c then dropWs r else l
  end.

Definition trimList (l : list ascii) : list ascii :=
  rev (dropWs (rev (dropWs l))).

Definition trim (s : string) : string :=
  string_of_list_ascii (trimList (list_ascii_of_string s)).

(** [const makeKey = (taskId, owner) => `${taskId}::${owner}`] *)
Definition makeKey (taskId : string) (o : Owner) : string :=
  taskId +:+ "::" +:+ owner_str o.

(** ** Component state

    The [useState] cells and [useRef] boxes of [DashboardPage] that the
    handlers below touch.  A timer handle is what [setTimeout] returns: a
    positive integer, hence always truthy in [if (existing)].

    [depsVersion] stands for the identity of the dependency array
    [[draftByTask, notesByTask, tasks]] of the autosave effect: React
    compares the three cells by reference, and every setter call on one of
    them installs a freshly built object, so each such call bumps it. *)

Record Dash := mkDash {
  selectedWeek : option Z;
  tasks : list TaskRow;
  errorMsg : string;
  newOwner : Owner;
  newDesc : string;
  notesByTask : gmap string (gmap Owner NoteEntry);
  draftByTask : gmap string (gmap Owner string);
  taskIdSetRef : list string;
  autosaveTimersRef : gmap string positive;
  autosaveInFlightRef : gset string;
  savingKeys : gmap string bool;
  depsVersion : nat
}.

Definition initDash : Dash :=
  {| selectedWeek := None; tasks := []; errorMsg := "";
     newOwner := OWNER_A; newDesc := "";
     notesByTask := ∅; draftByTask := ∅; taskIdSetRef := [];
     autosaveTimersRef := ∅; autosaveInFlightRef := ∅; savingKeys := ∅;
     depsVersion := 0 |}.

(** State setters ([setX(v)]) and ref assignments. *)
Definition setSelectedWeek (v : option Z) (s : Dash) : Dash :=
  mkDash v (tasks s) (errorMsg s) (newOwner s) (newDesc s) (notesByTask s)
         (draftByTask s) (taskIdSetRef s) (autosaveTimersRef s)
         (autosaveInFlightRef s) (savingKeys s) (depsVersion s).
Definition setTasks (v : list TaskRow) (s : Dash) : Dash :=
  mkDash (selectedWeek s) v (errorMsg s) (newOwner s) (newDesc s) (notesByTask s)
         (draftByTask s) (taskIdSetRef s) (autosaveTimersRef s)
         (autosaveInFlightRef s) (savingKeys s) (S (depsVersion s)).
Definition setErrorMsg (v : string) (s : Dash) : Dash :=
  mkDash (selectedWeek s) (tasks s) v (newOwner s) (newDesc s) (notesByTask s)
         (draftByTask s) (taskIdSetRef s) (autosaveTimersRef s)
         (autosaveInFlightRef s) (savingKeys s) (depsVersion s).
Definition setNewOwner (v : Owner) (s : Dash) : Dash :=
  mkDash (selectedWeek s) (tasks s) (errorMsg s) v (newDesc s) (notesByTask s)
         (draftByTask s) (taskIdSetRef s) (autosaveTimersRef s)
         (autosaveInFlightRef s) (savingKeys s) (depsVersion s).
Definition setNewDesc (v : string) (s : Dash) : Dash :=
  mkDash (selectedWeek s) (tasks s) (errorMsg s) (newOwner s) v (notesByTask s)
         (draftByTask s) (taskIdSetRef s) (autosaveTimersRef s)
         (autosaveInFlightRef s) (savingKeys s) (depsVersion s).
Definition setNotesByTask (v : gmap string (gmap Owner NoteEntry)) (s : Dash) : Dash :=
  mkDash (selectedWeek s) (tasks s) (errorMsg s) (newOwner s) (newDesc s) v
         (draftByTask s) (taskIdSetRef s) (autosaveTimersRef s)
         (autosaveInFlightRef s) (savingKeys s) (S (depsVersion s)).
Definition setDraftByTask (v : gmap string (gmap Owner string)) (s : Dash) : Dash :=
  mkDash (selectedWeek s) (tasks s) (errorMsg s) (newOwner s) (newDesc s)
         (notesByTask s) v (taskIdSetRef s) (autosaveTimersRef s)
         (autosaveInFlightRef s) (savingKeys s) (S (depsVersion s)).
Definition setTaskIdSet (v : list string) (s : Dash) : Dash :=
  mkDash (selectedWeek s) (tasks s) (errorMsg s) (newOwner s) (newDesc s)
         (notesByTask s) (draftByTask s) v (autosaveTimersRef s)
         (autosaveInFlightRef s) (savingKeys s) (depsVersion s).
Definition setAutosaveTimers (v : gmap string positive) (s : Dash) : Dash :=
  mkDash (selectedWeek s) (tasks s) (errorMsg s) (newOwner s) (newDesc s)
         (notesByTask s) (draftByTask s) (taskIdSetRef s) v
         (autosaveInFlightRef s) (savingKeys s) (depsVersion s).
Definition setAutosaveInFlight (v : gset string) (s : Dash) : Dash :=
  mkDash (selectedWeek s) (tasks s) (errorMsg s) (newOwner s) (newDesc s)
         (notesByTask s) (draftByTask s) (taskIdSetRef s) (autosaveTimersRef s)
         v (savingKeys s) (depsVersion s).
Definition setSavingKeys (v : gmap string bool) (s : Dash) : Dash :=
  mkDash (selectedWeek s) (tasks s) (errorMsg s) (newOwner s) (newDesc s)
         (notesByTask s) (draftByTask s) (taskIdSetRef s) (autosaveTimersRef s)
         (autosaveInFlightRef s) v (depsVersion s).

(** [setSaving(key, val)]: [setSavingKeys((prev) => ({ ...prev, [key]: val }))] *)
Definition setSaving (key : string) (val : bool) (s : Dash) : Dash :=
  setSavingKeys (<[key := val]> (savingKeys s)) s.

(** [draftByTask?.[taskId]?.[owner] ?? ""] *)
Definition draftOf (d : gmap string (gmap Owner string)) (taskId : string) (o : Owner) : string :=
  default "" (d !! taskId ≫= (fun m => m !! o)).

(** [notesByTask?.[taskId]?.[owner]?.note ?? ""] *)
Definition savedOf (n : gmap string (gmap Owner NoteEntry)) (taskId : string) (o : Owner) : string :=
  default "" (ne_note <$> (n !! taskId ≫= (fun m => m !! o))).

(** ** Requests sent to the gateway *)

(** A call [supabase.from("task_notes").upsert({ task_id, owner, note },
    { onConflict })]. *)
Record UpsertReq := mkUpsertReq {
  u_task_id : string;
  u_owner : Owner;
  u_note : string;
  u_onConflict : string
}.

(** The call [saveNote] makes: [{ onConflict: "task_id,owner" }]. *)
Definition noteUpsert (taskId : string) (o : Owner) (note : string) : UpsertReq :=
  mkUpsertReq taskId o note "task_id,owner".

#[global] Instance UpsertReq_eq_dec : EqDecision UpsertReq.
Proof. solve_decision. Defined.

(** [supabase.from("tasks").insert({ week_number, owner, description, status })] *)
Record InsertReq := mkInsertReq {
  i_week_number : Z;
  i_owner : Owner;
  i_description : string;
  i_status : Status
}.

(** ** [saveNote]

    [saveNote] is a closure of one render: it reads that render's
    [draftByTask] (argument [renderDraft]) when no override is given, while
    the refs and the functional state setters act on the live state [s].
    [saveNote] runs up to the [await] of the upsert; it returns the request
    it issued, or [None] when the call was dropped. *)
Definition saveNote (renderDraft : gmap string (gmap Owner string))
    (taskId : string) (o : Owner) (noteOverride : option string) (s : Dash)
    : Dash * option UpsertReq :=
  let s := setErrorMsg "" s in
  let raw := default (draftOf renderDraft taskId o) noteOverride in
  let note := trim raw in
  let key := makeKey taskId o in
  if decide (key ∈ autosaveInFlightRef s) then (s, None)
  else
    let s := setAutosaveInFlight ({[key]} ∪ autosaveInFlightRef s) s in
    let s := setSaving key true s in
    (s, Some (noteUpsert taskId o note)).

(** The continuation of [saveNote] after the [await]: [error] is the
    gateway's answer, [nowIso] the value of [new Date().toISOString()]. *)
Definition saveNote_resume (r : UpsertReq) (error : option string) (nowIso : string)
    (s : Dash) : Dash :=
  let taskId := u_task_id r in
  let o := u_owner r in
  let key := makeKey taskId o in
  let s := setAutosaveInFlight (autosaveInFlightRef s ∖ {[key]}) s in
  let s := setSaving key false s in
  match error with
  | Some msg => setErrorMsg ("Failed to save note: " +:+ msg) s
  | None =>
      let prev := notesByTask s in
      let inner := default ∅ (prev !! taskId) in
      setNotesByTask
        (<[taskId := <[o := mkNoteEntry (u_note r) (Some nowIso) None]> inner]> prev) s
  end.

(** ** [loadNotesForTasks] *)

(** The first loop: an entry for every task id and each of [ALL_OWNERS],
    [{ note: "", updated_at: undefined, id: undefined }] and [""]. *)
Definition defaultNotes : gmap Owner NoteEntry :=
  foldl (fun m o => <[o := mkNoteEntry "" None None]> m) ∅ ALL_OWNERS.

Definition defaultDrafts : gmap Owner string :=
  foldl (fun m o => <[o := ""]> m) ∅ ALL_OWNERS.

Definition initCaches (taskIds : list string)
    : gmap string (gmap Owner NoteEntry) * gmap string (gmap Owner string) :=
  foldl (fun acc taskId =>
           (<[taskId := defaultNotes]> acc.1, <[taskId := defaultDrafts]> acc.2))
        (∅, ∅) taskIds.

(** One iteration of the second loop, [for (const r of noteRows)]. *)
Definition applyRow
    (acc : gmap string (gmap Owner NoteEntry) * gmap string (gmap Owner string))
    (r : TaskNoteRow)
    : gmap string (gmap Owner NoteEntry) * gmap string (gmap Owner string) :=
  match acc.1 !! nr_task_id r with
  | None => acc
  | Some inner =>
      let text := default "" (nr_note r) in
      (<[nr_task_id r :=
           <[nr_owner r := mkNoteEntry text (Some (nr_updated_at r)) (Some (nr_id r))]> inner]>
         acc.1,
       <[nr_task_id r :=
           <[nr_owner r := text]> (default ∅ (acc.2 !! nr_task_id r))]> acc.2)
  end.

Definition hydrate (taskIds : list string) (noteRows : list TaskNoteRow)
    : gmap string (gmap Owner NoteEntry) * gmap string (gmap Owner string) :=
  foldl applyRow (initCaches taskIds) noteRows.

(** Up to the [await]: returns the fetch it issued ([.in("task_id",
    taskIds)]), or [None] when it finished without one. *)
Definition loadNotesForTasks (taskIds : list string) (s : Dash)
    : Dash * option (list string) :=
  let s := setErrorMsg "" s in
  match taskIds with
  | [] => (setDraftByTask ∅ (setNotesByTask ∅ s), None)
  | _ => (s, Some taskIds)
  end.

(** After the [await]: [inl msg] is [error], [inr rows] is [data ?? []]. *)
Definition loadNotesForTasks_resume (taskIds : list string)
    (resp : string + list TaskNoteRow) (s : Dash) : Dash :=
  match resp with
  | inl msg => setErrorMsg ("Failed to load task notes: " +:+ msg) s
  | inr noteRows =>
      let next := hydrate taskIds noteRows in
      setDraftByTask next.2 (setNotesByTask next.1 s)
  end.

(** ** [loadTasks] ([loadingTasks] only drives a spinner and is left out) *)

(** [new Set<string>(xs)]: a JS [Set] keeps its elements in the order of
    their first insertion, which [Array.from] reads back; it is modelled
    as the list of its elements in that order. *)
Definition newSet (xs : list string) : list string :=
  foldl (fun acc x => if bool_decide (x ∈ acc) then acc else acc ++ [x]) [] xs.

Definition loadTasks (weekNum : Z) (s : Dash) : Dash * Z :=
  (setErrorMsg "" s, weekNum).

Definition loadTasks_resume (resp : string + list TaskRow) (s : Dash)
    : Dash * option (list string) :=
  match resp with
  | inl msg => (setErrorMsg ("Failed to load tasks: " +:+ msg) s, None)
  | inr rows =>
      let s := setTasks rows s in
      let s := setTaskIdSet (newSet (id <$> rows)) s in
      loadNotesForTasks (id <$> rows) s
  end.

(** ** The [task_notes] change-feed callback *)

(** What the callback reads of the pushed payload: [payload?.new?.task_id]
    and [payload?.old?.task_id] ([None] for [undefined] or [null]). *)
Record Payload := mkPayload {
  p_new_task_id : option string;
  p_old_task_id : option string
}.

(** [payload?.new?.task_id ?? payload?.old?.task_id] *)
Definition payloadTaskId (p : Payload) : option string :=
  match p_new_task_id p with
  | Some t => Some t
  | None => p_old_task_id p
  end.

(** A string is truthy when it is not empty. *)
Definition truthy (s : string) : bool :=
  match s with EmptyString => false | String _ _ => true end.

Definition onNotesChange (p : Payload) (s : Dash) : Dash * option (list string) :=
  match payloadTaskId p with
  | Some taskId =>
      if truthy taskId && bool_decide (taskId ∈ taskIdSetRef s)
      then loadNotesForTasks (taskIdSetRef s) s
      else (s, None)
  | None => (s, None)
  end.

(** ** [addTask] (identical in both versions of the page) *)

(** [!selectedWeek] for [number | null]: [null] and [0] are falsy. *)
Definition noWeekSelected (w : option Z) : bool :=
  match w with
  | None => true
  | Some n => bool_decide (n = 0%Z)
  end.

Definition addTask (s : Dash) : Dash * option InsertReq :=
  if noWeekSelected (selectedWeek s) then (s, None)
  else
    let desc := trim (newDesc s) in
    if negb (truthy desc) then (s, None)
    else
      (setErrorMsg "" s,
       (fun wk => mkInsertReq wk (newOwner s) desc Pending) <$> selectedWeek s).

Definition addTask_resume (error : option string) (s : Dash) : Dash :=
  match error with
  | Some msg => setErrorMsg ("Failed to add task: " +:+ msg) s
  | None => setNewDesc "" s
  end.

(** The textarea's [onChange]:
    [setDraftByTask((prev) => ({ ...prev, [t.id]: { ...(prev[t.id] ?? {}), [OWNER]: v } }))] *)
Definition editDraft (taskId : string) (o : Owner) (v : string) (s : Dash) : Dash :=
  let prev := draftByTask s in
  setDraftByTask (<[taskId := <[o := v]> (default ∅ (prev !! taskId))]> prev) s.

(** ** The surroundings: browser timers, effect flush, gateway *)

(** A pending [setTimeout] callback of the autosave effect (lines 378-384).
    The arrow function closes over the loop variables [taskId], [owner] and
    over [draftByTask] and [notesByTask] of the render whose effect armed
    it; [tm_deadline] is the earliest time it may run. *)
Record Timer := mkTimer {
  tm_deadline : N;
  tm_taskId : string;
  tm_owner : Owner;
  tm_draftByTask : gmap string (gmap Owner string);
  tm_notesByTask : gmap string (gmap Owner NoteEntry)
}.

Record World := mkWorld {
  dash : Dash;
  clock : N;                              (* milliseconds *)
  timers : gmap positive Timer;           (* armed, not yet run or cleared *)
  nextHandle : positive;
  effectDeps : option nat;                (* [depsVersion] at the last effect run *)
  pendingUpserts : list UpsertReq;        (* [saveNote] calls awaiting the gateway *)
  pendingNoteLoads : list (list string);  (* [loadNotesForTasks] calls awaiting *)
  pendingTaskLoads : list Z;              (* [loadTasks] calls awaiting *)
  pendingInserts : list InsertReq;        (* [addTask] calls awaiting *)
  upsertLog : list UpsertReq;             (* every upsert issued so far, oldest first *)
  task_notes : list TaskNoteRow           (* the stored [task_notes] table *)
}.

Definition initWorld : World :=
  mkWorld initDash 0 ∅ 1 None [] [] [] [] [] [].

Definition wDash (v : Dash) (w : World) : World :=
  mkWorld v (clock w) (timers w) (nextHandle w) (effectDeps w) (pendingUpserts w)
          (pendingNoteLoads w) (pendingTaskLoads w) (pendingInserts w)
          (upsertLog w) (task_notes w).
Definition wClock (v : N) (w : World) : World :=
  mkWorld (dash w) v (timers w) (nextHandle w) (effectDeps w) (pendingUpserts w)
          (pendingNoteLoads w) (pendingTaskLoads w) (pendingInserts w)
          (upsertLog w) (task_notes w).
Definition wTimers (v : gmap positive Timer) (w : World) : World :=
  mkWorld (dash w) (clock w) v (nextHandle w) (effectDeps w) (pendingUpserts w)
          (pendingNoteLoads w) (pendingTaskLoads w) (pendingInserts w)
          (upsertLog w) (task_notes w).
Definition wNextHandle (v : positive) (w : World) : World :=
  mkWorld (dash w) (clock w) (timers w) v (effectDeps w) (pendingUpserts w)
          (pendingNoteLoads w) (pendingTaskLoads w) (pendingInserts w)
          (upsertLog w) (task_notes w).
Definition wEffectDeps (v : option nat) (w : World) : World :=
  mkWorld (dash w) (clock w) (timers w) (nextHandle w) v (pendingUpserts w)
          (pendingNoteLoads w) (pendingTaskLoads w) (pendingInserts w)
          (upsertLog w) (task_notes w).
Definition wPendingUpserts (v : list UpsertReq) (w : World) : World :=
  mkWorld (dash w) (clock w) (timers w) (nextHandle w) (effectDeps w) v
          (pendingNoteLoads w) (pendingTaskLoads w) (pendingInserts w)
          (upsertLog w) (task_notes w).
Definition wPendingNoteLoads (v : list (list string)) (w : World) : World :=
  mkWorld (dash w) (clock w) (timers w) (nextHandle w) (effectDeps w) (pendingUpserts w)
          v (pendingTaskLoads w) (pendingInserts w)
          (upsertLog w) (task_notes w).
Definition wPendingTaskLoads (v : list Z) (w : World) : World :=
  mkWorld (dash w) (clock w) (timers w) (nextHandle w) (effectDeps w) (pendingUpserts w)
          (pendingNoteLoads w) v (pendingInserts w)
          (upsertLog w) (task_notes w).
Definition wPendingInserts (v : list InsertReq) (w : World) : World :=
  mkWorld (dash w) (clock w) (timers w) (nextHandle w) (effectDeps w) (pendingUpserts w)
          (pendingNoteLoads w) (pendingTaskLoads w) v
          (upsertLog w) (task_notes w).
Definition wUpsertLog (v : list UpsertReq) (w : World) : World :=
  mkWorld (dash w) (clock w) (timers w) (nextHandle w) (effectDeps w) (pendingUpserts w)
          (pendingNoteLoads w) (pendingTaskLoads w) (pendingInserts w)
          v (task_notes w).
Definition wTaskNotes (v : list TaskNoteRow) (w : World) : World :=
  mkWorld (dash w) (clock w) (timers w) (nextHandle w) (effectDeps w) (pendingUpserts w)
          (pendingNoteLoads w) (pendingTaskLoads w) (pendingInserts w)
          (upsertLog w) v.

(** *** The gateway's [task_notes] table *)

Definition rowFor (taskId : string) (o : Owner) (r : TaskNoteRow) : bool :=
  bool_decide (nr_task_id r = taskId) && bool_decide (nr_owner r = o).

(** Modelled from the spec: the Remote Data Gateway's upsert on the
    uniqueness constraint [(task_id, owner)] (sections 3 and 6: "subsequent
    saves overwrite in place (upsert), never duplicate"; [updated_at] is
    "set by the store on write"), for a call whose conflict target is
    that pair, the only kind the page makes ([reachable_keyed]).  The
    gateway is a hosted service, not code of the page; [stamp] and [newId]
    are the time and row id it assigns. *)
Definition gatewayUpsert (r : UpsertReq) (stamp newId : string)
    (db : list TaskNoteRow) : list TaskNoteRow :=
  if existsb (rowFor (u_task_id r) (u_owner r)) db
  then (fun x => if rowFor (u_task_id r) (u_owner r) x
                 then mkTaskNoteRow (nr_id x) (nr_task_id x) (nr_owner x)
                                    (Some (u_note r)) stamp
                 else x) <$> db
  else db ++ [mkTaskNoteRow newId (u_task_id r) (u_owner r) (Some (u_note r)) stamp].

(** *** Starting requests *)

Definition issueUpsert (r : option UpsertReq) (w : World) : World :=
  match r with
  | Some q => wUpsertLog (upsertLog w ++ [q]) (wPendingUpserts (pendingUpserts w ++ [q]) w)
  | None => w
  end.

Definition issueNoteLoad (r : option (list string)) (w : World) : World :=
  match r with
  | Some ids => wPendingNoteLoads (pendingNoteLoads w ++ [ids]) w
  | None => w
  end.

Definition issueInsert (r : option InsertReq) (w : World) : World :=
  match r with
  | Some q => wPendingInserts (pendingInserts w ++ [q]) w
  | None => w
  end.

(** *** The autosave effect (lines 358-394) *)

Definition delayMs : N := 1500.

(** [clearTimeout(h)] *)
Definition clearTimeout (h : positive) (w : World) : World :=
  wTimers (delete h (timers w)) w.

(** The body of the inner loop for one [(taskId, owner)], run by the
    effect of a render whose state cells are [draft] and [notes]. *)
Definition armKey (draft : gmap string (gmap Owner string))
    (notes : gmap string (gmap Owner NoteEntry))
    (w : World) (taskId : string) (o : Owner) : World :=
  if bool_decide (draftOf draft taskId o = savedOf notes taskId o) then w
  else
    let key := makeKey taskId o in
    let w := match autosaveTimersRef (dash w) !! key with
             | Some existing => clearTimeout existing w
             | None => w
             end in
    let h := nextHandle w in
    let tm := mkTimer (clock w + delayMs) taskId o draft notes in
    let w := wNextHandle (Pos.succ h) (wTimers (<[h := tm]> (timers w)) w) in
    wDash (setAutosaveTimers (<[key := h]> (autosaveTimersRef (dash w))) (dash w)) w.

Definition effectBody (w : World) : World :=
  let draft := draftByTask (dash w) in
  let notes := notesByTask (dash w) in
  foldl (fun w task => foldl (fun w o => armKey draft notes w (id task) o) w ALL_OWNERS)
        w (tasks (dash w)).

(** The cleanup returned by the previous run: [clearTimeout] on every
    handle stored in [autosaveTimersRef.current] (the entries stay). *)
Definition effectCleanup (w : World) : World :=
  foldr clearTimeout w (map_to_list (autosaveTimersRef (dash w))).*2.

(** React runs the effect after a commit whose dependency array differs
    from the one of the previous run, the previous cleanup first. *)
Definition flushEffects (w : World) : World :=
  if bool_decide (effectDeps w = Some (depsVersion (dash w))) then w
  else
    let w := match effectDeps w with
             | Some _ => effectCleanup w
             | None => w
             end in
    wEffectDeps (Some (depsVersion (dash w))) (effectBody w).

(** *** A timer running *)

(** The callback, lines 378-384.  [draftByTask], [notesByTask] and
    [saveNote] are those of the closure. *)
Definition timerCallback (tm : Timer) (s : Dash) : Dash * option UpsertReq :=
  let latestDraft := draftOf (tm_draftByTask tm) (tm_taskId tm) (tm_owner tm) in
  let latestSaved := savedOf (tm_notesByTask tm) (tm_taskId tm) (tm_owner tm) in
  if bool_decide (latestDraft ≠ latestSaved)
  then saveNote (tm_draftByTask tm) (tm_taskId tm) (tm_owner tm) (Some latestDraft) s
  else (s, None).

(** The browser runs timer [h] if it is armed and its delay has elapsed. *)
Definition fireTimer (h : positive) (w : World) : World :=
  match timers w !! h with
  | Some tm =>
      if (tm_deadline tm <=? clock w)%N
      then
        let w := wTimers (delete h (timers w)) w in
        let res := timerCallback tm (dash w) in
        issueUpsert res.2 (wDash res.1 w)
      else w
  | None => w
  end.

(** *** Events *)

(** What can happen to a mounted, authenticated page.  Responses carry
    the index of the awaited call they answer and the gateway's answer;
    [EvFlushEffects] is React flushing passive effects, which it does some
    time after the commit that scheduled them.  A commit and the render
    that follows it are one step here: a click or a keystroke is handled
    by the handlers of the committed state, and only the effect and the
    timers it arms keep the values of an earlier render. *)
Inductive Event :=
| EvSelectWeek (wk : Z)
| EvTasksPush
| EvTasksLoaded (i : nat) (resp : string + list TaskRow)
| EvNotesPush (p : Payload)
| EvNotesLoaded (i : nat) (resp : string + list TaskNoteRow)
| EvEdit (taskId : string) (o : Owner) (v : string)
| EvClickSave (taskId : string) (o : Owner)
| EvUpsertDone (i : nat) (error : option string) (nowIso stamp newId : string)
| EvSetNewOwner (o : Owner)
| EvSetNewDesc (v : string)
| EvAddTask
| EvInsertDone (i : nat) (error : option string)
| EvFlushEffects
| EvTick (dt : N)
| EvTimer (h : positive).

(** The note editors and their buttons exist for the rows of [tasks]. *)
Definition taskVisible (taskId : string) (s : Dash) : bool :=
  bool_decide (taskId ∈ id <$> tasks s).

Definition startLoadTasks (w : World) : World :=
  match selectedWeek (dash w) with
  | Some wk =>
      if noWeekSelected (Some wk) then w
      else
        let res := loadTasks wk (dash w) in
        wPendingTaskLoads (pendingTaskLoads w ++ [res.2]) (wDash res.1 w)
  | None => w
  end.

Definition step (e : Event) (w : World) : World :=
  match e with
  | EvSelectWeek wk =>
      if bool_decide (selectedWeek (dash w) = Some wk) then w
      else startLoadTasks (wDash (setSelectedWeek (Some wk) (dash w)) w)
  | EvTasksPush => startLoadTasks w
  | EvTasksLoaded i resp =>
      match pendingTaskLoads w !! i with
      | Some _ =>
          let res := loadTasks_resume resp (dash w) in
          issueNoteLoad res.2
            (wDash res.1 (wPendingTaskLoads (delete i (pendingTaskLoads w)) w))
      | None => w
      end
  | EvNotesPush p =>
      if noWeekSelected (selectedWeek (dash w)) then w
      else
        let res := onNotesChange p (dash w) in
        issueNoteLoad res.2 (wDash res.1 w)
  | EvNotesLoaded i resp =>
      match pendingNoteLoads w !! i with
      | Some ids =>
          wDash (loadNotesForTasks_resume ids resp (dash w))
                (wPendingNoteLoads (delete i (pendingNoteLoads w)) w)
      | None => w
      end
  | EvEdit taskId o v =>
      if taskVisible taskId (dash w) then wDash (editDraft taskId o v (dash w)) w
      else w
  | EvClickSave taskId o =>
      if taskVisible taskId (dash w) then
        let res := saveNote (draftByTask (dash w)) taskId o None (dash w) in
        issueUpsert res.2 (wDash res.1 w)
      else w
  | EvUpsertDone i error nowIso stamp newId =>
      match pendingUpserts w !! i with
      | Some r =>
          let w := wPendingUpserts (delete i (pendingUpserts w)) w in
          let w := match error with
                   | None => wTaskNotes (gatewayUpsert r stamp newId (task_notes w)) w
                   | Some _ => w
                   end in
          wDash (saveNote_resume r error nowIso (dash w)) w
      | None => w
      end
  | EvSetNewOwner o => wDash (setNewOwner o (dash w)) w
  | EvSetNewDesc v => wDash (setNewDesc v (dash w)) w
  | EvAddTask =>
      let res := addTask (dash w) in
      issueInsert res.2 (wDash res.1 w)
  | EvInsertDone i error =>
      match pendingInserts w !! i with
      | Some _ =>
          wDash (addTask_resume error (dash w))
                (wPendingInserts (delete i (pendingInserts w)) w)
      | None => w
      end
  | EvFlushEffects => flushEffects w
  | EvTick dt => wClock (clock w + dt) w
  | EvTimer h => fireTimer h w
  end.

Definition run (es : list Event) (w : World) : World :=
  foldl (fun w e => step e w) w es.

Definition reachable (w : World) : Prop :=
  ∃ es, w = run es initWorld.

(** Time passing with the browser running every timer that has come due,
    oldest handle first (all delays are equal, so this is deadline order). *)
Definition handlesUpTo (n : positive) : list positive :=
  Pos.of_succ_nat <$> seq 0 (Pos.to_nat n - 1).

Definition runDue (w : World) : World :=
  foldl (fun w h => fireTimer h w) w (handlesUpTo (nextHandle w)).

Definition advance (dt : N) (w : World) : World :=
  runDue (wClock (clock w + dt) w).

(** A keystroke in a note editor: a discrete input event, which React
    commits and whose effects it flushes before handling anything else. *)
Definition typeDraft (taskId : string) (o : Owner) (v : string) (w : World) : World :=
  flushEffects (step (EvEdit taskId o v) w).

(** The upserts issued so far for one [(taskId, owner)]. *)
Definition upsertsFor (taskId : string) (o : Owner) (l : list UpsertReq) : list UpsertReq :=
  filter (fun r => u_task_id r = taskId ∧ u_owner r = o) l.

(** The stored rows of one [(taskId, owner)]. *)
Definition rowsFor (taskId : string) (o : Owner) (db : list TaskNoteRow) : list TaskNoteRow :=
  filter (fun r => nr_task_id r = taskId ∧ nr_owner r = o) db.

(** The parts of the world the autosave effect writes. *)
Definition withTimerState (ref : gmap string positive) (tms : gmap positive Timer)
    (nh : positive) (ed : option nat) (w : World) : World :=
  wEffectDeps ed (wNextHandle nh (wTimers tms
    (wDash (setAutosaveTimers ref (dash w)) w))).

(** The pairs the two nested loops of the effect visit, in order. *)
Definition effectPairs (s : Dash) : list (string * Owner) :=
  tasks s ≫= fun task => (fun o => (id task, o)) <$> ALL_OWNERS.

(** A burst of keystrokes in one editor: each [(gap, v)] is a wait of
    [gap] milliseconds followed by the draft being set to [v]. *)
Definition rapidEdits (taskId : string) (o : Owner) (es : list (N * string))
    (w : World) : World :=
  foldl (fun w e => typeDraft taskId o e.2 (advance e.1 w)) w es.

Definition upsertKey (r : UpsertReq) : string := makeKey (u_task_id r) (u_owner r).

Definition timerKey (tm : Timer) : string := makeKey (tm_taskId tm) (tm_owner tm).

(** ** Specification-side notions *)

(** What the specification says the hydrated entry of a pair is: the
    default when no fetched row is for the pair, the (last) fetched row
    otherwise. *)
Definition expectedEntry (taskId : string) (o : Owner) (noteRows : list TaskNoteRow)
    : NoteEntry :=
  match last (filter (fun r => nr_task_id r = taskId ∧ nr_owner r = o) noteRows) with
  | None => mkNoteEntry "" None None
  | Some r => mkNoteEntry (default "" (nr_note r)) (Some (nr_updated_at r)) (Some (nr_id r))
  end.

(** A pair is dirty when its draft differs from its cached saved note. *)
Definition dirty (s : Dash) (taskId : string) (o : Owner) : Prop :=
  draftOf (draftByTask s) taskId o ≠ savedOf (notesByTask s) taskId o.

(** The uniqueness constraint of the store on [(task_id, owner)]. *)
Definition uniqueRows (db : list TaskNoteRow) : Prop :=
  ∀ taskId o, (length (rowsFor taskId o db) ≤ 1)%nat.

(** Mutual exclusion: awaited upserts have pairwise different keys, each
    marked in [autosaveInFlightRef]. *)
Definition inFlightInv (w : World) : Prop :=
  NoDup (upsertKey <$> pendingUpserts w)
  ∧ ∀ r, r ∈ pendingUpserts w → upsertKey r ∈ autosaveInFlightRef (dash w).

(** Bookkeeping of timers: an armed timer is the one recorded for its key
    in [autosaveTimersRef]; recorded handles are older than [nextHandle]
    and differ from key to key; the effect has not run at a newer
    [depsVersion] than the current one, and before its first run nothing is
    armed. *)
Definition timersInv (w : World) : Prop :=
  (∀ h tm, timers w !! h = Some tm →
           autosaveTimersRef (dash w) !! timerKey tm = Some h)
  ∧ (∀ k h, autosaveTimersRef (dash w) !! k = Some h → (h < nextHandle w)%positive)
  ∧ (∀ k1 k2 h, autosaveTimersRef (dash w) !! k1 = Some h →
                autosaveTimersRef (dash w) !! k2 = Some h → k1 = k2)
  ∧ (∀ v, effectDeps w = Some v → (v ≤ depsVersion (dash w))%nat)
  ∧ (effectDeps w = None → timers w = ∅).

(** What holds inside the effect's loops, run at time [c] by a render with
    caches [d] and [n], once the pairs [visited] have been handled; [nh0]
    is the first handle not in use when the loops started. *)
Definition loopInv (d : gmap string (gmap Owner string))
    (n : gmap string (gmap Owner NoteEntry)) (c : N) (nh0 : positive)
    (visited : list (string * Owner)) (w : World) : Prop :=
  clock w = c
  ∧ (∀ h tm, timers w !! h = Some tm →
       tm = mkTimer (c + delayMs) (tm_taskId tm) (tm_owner tm) d n
       ∧ (tm_taskId tm, tm_owner tm) ∈ visited
       ∧ draftOf d (tm_taskId tm) (tm_owner tm) ≠ savedOf n (tm_taskId tm) (tm_owner tm))
  ∧ (∀ t o, (t, o) ∈ visited → draftOf d t o ≠ savedOf n t o →
       ∃ h, timers w !! h = Some (mkTimer (c + delayMs) t o d n))
  ∧ (∀ h tm, timers w !! h = Some tm →
       autosaveTimersRef (dash w) !! timerKey tm = Some h)
  ∧ (∀ k h, autosaveTimersRef (dash w) !! k = Some h → (h < nextHandle w)%positive)
  ∧ (∀ k1 k2 h, autosaveTimersRef (dash w) !! k1 = Some h →
                autosaveTimersRef (dash w) !! k2 = Some h → k1 = k2)
  ∧ (nh0 ≤ nextHandle w)%positive
  ∧ (∀ h tm, timers w !! h = Some tm → (nh0 ≤ h)%positive).

(** The state of the timers right after the autosave effect ran: exactly
    the dirty pairs of visible tasks have a timer, due one delay from now,
    closed over the current draft and note caches. *)
Definition armedNow (w : World) : Prop :=
  (∀ h tm, timers w !! h = Some tm →
      tm = mkTimer (clock w + delayMs) (tm_taskId tm) (tm_owner tm)
                   (draftByTask (dash w)) (notesByTask (dash w))
      ∧ taskVisible (tm_taskId tm) (dash w) = true
      ∧ dirty (dash w) (tm_taskId tm) (tm_owner tm))
  ∧ (∀ taskId o, taskVisible taskId (dash w) = true → dirty (dash w) taskId o →
      ∃ h, timers w !! h
           = Some (mkTimer (clock w + delayMs) taskId o
                           (draftByTask (dash w)) (notesByTask (dash w)))).

(** What holds after each keystroke of a burst in the editor of [(t, o)]
    that started in [w0], once the draft has become [v]. *)
Definition burstInv (t : string) (o : Owner) (w0 : World) (v : string) (w : World) : Prop :=
  timersInv w ∧ armedNow w
  ∧ taskVisible t (dash w) = true
  ∧ upsertLog w = upsertLog w0
  ∧ autosaveInFlightRef (dash w) = autosaveInFlightRef (dash w0)
  ∧ notesByTask (dash w) = notesByTask (dash w0)
  ∧ draftOf (draftByTask (dash w)) t o = v
  ∧ (nextHandle w0 ≤ nextHandle w)%positive
  ∧ (∀ h tm, timers w !! h = Some tm → (nextHandle w0 ≤ h)%positive).

(** The page with week 3 selected, one task loaded and its notes hydrated
    (none stored), used to run the handlers on concrete input. *)
Definition task1 : TaskRow := mkTaskRow "t1" 3 OWNER_A "Call clinic" Pending None None.

Definition week3 : World :=
  run [EvSelectWeek 3; EvTasksLoaded 0 (inr [task1]); EvNotesLoaded 0 (inr []);
       EvFlushEffects] initWorld.

(** ** The rest of the dashboard: session gate, weeks, status updates *)

(** What the page reads of a session: [session.user.email], which may be
    missing. *)
Record Session := mkSession { s_email : option string }.

(** [type WeekRow] *)
Record WeekRow := mkWeekRow {
  w_week_number : Z;
  w_title : string;
  w_objectives : list string;
  w_deliverables : list string;
  w_kpis : list string;
  w_risks : list string
}.

(** A row of [weeks] as fetched ([w: any]): the title may be [null], and
    each list field is [Some l] when [Array.isArray] holds of it. *)
Record RawWeek := mkRawWeek {
  rw_week_number : Z;
  rw_title : option string;
  rw_objectives : option (list string);
  rw_deliverables : option (list string);
  rw_kpis : option (list string);
  rw_risks : option (list string)
}.

(** The body of [(data ?? []).map((w: any) => ({ ... }))] in [loadWeeks]. *)
Definition safeWeek (w : RawWeek) : WeekRow :=
  mkWeekRow (rw_week_number w) (default "" (rw_title w))
            (default [] (rw_objectives w)) (default [] (rw_deliverables w))
            (default [] (rw_kpis w)) (default [] (rw_risks w)).

(** The state of [DashboardPage] around the task and note handlers:
    [world] is the part modelled above; [location] is the last target of
    [window.location.assign]; [sessionPending] tells whether [requireAuth]
    still awaits [getSession]; [pendingWeekLoads] are the awaited
    [loadWeeks] calls, each with the [selectedWeek] of its render. *)
Record Shell := mkShell {
  authChecked : bool;
  userEmail : string;
  weeks : list WeekRow;
  loadingWeeks : bool;
  location : option string;
  sessionPending : bool;
  pendingWeekLoads : list (option Z);
  world : World
}.

Definition initShell : Shell :=
  mkShell false "" [] false None true [] initWorld.

Definition setAuthChecked (v : bool) (sh : Shell) : Shell :=
  mkShell v (userEmail sh) (weeks sh) (loadingWeeks sh) (location sh)
          (sessionPending sh) (pendingWeekLoads sh) (world sh).
Definition setUserEmail (v : string) (sh : Shell) : Shell :=
  mkShell (authChecked sh) v (weeks sh) (loadingWeeks sh) (location sh)
          (sessionPending sh) (pendingWeekLoads sh) (world sh).
Definition setWeeks (v : list WeekRow) (sh : Shell) : Shell :=
  mkShell (authChecked sh) (userEmail sh) v (loadingWeeks sh) (location sh)
          (sessionPending sh) (pendingWeekLoads sh) (world sh).
Definition setLoadingWeeks (v : bool) (sh : Shell) : Shell :=
  mkShell (authChecked sh) (userEmail sh) (weeks sh) v (location sh)
          (sessionPending sh) (pendingWeekLoads sh) (world sh).
Definition assignLocation (v : string) (sh : Shell) : Shell :=
  mkShell (authChecked sh) (userEmail sh) (weeks sh) (loadingWeeks sh) (Some v)
          (sessionPending sh) (pendingWeekLoads sh) (world sh).
Definition setSessionPending (v : bool) (sh : Shell) : Shell :=
  mkShell (authChecked sh) (userEmail sh) (weeks sh) (loadingWeeks sh) (location sh)
          v (pendingWeekLoads sh) (world sh).
Definition setPendingWeekLoads (v : list (option Z)) (sh : Shell) : Shell :=
  mkShell (authChecked sh) (userEmail sh) (weeks sh) (loadingWeeks sh) (location sh)
          (sessionPending sh) v (world sh).
Definition setWorld (v : World) (sh : Shell) : Shell :=
  mkShell (authChecked sh) (userEmail sh) (weeks sh) (loadingWeeks sh) (location sh)
          (sessionPending sh) (pendingWeekLoads sh) v.

(** A setter of [Dash] applied to the page's state. *)
Definition onDash (f : Dash → Dash) (sh : Shell) : Shell :=
  setWorld (wDash (f (dash (world sh))) (world sh)) sh.

(** The continuation of [requireAuth] after [getSession]: [session] is
    [data.session], [cancelled] the flag set by the effect's cleanup. *)
Definition requireAuth_resume (session : option Session) (cancelled : bool)
    (sh : Shell) : Shell :=
  match session with
  | None => assignLocation "/login" sh
  | Some sess =>
      if cancelled then sh
      else setAuthChecked true (setUserEmail (default "" (s_email sess)) sh)
  end.

(** The [onAuthStateChange] callback. *)
Definition onAuthStateChange (session : option Session) (sh : Shell) : Shell :=
  match session with
  | None => assignLocation "/login" sh
  | Some _ => sh
  end.

(** [loadWeeks] up to its [await]. *)
Definition loadWeeks (sh : Shell) : Shell :=
  let sel := selectedWeek (dash (world sh)) in
  setPendingWeekLoads (pendingWeekLoads sh ++ [sel])
    (setLoadingWeeks true (onDash (setErrorMsg "") sh)).

(** [loadWeeks] after its [await]; [renderSelected] is the [selectedWeek]
    its closure holds. *)
Definition loadWeeks_resume (renderSelected : option Z)
    (resp : string + list RawWeek) (sh : Shell) : Shell :=
  let sh := setLoadingWeeks false sh in
  match resp with
  | inl msg => onDash (setErrorMsg ("Failed to load weeks: " +:+ msg)) sh
  | inr data =>
      let safeWeeks := safeWeek <$> data in
      let sh := setWeeks safeWeeks sh in
      match safeWeeks with
      | first :: _ =>
          if existsb (fun x => bool_decide (Some (w_week_number x) = renderSelected))
                     safeWeeks
          then sh
          else onDash (setSelectedWeek (Some (w_week_number first))) sh
      | [] => sh
      end
  end.

(** The [week] memo: the row shown in the details panel. *)
Definition week (sh : Shell) : option WeekRow :=
  let sel := selectedWeek (dash (world sh)) in
  if noWeekSelected sel then None
  else sel ≫= fun n => List.find (fun w => bool_decide (w_week_number w = n)) (weeks sh).

(** The effect on [[authChecked, selectedWeek]] that loads the tasks: it
    runs when the selection differs from [old], the one of the previous
    render. *)
Definition tasksEffect (old : option Z) (sh : Shell) : Shell :=
  if authChecked sh && negb (bool_decide (selectedWeek (dash (world sh)) = old))
  then setWorld (startLoadTasks (world sh)) sh
  else sh.

Inductive ShellEvent :=
| SvSession (session : option Session) (cancelled : bool)
| SvAuthChange (session : option Session)
| SvWeeksLoaded (i : nat) (resp : string + list RawWeek)
| SvSignOut
| SvInner (e : Event).

(** Events that need the rendered dashboard (it is rendered only once
    [authChecked] holds) or a change-feed subscription (made only then). *)
Definition needsAuth (e : Event) : bool :=
  match e with
  | EvSelectWeek _ | EvEdit _ _ _ | EvClickSave _ _ | EvSetNewOwner _
  | EvSetNewDesc _ | EvAddTask | EvTasksPush | EvNotesPush _ => true
  | _ => false
  end.

Definition shellStep (e : ShellEvent) (sh : Shell) : Shell :=
  match e with
  | SvSession session cancelled =>
      if sessionPending sh then
        let sh1 := requireAuth_resume session cancelled (setSessionPending false sh) in
        if authChecked sh1 && negb (authChecked sh)
        then let sh2 := loadWeeks sh1 in setWorld (startLoadTasks (world sh2)) sh2
        else sh1
      else sh
  | SvAuthChange session => onAuthStateChange session sh
  | SvWeeksLoaded i resp =>
      match pendingWeekLoads sh !! i with
      | Some renderSelected =>
          let old := selectedWeek (dash (world sh)) in
          tasksEffect old
            (loadWeeks_resume renderSelected resp
               (setPendingWeekLoads (delete i (pendingWeekLoads sh)) sh))
      | None => sh
      end
  | SvSignOut => if authChecked sh then assignLocation "/login" sh else sh
  | SvInner e0 =>
      if needsAuth e0 && negb (authChecked sh) then sh
      else setWorld (step e0 (world sh)) sh
  end.

Definition shellRun (es : list ShellEvent) (sh : Shell) : Shell :=
  foldl (fun sh e => shellStep e sh) sh es.

(** Nothing has been asked of the gateway and nothing is shown. *)
Definition quiet (sh : Shell) : Prop :=
  pendingWeekLoads sh = [] ∧ weeks sh = []
  ∧ tasks (dash (world sh)) = []
  ∧ selectedWeek (dash (world sh)) = None
  ∧ pendingTaskLoads (world sh) = [] ∧ pendingNoteLoads (world sh) = []
  ∧ pendingInserts (world sh) = [] ∧ pendingUpserts (world sh) = []
  ∧ upsertLog (world sh) = [] ∧ timers (world sh) = ∅.

(** The invariant of the session gate. *)
Definition gateInv (sh : Shell) : Prop :=
  (sessionPending sh = true → authChecked sh = false)
  ∧ (authChecked sh = false → quiet sh).

(** *** Status updates *)

(** [supabase.from("tasks").update({ status }).eq("id", taskId)] *)
Record UpdateReq := mkUpdateReq {
  up_id : string;
  up_status : Status
}.

Definition updateStatus (taskId : string) (st : Status) (s : Dash) : Dash * UpdateReq :=
  (setErrorMsg "" s, mkUpdateReq taskId st).

Definition setTaskCompleted (taskId : string) (completed : bool) (s : Dash)
    : Dash * UpdateReq :=
  let s := setErrorMsg "" s in
  let st := if completed then Completed else Pending in
  (s, mkUpdateReq taskId st).

(** The continuation shared by both (the two bodies are the same). *)
Definition updateStatus_resume (error : option string) (s : Dash) : Dash :=
  match error with
  | Some msg => setErrorMsg ("Failed to update task: " +:+ msg) s
  | None => s
  end.

(** The checkbox of a row: [checked = t.status === "Completed"], and its
    [onChange] passes the new state of the box, the opposite. *)
Definition checkboxClick (t : TaskRow) (s : Dash) : Dash * UpdateReq :=
  let checked := bool_decide (status t = Completed) in
  setTaskCompleted (id t) (negb checked) s.

(** The row as the store holds it once the update has been applied. *)
Definition withStatus (st : Status) (t : TaskRow) : TaskRow :=
  mkTaskRow (id t) (week_number t) (owner t) (description t) st
            (created_at t) (updated_at t).

(** *** The change-feed subscriptions (the effect of lines 240-269) *)

(** [supabase.channel(`tasks-week-${wk}`)] with filter
    [week_number=eq.wk], and [supabase.channel("task-notes")]. *)
Inductive Channel := TasksChannel (wk : Z) | NotesChannel.

#[global] Instance Channel_eq_dec : EqDecision Channel.
Proof. solve_decision. Defined.

(** [channels]: the subscribed channel objects by identity; [rtCleanup]:
    the channels the cleanup returned by the last run will remove ([None]
    when that run returned early); [rtDeps]: its dependency array. *)
Record Realtime := mkRealtime {
  channels : gmap nat Channel;
  nextChannel : nat;
  rtCleanup : option (nat * nat);
  rtDeps : option (bool * option Z)
}.

Definition initRealtime : Realtime := mkRealtime ∅ 0 None None.

Definition realtimeCleanup (r : Realtime) : Realtime :=
  match rtCleanup r with
  | Some (a, b) =>
      mkRealtime (delete b (delete a (channels r))) (nextChannel r) None (rtDeps r)
  | None => r
  end.

Definition realtimeBody (auth : bool) (sel : option Z) (r : Realtime) : Realtime :=
  if negb auth || noWeekSelected sel then r
  else
    match sel with
    | Some wk =>
        let a := nextChannel r in
        let b := S a in
        mkRealtime (<[b := NotesChannel]> (<[a := TasksChannel wk]> (channels r)))
                   (S b) (Some (a, b)) (rtDeps r)
    | None => r
    end.

(** One render: the effect runs when [[authChecked, selectedWeek]] has
    changed, the previous cleanup first. *)
Definition realtimeEffect (r : Realtime) (deps : bool * option Z) : Realtime :=
  if bool_decide (rtDeps r = Some deps) then r
  else
    let r1 := realtimeBody deps.1 deps.2 (realtimeCleanup r) in
    mkRealtime (channels r1) (nextChannel r1) (rtCleanup r1) (Some deps).

(** The subscriptions after a sequence of renders. *)
Definition realtimeAfter (renders : list (bool * option Z)) : Realtime :=
  foldl realtimeEffect initRealtime renders.

(** What the invariant of the subscriptions says for dependencies [deps]. *)
Definition subscribedFor (deps : option (bool * option Z)) (r : Realtime) : Prop :=
  rtDeps r = deps
  ∧ match rtCleanup r with
    | Some (a, b) =>
        ∃ wk, deps = Some (true, Some wk) ∧ wk ≠ 0%Z
              ∧ a < b ∧ b < nextChannel r
              ∧ channels r = <[b := NotesChannel]> (<[a := TasksChannel wk]> ∅)
    | None =>
        channels r = ∅
        ∧ ∀ wk, deps = Some (true, Some wk) → wk = 0%Z
    end.

(** ** The login page *)

Record Login := mkLogin {
  l_email : string;
  l_password : string;
  l_msg : string;
  l_sessionInfo : string;
  l_location : option string
}.

Definition setMsg (v : string) (l : Login) : Login :=
  mkLogin (l_email l) (l_password l) v (l_sessionInfo l) (l_location l).
Definition setSessionInfo (v : string) (l : Login) : Login :=
  mkLogin (l_email l) (l_password l) (l_msg l) v (l_location l).
Definition loginAssign (v : string) (l : Login) : Login :=
  mkLogin (l_email l) (l_password l) (l_msg l) (l_sessionInfo l) (Some v).

(** [refreshSessionInfo], given the answer of [getSession]: an error
    message or [data.session].  A missing email prints as ["undefined"]
    in the template string. *)
Definition refreshSessionInfo (ans : string + option Session) (l : Login) : Login :=
  match ans with
  | inl e => setSessionInfo ("Session error: " +:+ e) l
  | inr (Some sess) =>
      setSessionInfo ("SIGNED IN as " +:+ default "undefined" (s_email sess)) l
  | inr None => setSessionInfo "SIGNED OUT (no session)" l
  end.

(** [signIn], given the answers of its awaits: [resp] of
    [signInWithPassword] (an error, or [data.session]), [fallback] of the
    [getSession] consulted when [data.session] is missing, [refresh] of
    the [getSession] inside [refreshSessionInfo]. *)
Definition signIn (resp : string + option Session) (fallback : option Session)
    (refresh : string + option Session) (l : Login) : Login :=
  let l := setMsg "" l in
  match resp with
  | inl e => refreshSessionInfo refresh (setMsg e l)
  | inr dataSession =>
      let session := match dataSession with
                     | Some x => Some x
                     | None => fallback
                     end in
      match session with
      | None =>
          refreshSessionInfo refresh
            (setMsg "Sign-in succeeded but no session is being stored. Check Supabase Auth settings." l)
      | Some _ =>
          loginAssign "/" (refreshSessionInfo refresh (setMsg "Signed in. Redirecting…" l))
      end
  end.

Definition signUp (error : option string) (refresh : string + option Session)
    (l : Login) : Login :=
  let l := setMsg "" l in
  let l := setMsg (default "Signup successful. Now click Sign In." error) l in
  refreshSessionInfo refresh l.

Definition loginSignOut (refresh : string + option Session) (l : Login) : Login :=
  let l := setMsg "" l in
  setMsg "Signed out." (refreshSessionInfo refresh l).

(** * Properties *)

(** ** Strings *)

Section strings.

Lemma list_ascii_of_string_app (a b : string) :
  list_ascii_of_string (a +:+ b)
  = (list_ascii_of_string a ++ list_ascii_of_string b)%list.
Proof. induction a as [|c a IH]; simpl; [done | by rewrite IH]. Qed.

Lemma list_ascii_of_string_inj (a b : string) :
  list_ascii_of_string a = list_ascii_of_string b → a = b.
Proof.
  intros H.
  rewrite <- (string_of_list_ascii_of_string a), <- (string_of_list_ascii_of_string b).
  by rewrite H.
Qed.

(** Two keys are equal only for the same task and owner: the owner
    labels differ six characters from their end. *)
Lemma makeKey_inj (t1 t2 : string) (o1 o2 : Owner) :
  makeKey t1 o1 = makeKey t2 o2 → t1 = t2 ∧ o1 = o2.
Proof.
  unfold makeKey. intros H.
  apply (f_equal list_ascii_of_string) in H.
  rewrite !list_ascii_of_string_app in H.
  destruct o1, o2; simpl in H.
  - apply app_inv_tail in H. split; [by apply list_ascii_of_string_inj | done].
  - apply (f_equal (@rev ascii)) in H. rewrite !rev_app_distr in H.
    simpl in H. discriminate.
  - apply (f_equal (@rev ascii)) in H. rewrite !rev_app_distr in H.
    simpl in H. discriminate.
  - apply app_inv_tail in H. split; [by apply list_ascii_of_string_inj | done].
Qed.

Lemma makeKey_ne (t1 t2 : string) (o1 o2 : Owner) :
  (t1, o1) ≠ (t2, o2) → makeKey t1 o1 ≠ makeKey t2 o2.
Proof. intros Hne Hk. apply makeKey_inj in Hk as [-> ->]. done. Qed.

Lemma truthy_spec (s : string) : truthy s = false ↔ s = "".
Proof. destruct s; simpl; split; congruence. Qed.

Lemma dropWs_idemp (l : list ascii) : dropWs (dropWs l) = dropWs l.
Proof.
  induction l as [|c r IH]; simpl; [done|].
  destruct (is_ws c) eqn:E; [done | simpl; by rewrite E].
Qed.

(** [dropWs] leaves alone a list whose last element is kept. *)
Lemma dropWs_rev_dropWs (l : list ascii) :
  dropWs (rev (dropWs (rev (dropWs l)))) = rev (dropWs (rev (dropWs l))).
Proof.
  induction l as [|c r IH]; simpl; [done|].
  destruct (is_ws c) eqn:E; [done|].
  simpl.
  assert (Hgen : ∀ (m : list ascii) x, is_ws x = false →
             ∃ m', dropWs (m ++ [x])%list = (m' ++ [x])%list).
  { intros m x Hx. induction m as [|y m IHm]; simpl.
    - rewrite Hx. by exists [].
    - destruct (is_ws y); [done | by exists (y :: m)]. }
  destruct (Hgen (rev r) c E) as [m' Hm'].
  rewrite Hm'. rewrite rev_app_distr. simpl. by rewrite E.
Qed.

Lemma trim_idemp (s : string) : trim (trim s) = trim s.
Proof.
  unfold trim, trimList. rewrite list_ascii_of_string_of_list_ascii.
  by rewrite dropWs_rev_dropWs, rev_involutive, dropWs_rev_dropWs.
Qed.

End strings.

(** ** Hydration with nothing visible *)

(** C10. Hydrating with an empty list of visible task ids issues no fetch
    and installs empty note and draft caches, so no entry of an earlier
    week is left in either; this is what [loadTasks] does when the selected
    week has no task. *)
Theorem hydrate_nothing_visible (s : Dash) :
  let res := loadNotesForTasks [] s in
  res.2 = None
  ∧ notesByTask res.1 = ∅
  ∧ draftByTask res.1 = ∅
  ∧ (∀ taskId, notesByTask res.1 !! taskId = None ∧ draftByTask res.1 !! taskId = None)
  ∧ (loadTasks_resume (inr []) s).2 = None
  ∧ notesByTask (loadTasks_resume (inr []) s).1 = ∅
  ∧ draftByTask (loadTasks_resume (inr []) s).1 = ∅.
Proof.
  simpl. repeat split; reflexivity.
Qed.

(** ** Adding a task *)

(** C9. [addTask] returns the state untouched and issues nothing when no
    week is selected ([selectedWeek] is [null], or the falsy [0]) or when
    the description trims to the empty string.  Otherwise it issues exactly
    one insert carrying the selected week, the chosen owner, the trimmed
    description and status [Pending]; neither it nor its continuation
    changes [tasks]. *)
Theorem addTask_guarded_insert (s : Dash) :
  (noWeekSelected (selectedWeek s) = true ∨ trim (newDesc s) = "" →
     addTask s = (s, None))
  ∧ (∀ wk, selectedWeek s = Some wk → wk ≠ 0%Z → trim (newDesc s) ≠ "" →
       (addTask s).2 = Some (mkInsertReq wk (newOwner s) (trim (newDesc s)) Pending)
       ∧ tasks (addTask s).1 = tasks s)
  ∧ (∀ error, tasks (addTask_resume error s) = tasks s).
Proof.
  split; [|split].
  - intros [Hw | Hd]; unfold addTask.
    + by rewrite Hw.
    + destruct (noWeekSelected (selectedWeek s)); [done|].
      by rewrite Hd.
  - intros wk Hsel Hwk Hd. unfold addTask. rewrite Hsel. simpl.
    rewrite bool_decide_eq_false_2 by done.
    destruct (truthy (trim (newDesc s))) eqn:E; [done|].
    by apply truthy_spec in E.
  - by intros [msg|].
Qed.

Lemma addTask_guarded_insert_witness :
  let s := setNewDesc "  Call clinic " (setSelectedWeek (Some 3%Z) initDash) in
  (addTask s).2 = Some (mkInsertReq 3 OWNER_A "Call clinic" Pending)
  ∧ tasks (addTask s).1 = []
  ∧ addTask (setSelectedWeek None s) = (setSelectedWeek None s, None)
  ∧ addTask (setNewDesc "   " s) = (setNewDesc "   " s, None).
Proof.
  intros s.
  pose proof (addTask_guarded_insert s) as (_ & Hins & _).
  pose proof (addTask_guarded_insert (setSelectedWeek None s)) as (Hnone & _ & _).
  pose proof (addTask_guarded_insert (setNewDesc "   " s)) as (Hblank & _ & _).
  destruct (Hins 3%Z) as [Hreq Htasks]; [reflexivity | lia | by vm_compute |].
  split; [exact Hreq|]. split; [exact Htasks|].
  split; [apply Hnone; left; reflexivity | apply Hblank; right; reflexivity].
Defined.

(** ** The change feed of notes *)

Lemma onNotesChange_exact (p : Payload) (s : Dash) :
  (∃ taskId, payloadTaskId p = Some taskId ∧ taskId ≠ "" ∧ taskId ∈ taskIdSetRef s)
  ∧ onNotesChange p s = (setErrorMsg "" s, Some (taskIdSetRef s))
  ∨ ¬ (∃ taskId, payloadTaskId p = Some taskId ∧ taskId ≠ "" ∧ taskId ∈ taskIdSetRef s)
    ∧ onNotesChange p s = (s, None).
Proof.
  unfold onNotesChange.
  destruct (payloadTaskId p) as [t|] eqn:Hp.
  - destruct (truthy t) eqn:Ht; simpl.
    + case_bool_decide as Hin.
      * left. split.
        { exists t. repeat split; [|done]. intros ->. done. }
        unfold loadNotesForTasks.
        destruct (taskIdSetRef s) eqn:He; [|done].
        by apply elem_of_nil in Hin.
      * right. split; [|done]. intros (t' & [= <-] & _ & Hin'). done.
    + right. split; [|done]. intros (t' & [= <-] & Hne & _).
      by apply truthy_spec in Ht.
  - right. split; [|done]. by intros (t' & ? & _).
Qed.

(** C8. Every pushed note change, whatever it carries: the callback starts
    a rehydration exactly when the task id of the event, that of the new
    row or, when the event has no new row, that of the old row, is in
    [taskIdSetRef] (the ids of visible tasks being non-empty strings).
    The rehydration asks for the notes of the whole visible set, in the
    order of the set; an event whose id is outside the set, or that
    carries no id, starts nothing and leaves the state as it was. *)
Theorem notes_push_scoped (p : Payload) (s : Dash) :
  "" ∉ taskIdSetRef s →
  let inSet :=
    (∃ t, p_new_task_id p = Some t ∧ t ∈ taskIdSetRef s)
    ∨ (p_new_task_id p = None ∧ ∃ t, p_old_task_id p = Some t ∧ t ∈ taskIdSetRef s) in
  ((onNotesChange p s).2 ≠ None ↔ inSet)
  ∧ (inSet → onNotesChange p s = (setErrorMsg "" s, Some (taskIdSetRef s)))
  ∧ (¬ inSet → onNotesChange p s = (s, None)).
Proof.
  intros Hne inSet.
  assert (Hiff : inSet ↔ ∃ taskId, payloadTaskId p = Some taskId ∧ taskId ≠ ""
                           ∧ taskId ∈ taskIdSetRef s).
  { unfold inSet, payloadTaskId. split.
    - intros [(t & Hn & Hin) | (Hn & t & Ho & Hin)]; rewrite Hn.
      + exists t. repeat split; [|done]. by intros ->.
      + exists t. repeat split; [done| |done]. by intros ->.
    - intros (t & Hp & _ & Hin). destruct (p_new_task_id p) as [t'|].
      + left. exists t'. split; [done|]. congruence.
      + right. split; [done|]. by exists t. }
  destruct (onNotesChange_exact p s) as [[Hyes ->] | [Hno ->]]; simpl.
  - apply Hiff in Hyes. repeat split; done.
  - rewrite <- Hiff in Hno. repeat split; done.
Qed.

Lemma notes_push_scoped_witness :
  let s := setTaskIdSet ["t1"; "t2"] initDash in
  onNotesChange (mkPayload (Some "t2") None) s = (setErrorMsg "" s, Some ["t1"; "t2"])
  ∧ onNotesChange (mkPayload None (Some "t1")) s = (setErrorMsg "" s, Some ["t1"; "t2"])
  ∧ onNotesChange (mkPayload (Some "t9") (Some "t1")) s = (s, None)
  ∧ onNotesChange (mkPayload None None) s = (s, None).
Proof.
  intros s.
  assert (Hne : "" ∉ taskIdSetRef s) by (apply (bool_decide_unpack _); by vm_compute).
  assert (H1 : "t1" ∈ taskIdSetRef s) by (apply (bool_decide_unpack _); by vm_compute).
  assert (H2 : "t2" ∈ taskIdSetRef s) by (apply (bool_decide_unpack _); by vm_compute).
  assert (H9 : "t9" ∉ taskIdSetRef s) by (apply (bool_decide_unpack _); by vm_compute).
  split; [|split; [|split]].
  - apply (notes_push_scoped (mkPayload (Some "t2") None) s Hne).
    left. by exists "t2".
  - apply (notes_push_scoped (mkPayload None (Some "t1")) s Hne).
    right. split; [done|]. by exists "t1".
  - apply (notes_push_scoped (mkPayload (Some "t9") (Some "t1")) s Hne).
    intros [(t & [= <-] & Hin) | ([=] & _)]. by apply H9.
  - apply (notes_push_scoped (mkPayload None None) s Hne).
    intros [(t & [=] & _) | (_ & t & [=] & _)].
Defined.

(** ** Hydration of the note cache *)

Section hydration.

Implicit Types (taskIds : list string) (noteRows : list TaskNoteRow).

Let mirror (m : gmap Owner NoteEntry) : gmap Owner string := ne_note <$> m.

Lemma defaultDrafts_mirror : defaultDrafts = mirror defaultNotes.
Proof.
  apply map_eq. intros o. unfold mirror. rewrite lookup_fmap.
  destruct o; reflexivity.
Qed.

Lemma defaultNotes_lookup (o : Owner) :
  defaultNotes !! o = Some (mkNoteEntry "" None None).
Proof. destruct o; reflexivity. Qed.

Lemma initCaches_lookup taskIds (t : string) :
  (initCaches taskIds).1 !! t
  = if decide (t ∈ taskIds) then Some defaultNotes else None.
Proof.
  unfold initCaches.
  assert (Hgen : ∀ acc : gmap string (gmap Owner NoteEntry) * gmap string (gmap Owner string),
    (foldl (fun acc taskId =>
              (<[taskId := defaultNotes]> acc.1, <[taskId := defaultDrafts]> acc.2))
           acc taskIds).1 !! t
    = if decide (t ∈ taskIds) then Some defaultNotes else acc.1 !! t).
  { induction taskIds as [|x r IH]; intros acc; cbn [foldl].
    - rewrite decide_False; [done|]. by intros ?%not_elem_of_nil.
    - rewrite IH. cbn [fst snd].
      destruct (decide (t ∈ r)) as [Hr|Hr].
      + rewrite decide_True; [done|]. by constructor.
      + destruct (decide (x = t)) as [->|Hx].
        * rewrite lookup_insert_eq. rewrite decide_True; [done|]. constructor.
        * rewrite lookup_insert_ne by done.
          rewrite decide_False; [done|].
          intros [?|?]%elem_of_cons; congruence. }
  rewrite Hgen. simpl. by rewrite lookup_empty.
Qed.

Lemma initCaches_mirror taskIds :
  (initCaches taskIds).2 = fmap mirror (initCaches taskIds).1.
Proof.
  unfold initCaches.
  assert (Hgen : ∀ acc : gmap string (gmap Owner NoteEntry) * gmap string (gmap Owner string),
    acc.2 = fmap mirror acc.1 →
    (foldl (fun acc taskId =>
              (<[taskId := defaultNotes]> acc.1, <[taskId := defaultDrafts]> acc.2))
           acc taskIds).2
    = fmap mirror
        (foldl (fun acc taskId =>
                  (<[taskId := defaultNotes]> acc.1, <[taskId := defaultDrafts]> acc.2))
               acc taskIds).1).
  { induction taskIds as [|x r IH]; intros acc Hacc; simpl; [done|].
    apply IH. simpl. rewrite Hacc, fmap_insert, defaultDrafts_mirror. done. }
  apply Hgen. simpl. by rewrite fmap_empty.
Qed.

Lemma applyRow_mirror acc (r : TaskNoteRow) :
  acc.2 = fmap mirror acc.1 → (applyRow acc r).2 = fmap mirror (applyRow acc r).1.
Proof.
  intros Hacc. unfold applyRow.
  destruct (acc.1 !! nr_task_id r) as [inner|] eqn:E; [|done].
  simpl. rewrite Hacc, lookup_fmap, E. simpl.
  rewrite fmap_insert. f_equal.
  unfold mirror. by rewrite fmap_insert.
Qed.

Lemma hydrate_snoc taskIds noteRows (r : TaskNoteRow) :
  hydrate taskIds (noteRows ++ [r]) = applyRow (hydrate taskIds noteRows) r.
Proof. unfold hydrate. by rewrite foldl_app. Qed.

Lemma hydrate_mirror taskIds noteRows :
  (hydrate taskIds noteRows).2 = fmap mirror (hydrate taskIds noteRows).1.
Proof.
  induction noteRows as [|r l IH] using rev_ind.
  - apply initCaches_mirror.
  - rewrite hydrate_snoc. by apply applyRow_mirror.
Qed.

Lemma hydrate_dom taskIds noteRows (t : string) :
  is_Some ((hydrate taskIds noteRows).1 !! t) ↔ t ∈ taskIds.
Proof.
  induction noteRows as [|r l IH] using rev_ind.
  - unfold hydrate. cbn [foldl]. rewrite initCaches_lookup.
    case_decide; split; intros H'; eauto; try done; by destruct H'.
  - rewrite hydrate_snoc. unfold applyRow.
    destruct ((hydrate taskIds l).1 !! nr_task_id r) as [inner|] eqn:E; [|done].
    simpl. destruct (decide (nr_task_id r = t)) as [<-|Hne].
    + rewrite lookup_insert_eq. rewrite <- IH, E. split; eauto.
    + by rewrite lookup_insert_ne.
Qed.

Lemma expectedEntry_nil (t : string) (o : Owner) :
  expectedEntry t o [] = mkNoteEntry "" None None.
Proof. reflexivity. Qed.

Lemma expectedEntry_snoc (t : string) (o : Owner) noteRows (r : TaskNoteRow) :
  expectedEntry t o (noteRows ++ [r])
  = if decide (nr_task_id r = t ∧ nr_owner r = o)
    then mkNoteEntry (default "" (nr_note r)) (Some (nr_updated_at r)) (Some (nr_id r))
    else expectedEntry t o noteRows.
Proof.
  unfold expectedEntry. rewrite filter_app.
  rewrite filter_cons, filter_nil.
  case_decide as H.
  - by rewrite last_snoc.
  - by rewrite app_nil_r.
Qed.

Lemma hydrate_entry taskIds noteRows (t : string) (o : Owner) :
  t ∈ taskIds →
  (hydrate taskIds noteRows).1 !! t ≫= (fun m => m !! o)
  = Some (expectedEntry t o noteRows).
Proof.
  intros Hin.
  induction noteRows as [|r l IH] using rev_ind.
  - unfold hydrate. cbn [foldl]. rewrite initCaches_lookup, decide_True by done.
    simpl. by rewrite defaultNotes_lookup.
  - rewrite hydrate_snoc, expectedEntry_snoc. unfold applyRow.
    destruct ((hydrate taskIds l).1 !! nr_task_id r) as [inner|] eqn:E.
    + simpl. destruct (decide (nr_task_id r = t)) as [Ht|Ht].
      * rewrite Ht, lookup_insert_eq. simpl.
        rewrite Ht in E. rewrite E in IH. simpl in IH.
        destruct (decide (nr_owner r = o)) as [Ho|Ho].
        -- rewrite Ho, lookup_insert_eq. rewrite decide_True by done. done.
        -- rewrite lookup_insert_ne by done.
           rewrite decide_False by (intros [_ ?]; done). done.
      * rewrite lookup_insert_ne by done.
        rewrite decide_False by (intros [? _]; done). done.
    + rewrite decide_False; [done|].
      intros [Ht _]. rewrite Ht in E.
      apply (proj2 (hydrate_dom taskIds l t)) in Hin.
      rewrite E in Hin. by destruct Hin.
Qed.

(** C6. Once the fetch for a non-empty list of visible task ids has
    answered with [noteRows], the note cache holds, for every listed task
    and each owner, the one entry [expectedEntry] (the default empty note
    with no timestamp, or the fetched row), and nothing for other tasks;
    the draft cache holds the note text of the same pairs, so no pair is
    dirty. *)
Theorem hydration_total_and_clean taskIds noteRows (s : Dash) :
  taskIds ≠ [] →
  let s' := loadNotesForTasks_resume taskIds (inr noteRows) s in
  (loadNotesForTasks taskIds s).2 = Some taskIds
  ∧ (∀ t o, t ∈ taskIds →
       notesByTask s' !! t ≫= (fun m => m !! o) = Some (expectedEntry t o noteRows))
  ∧ (∀ t, t ∉ taskIds → notesByTask s' !! t = None ∧ draftByTask s' !! t = None)
  ∧ (∀ t o, draftByTask s' !! t ≫= (fun m => m !! o)
            = ne_note <$> (notesByTask s' !! t ≫= (fun m => m !! o)))
  ∧ (∀ t o, ¬ dirty s' t o).
Proof.
  intros Hne s'.
  assert (Hd : ∀ t o, draftByTask s' !! t ≫= (fun m => m !! o)
            = ne_note <$> (notesByTask s' !! t ≫= (fun m => m !! o))).
  { intros t o. subst s'. simpl. rewrite hydrate_mirror, lookup_fmap.
    destruct ((hydrate taskIds noteRows).1 !! t) as [inner|]; simpl; [|done].
    unfold mirror. by rewrite lookup_fmap. }
  split; [by destruct taskIds|].
  split; [intros t o Hin; subst s'; simpl; by apply hydrate_entry|].
  split.
  { intros t Hout. subst s'. simpl. rewrite hydrate_mirror, lookup_fmap.
    destruct ((hydrate taskIds noteRows).1 !! t) as [inner|] eqn:E; [|done].
    exfalso. apply Hout. apply (hydrate_dom taskIds noteRows t). eauto. }
  split; [exact Hd|].
  intros t o Hdirty. apply Hdirty. unfold draftOf, savedOf. by rewrite Hd.
Qed.

End hydration.

Lemma hydration_total_and_clean_witness :
  let rows := [mkTaskNoteRow "n1" "t1" OWNER_B (Some "En route") "2024-05-01";
               mkTaskNoteRow "n7" "t9" OWNER_A (Some "other week") "2024-05-02"] in
  let s' := loadNotesForTasks_resume ["t1"; "t2"] (inr rows) initDash in
  notesByTask s' !! "t1" ≫= (fun m => m !! OWNER_B)
    = Some (mkNoteEntry "En route" (Some "2024-05-01") (Some "n1"))
  ∧ notesByTask s' !! "t2" ≫= (fun m => m !! OWNER_A) = Some (mkNoteEntry "" None None)
  ∧ notesByTask s' !! "t9" = None
  ∧ ¬ dirty s' "t1" OWNER_B.
Proof.
  intros rows s'.
  assert (Hne : ["t1"; "t2"] ≠ @nil string) by discriminate.
  destruct (hydration_total_and_clean ["t1"; "t2"] rows initDash Hne)
    as (_ & Hentry & Hout & _ & Hclean).
  split; [apply (Hentry "t1" OWNER_B); apply (bool_decide_unpack _); by vm_compute|].
  split; [apply (Hentry "t2" OWNER_A); apply (bool_decide_unpack _); by vm_compute|].
  split; [apply (Hout "t9"); apply (bool_decide_unpack _); by vm_compute|].
  apply Hclean.
Defined.

(** ** The store under upserts *)

Section store.

Implicit Types (db : list TaskNoteRow) (r : UpsertReq).

Lemma rowFor_spec (t : string) (o : Owner) (x : TaskNoteRow) :
  rowFor t o x = true ↔ nr_task_id x = t ∧ nr_owner x = o.
Proof.
  unfold rowFor. rewrite andb_true_iff, !bool_decide_eq_true. done.
Qed.

Lemma existsb_rowFor_false (t : string) (o : Owner) db :
  existsb (rowFor t o) db = false → rowsFor t o db = [].
Proof.
  unfold rowsFor. induction db as [|x db IH]; simpl; [done|].
  intros [Hx Hdb]%orb_false_iff.
  rewrite filter_cons, decide_False; [by apply IH|].
  intros Hm. apply rowFor_spec in Hm. congruence.
Qed.

Lemma existsb_rowFor_true (t : string) (o : Owner) db :
  existsb (rowFor t o) db = true → rowsFor t o db ≠ [].
Proof.
  unfold rowsFor. induction db as [|x db IH]; simpl; [done|].
  rewrite filter_cons. intros [Hx | Hdb]%orb_true_iff.
  - apply rowFor_spec in Hx. by rewrite decide_True.
  - case_decide; [done | by apply IH].
Qed.

(** Rewriting the note and stamp of the rows of one pair keeps, for
    every pair, the number of its rows. *)
Lemma rowsFor_rewrite_length (t t' : string) (o o' : Owner) (f : TaskNoteRow → TaskNoteRow) db :
  (∀ x, nr_task_id (f x) = nr_task_id x ∧ nr_owner (f x) = nr_owner x) →
  length (rowsFor t' o' ((fun x => if rowFor t o x then f x else x) <$> db))
  = length (rowsFor t' o' db).
Proof.
  intros Hf. unfold rowsFor. induction db as [|x db IH]; [done|].
  rewrite fmap_cons, !filter_cons.
  assert (Hsame : nr_task_id (if rowFor t o x then f x else x) = nr_task_id x
                  ∧ nr_owner (if rowFor t o x then f x else x) = nr_owner x)
    by (destruct (rowFor t o x); [apply Hf | done]).
  destruct Hsame as [-> ->].
  case_decide; simpl; by rewrite IH.
Qed.

Lemma gatewayUpsert_rows_same r (stamp newId : string) db :
  length (rowsFor (u_task_id r) (u_owner r) (gatewayUpsert r stamp newId db))
  = Nat.max 1 (length (rowsFor (u_task_id r) (u_owner r) db)).
Proof.
  unfold gatewayUpsert.
  destruct (existsb (rowFor (u_task_id r) (u_owner r)) db) eqn:E.
  - rewrite rowsFor_rewrite_length by done.
    apply existsb_rowFor_true in E.
    destruct (rowsFor (u_task_id r) (u_owner r) db); [done | simpl; lia].
  - unfold rowsFor at 1. rewrite filter_app.
    fold (rowsFor (u_task_id r) (u_owner r) db).
    rewrite (existsb_rowFor_false _ _ _ E).
    rewrite filter_cons, decide_True by done. done.
Qed.

Lemma gatewayUpsert_rows_other r (stamp newId : string) db (t : string) (o : Owner) :
  (t, o) ≠ (u_task_id r, u_owner r) →
  length (rowsFor t o (gatewayUpsert r stamp newId db)) = length (rowsFor t o db).
Proof.
  intros Hne. unfold gatewayUpsert.
  destruct (existsb (rowFor (u_task_id r) (u_owner r)) db) eqn:E.
  - by rewrite rowsFor_rewrite_length.
  - unfold rowsFor. rewrite filter_app, filter_cons, decide_False.
    + by rewrite filter_nil, app_nil_r.
    + simpl. intros [Ht Ho]. apply Hne. by rewrite Ht, Ho.
Qed.

Lemma gatewayUpsert_note r (stamp newId : string) db (x : TaskNoteRow) :
  x ∈ rowsFor (u_task_id r) (u_owner r) (gatewayUpsert r stamp newId db) →
  nr_note x = Some (u_note r).
Proof.
  unfold gatewayUpsert, rowsFor.
  destruct (existsb (rowFor (u_task_id r) (u_owner r)) db) eqn:E.
  - intros [Hm Hin]%list_elem_of_filter.
    apply list_elem_of_fmap in Hin as (y & -> & _).
    destruct (rowFor (u_task_id r) (u_owner r) y) eqn:Ey; [done|].
    apply rowFor_spec in Hm. congruence.
  - rewrite filter_app. fold (rowsFor (u_task_id r) (u_owner r) db).
    rewrite (existsb_rowFor_false _ _ _ E).
    rewrite filter_cons, decide_True by done.
    rewrite filter_nil. simpl. by intros ->%list_elem_of_singleton.
Qed.

Lemma gatewayUpsert_unique r (stamp newId : string) db :
  uniqueRows db → uniqueRows (gatewayUpsert r stamp newId db).
Proof.
  intros Hu t o.
  destruct (decide ((t, o) = (u_task_id r, u_owner r))) as [Heq|Hne].
  - injection Heq as Ht Ho. subst t o. rewrite gatewayUpsert_rows_same. specialize (Hu (u_task_id r) (u_owner r)). lia.
  - rewrite gatewayUpsert_rows_other by done. apply Hu.
Qed.

Lemma gatewayUpsert_one r (stamp newId : string) db :
  uniqueRows db →
  length (rowsFor (u_task_id r) (u_owner r) (gatewayUpsert r stamp newId db)) = 1.
Proof.
  intros Hu. rewrite gatewayUpsert_rows_same.
  specialize (Hu (u_task_id r) (u_owner r)). lia.
Qed.

End store.

(** ** What the effect and the timers can change *)

Section frames.

Lemma withTimerState_id (w : World) :
  w = withTimerState (autosaveTimersRef (dash w)) (timers w) (nextHandle w)
                     (effectDeps w) w.
Proof. destruct w as [[] ? ? ? ? ? ? ? ? ? ?]. reflexivity. Qed.

Lemma armKey_shape draft notes (w : World) (t : string) (o : Owner) :
  ∃ ref tms nh, armKey draft notes w t o = withTimerState ref tms nh (effectDeps w) w.
Proof.
  unfold armKey. case_bool_decide.
  - do 3 eexists. apply withTimerState_id.
  - destruct (autosaveTimersRef (dash w) !! makeKey t o); do 3 eexists; reflexivity.
Qed.

Lemma effectBody_flat (w : World) :
  effectBody w
  = foldl (fun w' p => armKey (draftByTask (dash w)) (notesByTask (dash w)) w' p.1 p.2)
          w (effectPairs (dash w)).
Proof.
  unfold effectBody, effectPairs.
  generalize (draftByTask (dash w)) (notesByTask (dash w)). intros d n.
  generalize w at 1 3.
  induction (tasks (dash w)) as [|x ts IH]; intros w'; [done|].
  cbn [foldl mbind list_bind]. rewrite foldl_app. rewrite <- IH. reflexivity.
Qed.

Lemma foldl_armKey_shape draft notes (ps : list (string * Owner)) (w : World) :
  ∃ ref tms nh,
    foldl (fun w' p => armKey draft notes w' p.1 p.2) w ps
    = withTimerState ref tms nh (effectDeps w) w.
Proof.
  revert w. induction ps as [|p ps IH]; intros w; simpl.
  - do 3 eexists. apply withTimerState_id.
  - destruct (armKey_shape draft notes w p.1 p.2) as (r1 & t1 & n1 & ->).
    destruct (IH (withTimerState r1 t1 n1 (effectDeps w) w)) as (r2 & t2 & n2 & ->).
    exists r2, t2, n2. reflexivity.
Qed.

Lemma effectCleanup_shape (w : World) :
  ∃ tms, effectCleanup w
         = withTimerState (autosaveTimersRef (dash w)) tms (nextHandle w) (effectDeps w) w.
Proof.
  unfold effectCleanup.
  induction ((map_to_list (autosaveTimersRef (dash w))).*2) as [|h hs IH]; cbn [foldr].
  - eexists. apply withTimerState_id.
  - destruct IH as (tms & ->). exists (delete h tms). reflexivity.
Qed.

Lemma flushEffects_shape (w : World) :
  ∃ ref tms nh ed, flushEffects w = withTimerState ref tms nh ed w.
Proof.
  unfold flushEffects. case_bool_decide.
  - do 4 eexists. apply withTimerState_id.
  - destruct (effectDeps w) as [v|] eqn:E.
    + destruct (effectCleanup_shape w) as (t0 & ->).
      rewrite effectBody_flat.
      match goal with |- context [foldl ?f ?a ?l] =>
        destruct (foldl_armKey_shape
                    (draftByTask (dash a)) (notesByTask (dash a)) l a)
          as (r1 & t1 & n1 & Hsh) end.
      rewrite Hsh. exists r1, t1, n1, (Some (depsVersion (dash w))). reflexivity.
    + rewrite effectBody_flat.
      destruct (foldl_armKey_shape
                  (draftByTask (dash w)) (notesByTask (dash w))
                  (effectPairs (dash w)) w) as (r1 & t1 & n1 & ->).
      exists r1, t1, n1, (Some (depsVersion (dash w))). reflexivity.
Qed.

(** [saveNote] either is dropped or marks the key and issues one upsert. *)
Lemma saveNote_shape d (t : string) (o : Owner) (ov : option string) (s : Dash) :
  ((makeKey t o ∈ autosaveInFlightRef s)
   ∧ saveNote d t o ov s = (setErrorMsg "" s, None))
  ∨ ((makeKey t o ∉ autosaveInFlightRef s)
     ∧ saveNote d t o ov s
       = (setSaving (makeKey t o) true
            (setAutosaveInFlight ({[makeKey t o]} ∪ autosaveInFlightRef s)
               (setErrorMsg "" s)),
          Some (noteUpsert t o (trim (default (draftOf d t o) ov))))).
Proof.
  unfold saveNote. simpl. case_decide; [left | right]; done.
Qed.

End frames.

(** ** Invariants of the reachable worlds *)

Section invariants.

Lemma timerCallback_shape (tm : Timer) (s : Dash) :
  timerCallback tm s = (s, None)
  ∨ timerCallback tm s
    = saveNote (tm_draftByTask tm) (tm_taskId tm) (tm_owner tm)
               (Some (draftOf (tm_draftByTask tm) (tm_taskId tm) (tm_owner tm))) s.
Proof. unfold timerCallback. case_bool_decide; [right | left]; done. Qed.

Lemma fireTimer_shape (h : positive) (w : World) :
  fireTimer h w = w
  ∨ ∃ tm, timers w !! h = Some tm
      ∧ (tm_deadline tm ≤ clock w)%N
      ∧ fireTimer h w
        = issueUpsert (timerCallback tm (dash w)).2
            (wDash (timerCallback tm (dash w)).1 (wTimers (delete h (timers w)) w)).
Proof.
  unfold fireTimer. destruct (timers w !! h) as [tm|] eqn:E; [|by left].
  destruct (N.leb_spec (tm_deadline tm) (clock w)); [|by left].
  right. exists tm. done.
Qed.

(** The store changes only when an upsert succeeds. *)
Lemma step_task_notes (e : Event) (w : World) :
  task_notes (step e w) = task_notes w
  ∨ ∃ r stamp newId, task_notes (step e w) = gatewayUpsert r stamp newId (task_notes w).
Proof.
  destruct e; simpl.
  - case_bool_decide; [by left|]. unfold startLoadTasks. simpl.
    destruct (bool_decide (wk = 0%Z)); by left.
  - unfold startLoadTasks. destruct (selectedWeek (dash w)); [|by left].
    destruct (noWeekSelected _); by left.
  - destruct (pendingTaskLoads w !! i); [|by left].
    destruct (loadTasks_resume resp (dash w)) as [s' [q|]]; by left.
  - destruct (noWeekSelected _); [by left|].
    destruct (onNotesChange p (dash w)) as [s' [q|]]; by left.
  - destruct (pendingNoteLoads w !! i); by left.
  - destruct (taskVisible _ _); by left.
  - destruct (taskVisible _ _); [|by left].
    destruct (saveNote _ _ _ _ _) as [s' [q|]]; by left.
  - destruct (pendingUpserts w !! i) as [r|]; [|by left].
    destruct error; [by left|]. right. by exists r, stamp, newId.
  - by left.
  - by left.
  - destruct (addTask (dash w)) as [s' [q|]]; by left.
  - destruct (pendingInserts w !! i); by left.
  - destruct (flushEffects_shape w) as (r1 & t1 & n1 & e1 & ->). by left.
  - by left.
  - destruct (fireTimer_shape h w) as [-> | (tm & _ & _ & ->)]; [by left|].
    destruct (timerCallback tm (dash w)) as [s' [q|]]; by left.
Qed.

Lemma step_uniqueRows (e : Event) (w : World) :
  uniqueRows (task_notes w) → uniqueRows (task_notes (step e w)).
Proof.
  intros Hu. destruct (step_task_notes e w) as [-> | (r & st & nid & ->)]; [done|].
  by apply gatewayUpsert_unique.
Qed.

Lemma run_snoc (es : list Event) (e : Event) (w : World) :
  run (es ++ [e]) w = step e (run es w).
Proof. unfold run. by rewrite foldl_app. Qed.

Lemma run_app (es1 es2 : list Event) (w : World) :
  run (es1 ++ es2) w = run es2 (run es1 w).
Proof. unfold run. by rewrite foldl_app. Qed.

(** Induction over the reachable worlds. *)
Lemma reachable_ind (P : World → Prop) :
  P initWorld → (∀ e w, P w → P (step e w)) → ∀ w, reachable w → P w.
Proof.
  intros H0 Hstep w [es ->].
  induction es as [|e es IH] using rev_ind; [done|].
  rewrite run_snoc. by apply Hstep.
Qed.

Lemma reachable_step (e : Event) (w : World) : reachable w → reachable (step e w).
Proof. intros [es ->]. exists (es ++ [e]). by rewrite run_snoc. Qed.

Lemma reachable_run (es : list Event) (w : World) : reachable w → reachable (run es w).
Proof. intros [es0 ->]. exists (es0 ++ es). by rewrite run_app. Qed.

Lemma run_uniqueRows (es : list Event) (w : World) :
  uniqueRows (task_notes w) → uniqueRows (task_notes (run es w)).
Proof.
  intros Hu. induction es as [|e es IH] using rev_ind; [done|].
  rewrite run_snoc. by apply step_uniqueRows.
Qed.

Lemma reachable_uniqueRows (w : World) : reachable w → uniqueRows (task_notes w).
Proof.
  intros [es ->]. apply run_uniqueRows. intros t o. simpl. lia.
Qed.

(** How one event acts on the awaited upserts and the in-flight marks:
    not at all, by starting one save for an unmarked key, or by
    completing an awaited save. *)
Lemma step_inflight (e : Event) (w : World) :
  (pendingUpserts (step e w) = pendingUpserts w
   ∧ autosaveInFlightRef (dash (step e w)) = autosaveInFlightRef (dash w))
  ∨ (∃ t o note,
       (makeKey t o ∉ autosaveInFlightRef (dash w))
       ∧ pendingUpserts (step e w) = pendingUpserts w ++ [noteUpsert t o note]
       ∧ autosaveInFlightRef (dash (step e w))
         = {[makeKey t o]} ∪ autosaveInFlightRef (dash w))
  ∨ (∃ i r,
       pendingUpserts w !! i = Some r
       ∧ pendingUpserts (step e w) = delete i (pendingUpserts w)
       ∧ autosaveInFlightRef (dash (step e w))
         = autosaveInFlightRef (dash w) ∖ {[upsertKey r]}).
Proof.
  destruct e; simpl.
  - left. case_bool_decide; [done|]. unfold startLoadTasks. simpl.
    destruct (bool_decide (wk = 0%Z)); done.
  - left. unfold startLoadTasks. destruct (selectedWeek (dash w)); [|done].
    destruct (noWeekSelected _); done.
  - left. destruct (pendingTaskLoads w !! i); [|done].
    unfold loadTasks_resume, loadNotesForTasks.
    destruct resp as [msg|rows]; [done|].
    destruct (id <$> rows); done.
  - left. destruct (noWeekSelected _); [done|].
    unfold onNotesChange, loadNotesForTasks.
    destruct (payloadTaskId p) as [t|]; [|done].
    destruct (truthy t && bool_decide (t ∈ taskIdSetRef (dash w))); [|done].
    destruct (taskIdSetRef (dash w)); done.
  - left. destruct (pendingNoteLoads w !! i); [|done].
    destruct resp; done.
  - left. destruct (taskVisible _ _); done.
  - destruct (taskVisible _ _); [|by left].
    destruct (saveNote_shape (draftByTask (dash w)) taskId o None (dash w))
      as [[Hin ->] | [Hout ->]]; [by left|].
    right; left. eexists taskId, o, _. done.
  - destruct (pendingUpserts w !! i) as [r|] eqn:E; [|by left].
    right; right. exists i, r. split; [done|].
    destruct error; done.
  - by left.
  - by left.
  - left. unfold addTask. destruct (selectedWeek (dash w)); simpl; [|done].
    destruct (bool_decide _); [done|]. destruct (negb _); done.
  - left. destruct (pendingInserts w !! i); [|done]. destruct error; done.
  - left. destruct (flushEffects_shape w) as (r1 & t1 & n1 & e1 & ->). done.
  - by left.
  - destruct (fireTimer_shape h w) as [-> | (tm & _ & _ & ->)]; [by left|].
    destruct (timerCallback_shape tm (dash w)) as [-> | ->]; [by left|].
    destruct (saveNote_shape (tm_draftByTask tm) (tm_taskId tm) (tm_owner tm)
                (Some (draftOf (tm_draftByTask tm) (tm_taskId tm) (tm_owner tm)))
                (dash w)) as [[Hin ->] | [Hout ->]]; [by left|].
    right; left. eexists (tm_taskId tm), (tm_owner tm), _. done.
Qed.

Lemma step_inFlightInv (e : Event) (w : World) :
  inFlightInv w → inFlightInv (step e w).
Proof.
  intros [Hnd Hmark]. unfold inFlightInv.
  destruct (step_inflight e w)
    as [[-> ->] | [(t & o & note & Hout & -> & ->) | (i & r & Hi & -> & ->)]].
  - done.
  - split.
    + rewrite fmap_app. apply NoDup_app. split; [done|]. split.
      * intros k Hk [->|[]%elem_of_nil]%elem_of_cons.
        apply list_elem_of_fmap in Hk as (r & Hr & Hin).
        apply Hout. change (makeKey t o) with (upsertKey (noteUpsert t o note)).
        rewrite Hr. by apply Hmark.
      * apply NoDup_singleton.
    + intros r [Hin | ->%list_elem_of_singleton]%elem_of_app.
      * apply elem_of_union_r. by apply Hmark.
      * apply elem_of_union_l, elem_of_singleton. done.
  - pose proof (take_drop_middle _ _ _ Hi) as Hsplit.
    assert (Hdel : delete i (pendingUpserts w)
                   = take i (pendingUpserts w) ++ drop (S i) (pendingUpserts w)).
    { rewrite <- Hsplit at 1.
      assert (Hlen : i = length (take i (pendingUpserts w))).
      { rewrite length_take. apply lookup_lt_Some in Hi. lia. }
      rewrite Hlen at 1. apply delete_middle. }
    rewrite Hdel. rewrite <- Hsplit in Hnd, Hmark.
    rewrite fmap_app, fmap_cons in Hnd.
    apply NoDup_app in Hnd as (Hnd1 & Hdisj & Hnd2).
    apply NoDup_cons in Hnd2 as [Hr Hnd2].
    split.
    + rewrite fmap_app. apply NoDup_app. split; [done|]. split; [|done].
      intros k Hk Hk2. apply (Hdisj k Hk). by right.
    + intros r' Hin'.
      apply elem_of_difference. split.
      * apply Hmark. apply elem_of_app in Hin' as [?|?];
          apply elem_of_app; [by left | right; by right].
      * rewrite elem_of_singleton. intros Heq.
        apply elem_of_app in Hin' as [Hin'|Hin'].
        -- apply (Hdisj (upsertKey r')); [by apply list_elem_of_fmap_2|].
           rewrite Heq. by left.
        -- apply Hr. rewrite <- Heq. by apply list_elem_of_fmap_2.
Qed.


(** Every awaited upsert was issued by [saveNote], keyed on the pair. *)
Lemma reachable_keyed (w : World) :
  reachable w → ∀ r, r ∈ pendingUpserts w → u_onConflict r = "task_id,owner".
Proof.
  apply (reachable_ind
           (fun w => ∀ r, r ∈ pendingUpserts w → u_onConflict r = "task_id,owner")).
  - by intros r ?%elem_of_nil.
  - intros e w0 IH r.
    destruct (step_inflight e w0)
      as [[-> _] | [(t & o & note & _ & -> & _) | (i & r0 & _ & -> & _)]].
    + apply IH.
    + intros [Hin | ->%list_elem_of_singleton]%elem_of_app; [by apply IH | done].
    + intros Hin. apply IH. eapply elem_of_sublist; [exact Hin | apply sublist_delete].
Qed.

End invariants.

(** ** Mutual exclusion of saves *)




(** ** Timers *)

Section timers.

Lemma effectCleanup_eq (w : World) :
  effectCleanup w
  = wTimers (foldr delete (timers w) (map_to_list (autosaveTimersRef (dash w))).*2) w.
Proof.
  unfold effectCleanup.
  induction ((map_to_list (autosaveTimersRef (dash w))).*2) as [|h hs IH]; cbn [foldr].
  - by destruct w.
  - rewrite IH. reflexivity.
Qed.

Lemma foldr_delete_lookup (hs : list positive) (m : gmap positive Timer) (h : positive) :
  foldr delete m hs !! h = if decide (h ∈ hs) then None else m !! h.
Proof.
  induction hs as [|x hs IH]; cbn [foldr].
  - rewrite decide_False; [done|]. apply not_elem_of_nil.
  - destruct (decide (x = h)) as [->|Hne].
    + rewrite lookup_delete_eq, decide_True; [done|]. left.
    + rewrite lookup_delete_ne by done. rewrite IH.
      destruct (decide (h ∈ hs)).
      * rewrite decide_True; [done|]. by right.
      * rewrite decide_False; [done|]. intros [?|?]%elem_of_cons; congruence.
Qed.

(** With the bookkeeping in order the cleanup clears every armed timer. *)
Lemma effectCleanup_clears (w : World) :
  timersInv w → timers (effectCleanup w) = ∅.
Proof.
  intros (Href & _). rewrite effectCleanup_eq. simpl.
  apply map_eq. intros h. rewrite foldr_delete_lookup, lookup_empty.
  case_decide as Hin; [done|].
  destruct (timers w !! h) as [tm|] eqn:E; [|done].
  exfalso. apply Hin. apply Href in E.
  apply list_elem_of_fmap. exists (timerKey tm, h). split; [done|].
  by apply elem_of_map_to_list.
Qed.

(** Events other than the effect flush and a timer leave the timer
    bookkeeping alone and never lower [depsVersion]. *)
Lemma step_timers (e : Event) (w : World) :
  e = EvFlushEffects
  ∨ (∃ h, e = EvTimer h)
  ∨ (timers (step e w) = timers w
     ∧ autosaveTimersRef (dash (step e w)) = autosaveTimersRef (dash w)
     ∧ nextHandle (step e w) = nextHandle w
     ∧ effectDeps (step e w) = effectDeps w
     ∧ depsVersion (dash w) ≤ depsVersion (dash (step e w))).
Proof.
  destruct e; simpl; try (by left); try (right; left; by eexists); right; right.
  - case_bool_decide; [done|]. unfold startLoadTasks. simpl.
    destruct (bool_decide (wk = 0%Z)); done.
  - unfold startLoadTasks. destruct (selectedWeek (dash w)); [|done].
    destruct (noWeekSelected _); done.
  - destruct (pendingTaskLoads w !! i); [|done].
    unfold loadTasks_resume, loadNotesForTasks.
    destruct resp as [msg|rows]; [done|].
    destruct (id <$> rows); simpl; repeat split; lia.
  - destruct (noWeekSelected _); [done|].
    unfold onNotesChange, loadNotesForTasks.
    destruct (payloadTaskId p) as [t|]; [|done].
    destruct (truthy t && bool_decide (t ∈ taskIdSetRef (dash w))); [|done].
    destruct (taskIdSetRef (dash w)); simpl; repeat split; lia.
  - destruct (pendingNoteLoads w !! i); [|done].
    destruct resp; simpl; repeat split; lia.
  - destruct (taskVisible _ _); simpl; repeat split; lia.
  - destruct (taskVisible _ _); [|done].
    destruct (saveNote_shape (draftByTask (dash w)) taskId o None (dash w))
      as [[_ ->] | [_ ->]]; done.
  - destruct (pendingUpserts w !! i) as [r|]; [|done].
    destruct error; simpl; repeat split; lia.
  - done.
  - done.
  - unfold addTask. destruct (selectedWeek (dash w)); simpl; [|done].
    destruct (bool_decide _); [done|]. destruct (negb _); done.
  - destruct (pendingInserts w !! i); [|done]. destruct error; done.
  - done.
Qed.

Lemma fireTimer_timers (h : positive) (w : World) :
  (timers (fireTimer h w) = timers w ∨ timers (fireTimer h w) = delete h (timers w))
  ∧ autosaveTimersRef (dash (fireTimer h w)) = autosaveTimersRef (dash w)
  ∧ nextHandle (fireTimer h w) = nextHandle w
  ∧ effectDeps (fireTimer h w) = effectDeps w
  ∧ depsVersion (dash (fireTimer h w)) = depsVersion (dash w)
  ∧ clock (fireTimer h w) = clock w
  ∧ draftByTask (dash (fireTimer h w)) = draftByTask (dash w)
  ∧ notesByTask (dash (fireTimer h w)) = notesByTask (dash w)
  ∧ tasks (dash (fireTimer h w)) = tasks (dash w).
Proof.
  destruct (fireTimer_shape h w) as [-> | (tm & _ & _ & ->)]; [by repeat split; try left|].
  destruct (timerCallback_shape tm (dash w)) as [-> | ->];
    [by repeat split; try right|].
  destruct (saveNote_shape (tm_draftByTask tm) (tm_taskId tm) (tm_owner tm)
              (Some (draftOf (tm_draftByTask tm) (tm_taskId tm) (tm_owner tm)))
              (dash w)) as [[_ ->] | [_ ->]]; by repeat split; try right.
Qed.

Lemma timersInv_shrink (w w' : World) :
  timersInv w →
  (∀ h tm, timers w' !! h = Some tm → timers w !! h = Some tm) →
  autosaveTimersRef (dash w') = autosaveTimersRef (dash w) →
  nextHandle w' = nextHandle w →
  effectDeps w' = effectDeps w →
  depsVersion (dash w) ≤ depsVersion (dash w') →
  timersInv w'.
Proof.
  intros (H1 & H2 & H3 & H4 & H5) Hsub Href Hnh Hed Hdv.
  unfold timersInv. rewrite Href, Hnh, Hed.
  split; [intros h tm Hh; apply H1; by apply Hsub|].
  split; [done|]. split; [done|].
  split; [intros v Hv; specialize (H4 v Hv); lia|].
  intros Hnone. apply map_eq. intros h. rewrite lookup_empty.
  destruct (timers w' !! h) as [tm|] eqn:E; [|done].
  apply Hsub in E. rewrite (H5 Hnone) in E. by rewrite lookup_empty in E.
Qed.

Lemma fireTimer_timersInv (h : positive) (w : World) :
  timersInv w → timersInv (fireTimer h w).
Proof.
  intros Hinv.
  destruct (fireTimer_timers h w) as (Ht & Href & Hnh & Hed & Hdv & _).
  apply (timersInv_shrink w); try done; [|lia].
  intros h' tm. destruct Ht as [-> | ->]; [done|].
  intros [_ ?]%lookup_delete_Some. done.
Qed.

End timers.

(** ** One run of the autosave effect *)

Section effect.

Variables (d : gmap string (gmap Owner string))
          (n : gmap string (gmap Owner NoteEntry)).

Lemma armKey_clean (w : World) (t : string) (o : Owner) :
  draftOf d t o = savedOf n t o → armKey d n w t o = w.
Proof. intros H. unfold armKey. by rewrite bool_decide_eq_true_2. Qed.

Lemma armKey_dirty (w : World) (t : string) (o : Owner) :
  draftOf d t o ≠ savedOf n t o →
  timers (armKey d n w t o)
  = <[nextHandle w := mkTimer (clock w + delayMs) t o d n]>
      (match autosaveTimersRef (dash w) !! makeKey t o with
       | Some existing => delete existing (timers w)
       | None => timers w
       end)
  ∧ autosaveTimersRef (dash (armKey d n w t o))
    = <[makeKey t o := nextHandle w]> (autosaveTimersRef (dash w))
  ∧ nextHandle (armKey d n w t o) = Pos.succ (nextHandle w)
  ∧ clock (armKey d n w t o) = clock w.
Proof.
  intros H. unfold armKey. rewrite bool_decide_eq_false_2 by done.
  destruct (autosaveTimersRef (dash w) !! makeKey t o); done.
Qed.

Lemma armKey_loopInv (c : N) (nh0 : positive) (visited : list (string * Owner))
    (w : World) (t : string) (o : Owner) :
  loopInv d n c nh0 visited w →
  loopInv d n c nh0 (visited ++ [(t, o)]) (armKey d n w t o).
Proof.
  intros (Hc & I1 & I2 & I4 & I5 & I6 & I7 & I8).
  destruct (decide (draftOf d t o = savedOf n t o)) as [Hclean|Hdirty].
  { rewrite armKey_clean by done.
    split; [done|]. split.
    { intros h tm Hh. destruct (I1 h tm Hh) as (? & ? & ?).
      repeat split; try done. apply elem_of_app. by left. }
    split; [|done].
    intros t' o' [Hin | Heq%list_elem_of_singleton]%elem_of_app Hd; [by apply I2|].
    injection Heq as -> ->. done. }
  destruct (armKey_dirty w t o Hdirty) as (HT & HR & HN & HC).
  set (key := makeKey t o) in *. set (h0 := nextHandle w) in *.
  set (T0 := match autosaveTimersRef (dash w) !! key with
             | Some existing => delete existing (timers w)
             | None => timers w
             end) in *.
  assert (Hsub : ∀ h tm, T0 !! h = Some tm →
            timers w !! h = Some tm ∧ autosaveTimersRef (dash w) !! key ≠ Some h).
  { intros h tm. subst T0. destruct (autosaveTimersRef (dash w) !! key) as [ex|].
    - intros [Hne Hh]%lookup_delete_Some. split; [done|]. congruence.
    - done. }
  assert (Hkeep : ∀ h tm, timers w !! h = Some tm →
            autosaveTimersRef (dash w) !! key ≠ Some h → T0 !! h = Some tm).
  { intros h tm Hh Hne. subst T0.
    destruct (autosaveTimersRef (dash w) !! key) as [ex|]; [|done].
    rewrite lookup_delete_ne; [done|]. congruence. }
  assert (Hfresh : timers w !! h0 = None).
  { destruct (timers w !! h0) as [tm|] eqn:E; [|done].
    apply I4, I5 in E. subst h0. lia. }
  unfold loopInv. rewrite HT, HR, HN, HC.
  split; [done|]. split.
  { intros h tm. rewrite lookup_insert. case_decide as Hh.
    - intros [= <-]. simpl. rewrite Hc. repeat split; [|done].
      apply elem_of_app. right. left.
    - intros [Hh' _]%Hsub. destruct (I1 h tm Hh') as (? & ? & ?).
      repeat split; try done. apply elem_of_app. by left. }
  split.
  { intros t' o' Hin Hd.
    destruct (decide ((t', o') = (t, o))) as [Heq|Hne].
    - injection Heq as -> ->. exists h0. rewrite lookup_insert_eq. by rewrite Hc.
    - apply elem_of_app in Hin as [Hin | Heq%list_elem_of_singleton]; [|done].
      destruct (I2 t' o' Hin Hd) as [h2 Hh2]. exists h2.
      rewrite lookup_insert_ne by (intros <-; congruence).
      apply Hkeep; [done|]. intros Hex.
      apply I4 in Hh2. unfold timerKey in Hh2. simpl in Hh2.
      pose proof (I6 _ _ _ Hh2 Hex) as Hk. apply makeKey_inj in Hk as [-> ->]. done. }
  split.
  { intros h tm. rewrite lookup_insert. case_decide as Hh.
    - intros [= <-]. unfold timerKey. simpl. subst h. by rewrite lookup_insert_eq.
    - intros [Hh' Hex]%Hsub. pose proof (I4 h tm Hh') as Href.
      rewrite lookup_insert_ne; [done|]. intros Hk. rewrite <- Hk in Href. done. }
  split.
  { intros k h. rewrite lookup_insert. case_decide.
    - intros [= <-]. lia.
    - intros Hk%I5. subst h0. lia. }
  split.
  { intros k1 k2 h. rewrite !lookup_insert.
    repeat case_decide; try congruence.
    - intros [= <-] Hk%I5. subst h0. lia.
    - intros Hk%I5 [= <-]. subst h0. lia.
    - apply I6. }
  split; [subst h0; lia|].
  intros h tm. rewrite lookup_insert. case_decide as Hh.
  - intros _. subst h h0. done.
  - intros [Hh' _]%Hsub. by apply (I8 h tm).
Qed.

Lemma foldl_armKey_loopInv (c : N) (nh0 : positive) (ps visited : list (string * Owner))
    (w : World) :
  loopInv d n c nh0 visited w →
  loopInv d n c nh0 (visited ++ ps) (foldl (fun w' p => armKey d n w' p.1 p.2) w ps).
Proof.
  revert visited w. induction ps as [|[t o] ps IH]; intros visited w Hinv.
  - by rewrite app_nil_r.
  - cbn [foldl]. replace (visited ++ (t, o) :: ps) with ((visited ++ [(t, o)]) ++ ps)
      by (by rewrite <- app_assoc).
    apply IH. by apply armKey_loopInv.
Qed.

End effect.

Section flush.

Lemma effectPairs_elem (s : Dash) (t : string) (o : Owner) :
  (t, o) ∈ effectPairs s ↔ taskVisible t s = true.
Proof.
  unfold effectPairs, taskVisible. rewrite bool_decide_eq_true.
  rewrite list_elem_of_bind, list_elem_of_fmap. split.
  - intros (task & Hin & Htask). exists task. split; [|done].
    apply list_elem_of_fmap in Hin as (o' & [= -> ->] & _). done.
  - intros (task & -> & Htask). exists task. split; [|done].
    apply list_elem_of_fmap. exists o. split; [done|].
    destruct o; unfold ALL_OWNERS; [left | right; left].
Qed.

Lemma wTimers_id (w : World) : wTimers (timers w) w = w.
Proof. by destruct w. Qed.

(** When the dependency array has changed, the flush leaves exactly the
    timers of the dirty visible pairs, freshly armed. *)
Lemma flushEffects_runs (w : World) :
  timersInv w →
  effectDeps w ≠ Some (depsVersion (dash w)) →
  armedNow (flushEffects w)
  ∧ timersInv (flushEffects w)
  ∧ effectDeps (flushEffects w) = Some (depsVersion (dash w))
  ∧ (nextHandle w ≤ nextHandle (flushEffects w))%positive
  ∧ (∀ h tm, timers (flushEffects w) !! h = Some tm → (nextHandle w ≤ h)%positive).
Proof.
  intros Hinv Hdeps. unfold flushEffects.
  rewrite bool_decide_eq_false_2 by done.
  assert (Hw1 : match effectDeps w with
                | Some _ => effectCleanup w
                | None => w
                end = wTimers ∅ w).
  { destruct (effectDeps w) eqn:E.
    - rewrite <- (effectCleanup_clears w Hinv). rewrite effectCleanup_eq. reflexivity.
    - destruct Hinv as (_ & _ & _ & _ & H5). rewrite <- (H5 E). by rewrite wTimers_id. }
  rewrite Hw1. clear Hw1.
  rewrite effectBody_flat.
  change (dash (wTimers ∅ w)) with (dash w).
  set (d := draftByTask (dash w)). set (n := notesByTask (dash w)).
  assert (Hbase : loopInv d n (clock w) (nextHandle w) [] (wTimers ∅ w)).
  { destruct Hinv as (H1 & H2 & H3 & _).
    split; [done|]. split; [intros h tm; simpl; by rewrite lookup_empty|].
    split; [by intros t o ?%elem_of_nil|].
    split; [intros h tm; simpl; by rewrite lookup_empty|].
    split; [exact H2|]. split; [exact H3|].
    split; [simpl; lia|]. intros h tm; simpl; by rewrite lookup_empty. }
  apply (foldl_armKey_loopInv d n (clock w) (nextHandle w) (effectPairs (dash w)))
    in Hbase.
  rewrite app_nil_l in Hbase.
  destruct (foldl_armKey_shape d n (effectPairs (dash w)) (wTimers ∅ w))
    as (r1 & t1 & n1 & Hsh).
  rewrite Hsh in Hbase |- *.
  destruct Hbase as (Hc & I1 & I2 & I4 & I5 & I6 & I7 & I8).
  split; [|split; [|split; [done|split; [exact I7 | exact I8]]]].
  - split.
    + intros h tm Hh. destruct (I1 h tm Hh) as (Htm & Hvis & Hd).
      split; [exact Htm|]. split; [|exact Hd].
      apply (effectPairs_elem (dash w)) in Hvis. exact Hvis.
    + intros t o Hvis Hd. apply I2; [|exact Hd].
      apply (effectPairs_elem (dash w)). exact Hvis.
  - split; [exact I4|]. split; [exact I5|]. split; [exact I6|].
    split; [|done]. intros v [= <-]. simpl. lia.
Qed.

Lemma flushEffects_idle (w : World) :
  effectDeps w = Some (depsVersion (dash w)) → flushEffects w = w.
Proof. intros H. unfold flushEffects. by rewrite bool_decide_eq_true_2. Qed.

Lemma flushEffects_timersInv (w : World) : timersInv w → timersInv (flushEffects w).
Proof.
  intros Hinv.
  destruct (decide (effectDeps w = Some (depsVersion (dash w)))) as [He|He].
  - by rewrite flushEffects_idle.
  - by apply flushEffects_runs.
Qed.

Lemma step_timersInv (e : Event) (w : World) : timersInv w → timersInv (step e w).
Proof.
  intros Hinv.
  destruct (step_timers e w) as [-> | [[h ->] | (Ht & Href & Hnh & Hed & Hdv)]].
  - by apply flushEffects_timersInv.
  - by apply fireTimer_timersInv.
  - apply (timersInv_shrink w); try done. by rewrite Ht.
Qed.

Lemma reachable_timersInv (w : World) : reachable w → timersInv w.
Proof.
  apply reachable_ind.
  - split; [intros h tm; simpl; by rewrite lookup_empty|].
    split; [intros k h; simpl; by rewrite lookup_empty|].
    split; [intros k1 k2 h; simpl; by rewrite lookup_empty|].
    split; [done | done].
  - intros e w0. apply step_timersInv.
Qed.

End flush.

(** ** Timers coming due *)

Section firing.

Variables (t : string) (o : Owner).

Lemma upsertsFor_snoc_same (l : list UpsertReq) (v : string) :
  upsertsFor t o (l ++ [noteUpsert t o v]) = upsertsFor t o l ++ [noteUpsert t o v].
Proof.
  unfold upsertsFor. rewrite filter_app, filter_cons, decide_True by done. done.
Qed.

Lemma upsertsFor_snoc_other (l : list UpsertReq) (t' : string) (o' : Owner) (v : string) :
  (t', o') ≠ (t, o) →
  upsertsFor t o (l ++ [noteUpsert t' o' v]) = upsertsFor t o l.
Proof.
  intros Hne. unfold upsertsFor. rewrite filter_app, filter_cons, decide_False.
  - by rewrite filter_nil, app_nil_r.
  - simpl. intros [-> ->]. done.
Qed.

(** A timer of another pair, or one that does not run, neither writes
    for this pair nor touches its in-flight mark. *)
Lemma fireTimer_other (h : positive) (w : World) :
  (∀ tm, timers w !! h = Some tm → (tm_taskId tm, tm_owner tm) ≠ (t, o)) →
  upsertsFor t o (upsertLog (fireTimer h w)) = upsertsFor t o (upsertLog w)
  ∧ (makeKey t o ∈ autosaveInFlightRef (dash (fireTimer h w))
     ↔ makeKey t o ∈ autosaveInFlightRef (dash w)).
Proof.
  intros Hother.
  destruct (fireTimer_shape h w) as [-> | (tm & Htm & _ & ->)]; [done|].
  specialize (Hother tm Htm).
  destruct (timerCallback_shape tm (dash w)) as [-> | ->]; [done|].
  destruct (saveNote_shape (tm_draftByTask tm) (tm_taskId tm) (tm_owner tm)
              (Some (draftOf (tm_draftByTask tm) (tm_taskId tm) (tm_owner tm)))
              (dash w)) as [[_ ->] | [_ ->]]; [done|].
  simpl. split; [by apply upsertsFor_snoc_other|].
  rewrite elem_of_union, elem_of_singleton. split; [|by right].
  intros [Hk | ?]; [|done]. symmetry in Hk. by apply makeKey_ne in Hk.
Qed.

(** The timer of this pair, due, closed over a dirty pair, with no save
    of the pair in flight: one upsert of the trimmed captured draft. *)
Lemma fireTimer_key (h : positive) (w : World) (tm : Timer) :
  timers w !! h = Some tm →
  (tm_deadline tm ≤ clock w)%N →
  tm_taskId tm = t → tm_owner tm = o →
  draftOf (tm_draftByTask tm) t o ≠ savedOf (tm_notesByTask tm) t o →
  makeKey t o ∉ autosaveInFlightRef (dash w) →
  upsertLog (fireTimer h w)
  = upsertLog w ++ [noteUpsert t o (trim (draftOf (tm_draftByTask tm) t o))]
  ∧ timers (fireTimer h w) = delete h (timers w).
Proof.
  intros Htm Hdue Ht Ho Hdirty Hout.
  unfold fireTimer. rewrite Htm.
  rewrite (proj2 (N.leb_le _ _) Hdue).
  unfold timerCallback. rewrite Ht, Ho.
  rewrite bool_decide_eq_true_2 by done.
  destruct (saveNote_shape (tm_draftByTask tm) t o
              (Some (draftOf (tm_draftByTask tm) t o))
              (dash (wTimers (delete h (timers w)) w))) as [[Hin _] | [_ ->]]; done.
Qed.

Lemma runTimers_other (hs : list positive) (w : World) :
  (∀ h tm, h ∈ hs → timers w !! h = Some tm → (tm_taskId tm, tm_owner tm) ≠ (t, o)) →
  let w' := foldl (fun w h => fireTimer h w) w hs in
  upsertsFor t o (upsertLog w') = upsertsFor t o (upsertLog w)
  ∧ (makeKey t o ∈ autosaveInFlightRef (dash w')
     ↔ makeKey t o ∈ autosaveInFlightRef (dash w))
  ∧ (∀ h tm, timers w' !! h = Some tm → timers w !! h = Some tm)
  ∧ (∀ h, h ∉ hs → timers w' !! h = timers w !! h)
  ∧ clock w' = clock w.
Proof.
  revert w. induction hs as [|h hs IH]; intros w Hother; cbn [foldl]; [done|].
  destruct (fireTimer_other h w) as [Hlog Hfl]; [intros tm; apply Hother; left|].
  destruct (fireTimer_timers h w) as (Ht & _ & _ & _ & _ & Hc & _).
  assert (Hsub : ∀ h' tm, timers (fireTimer h w) !! h' = Some tm →
                   timers w !! h' = Some tm).
  { intros h' tm. destruct Ht as [-> | ->]; [done|].
    by intros [_ ?]%lookup_delete_Some. }
  destruct (IH (fireTimer h w)) as (Hlog' & Hfl' & Hsub' & Hkeep' & Hc').
  { intros h' tm Hin Hh'. apply (Hother h' tm); [by right|]. by apply Hsub. }
  split; [by rewrite Hlog'|]. split; [by rewrite Hfl'|].
  split; [intros h' tm Hh'; by apply Hsub, Hsub'|].
  split; [|by rewrite Hc'].
  intros h' Hnot. rewrite Hkeep' by (intros ?; apply Hnot; by right).
  destruct Ht as [-> | ->]; [done|].
  apply lookup_delete_ne. intros ->. apply Hnot. left.
Qed.

Lemma fireTimer_early (h : positive) (w : World) :
  (∀ tm, timers w !! h = Some tm → (clock w < tm_deadline tm)%N) → fireTimer h w = w.
Proof.
  intros Hearly. unfold fireTimer. destruct (timers w !! h) as [tm|]; [|done].
  specialize (Hearly tm eq_refl).
  by rewrite (proj2 (N.leb_gt _ _) Hearly).
Qed.

Lemma runTimers_early (hs : list positive) (w : World) :
  (∀ h tm, timers w !! h = Some tm → (clock w < tm_deadline tm)%N) →
  foldl (fun w h => fireTimer h w) w hs = w.
Proof.
  intros Hearly. induction hs as [|h hs IH]; cbn [foldl]; [done|].
  rewrite fireTimer_early; [done|]. intros tm. apply Hearly.
Qed.

End firing.

Lemma elem_of_handlesUpTo (h n : positive) : h ∈ handlesUpTo n ↔ (h < n)%positive.
Proof.
  unfold handlesUpTo. rewrite list_elem_of_fmap. split.
  - intros (i & -> & Hi%elem_of_seq). lia.
  - intros Hlt. exists (Nat.pred (Pos.to_nat h)). split; [lia|].
    apply elem_of_seq. lia.
Qed.

Lemma NoDup_handlesUpTo (n : positive) : NoDup (handlesUpTo n).
Proof.
  unfold handlesUpTo. apply NoDup_fmap_2; [|apply NoDup_seq].
  intros i j Hij. lia.
Qed.

(** A keystroke with its flush, and time passing with the due timers
    running, are runs of events. *)
Lemma typeDraft_run (t : string) (o : Owner) (v : string) (w : World) :
  typeDraft t o v w = run [EvEdit t o v; EvFlushEffects] w.
Proof. reflexivity. Qed.

Lemma advance_run (dt : N) (w : World) :
  advance dt w = run (EvTick dt :: (EvTimer <$> handlesUpTo (nextHandle w))) w.
Proof.
  unfold advance, runDue, run. cbn [foldl step].
  change (nextHandle (wClock (clock w + dt) w)) with (nextHandle w).
  generalize (wClock (clock w + dt) w).
  induction (handlesUpTo (nextHandle w)) as [|h hs IH]; intros w1; [done|].
  cbn [foldl fmap list_fmap step]. apply IH.
Qed.

(** ** A debounce window elapsing *)

Section window.

Variables (t : string) (o : Owner).

Lemma advance_early (w : World) (dt : N) :
  armedNow w → (dt < delayMs)%N → advance dt w = wClock (clock w + dt) w.
Proof.
  intros [Harmed _] Hdt. unfold advance, runDue.
  apply runTimers_early. intros h tm Hh. simpl in Hh |- *.
  destruct (Harmed h tm Hh) as (-> & _). simpl. lia.
Qed.

Lemma advance_idle_key (w : World) (dt : N) :
  (∀ h tm, timers w !! h = Some tm → (tm_taskId tm, tm_owner tm) ≠ (t, o)) →
  upsertsFor t o (upsertLog (advance dt w)) = upsertsFor t o (upsertLog w).
Proof.
  intros Hnone. unfold advance, runDue.
  destruct (runTimers_other t o (handlesUpTo (nextHandle (wClock (clock w + dt) w)))
              (wClock (clock w + dt) w)) as (Hlog & _); [|exact Hlog].
  intros h tm _ Hh. by apply (Hnone h tm).
Qed.

(** After an effect run, a dirty visible pair with no save in flight is
    written exactly once when the delay has passed: the trimmed draft. *)
Lemma advance_fires_key (w : World) (dt : N) :
  timersInv w → armedNow w →
  taskVisible t (dash w) = true →
  dirty (dash w) t o →
  makeKey t o ∉ autosaveInFlightRef (dash w) →
  (delayMs ≤ dt)%N →
  upsertsFor t o (upsertLog (advance dt w))
  = upsertsFor t o (upsertLog w)
    ++ [noteUpsert t o (trim (draftOf (draftByTask (dash w)) t o))].
Proof.
  intros (Href & Hlt & _) [_ Harm] Hvis Hdirty Hout Hdt.
  destruct (Harm t o Hvis Hdirty) as [h0 Hh0].
  set (tm0 := mkTimer (clock w + delayMs) t o (draftByTask (dash w))
                      (notesByTask (dash w))) in *.
  pose proof (Href h0 tm0 Hh0) as Hk0. unfold timerKey in Hk0. simpl in Hk0.
  assert (Huniq : ∀ h tm, timers w !! h = Some tm →
            (tm_taskId tm, tm_owner tm) = (t, o) → h = h0).
  { intros h tm Hh [= Ht Ho]. apply Href in Hh. unfold timerKey in Hh.
    rewrite Ht, Ho in Hh. congruence. }
  unfold advance, runDue.
  set (W := wClock (clock w + dt) w).
  assert (Hin : h0 ∈ handlesUpTo (nextHandle W)).
  { apply elem_of_handlesUpTo. by apply (Hlt _ _ Hk0). }
  apply list_elem_of_split in Hin as (l1 & l2 & Hl).
  pose proof (NoDup_handlesUpTo (nextHandle W)) as Hnd.
  rewrite Hl in Hnd |- *.
  apply NoDup_app in Hnd as (_ & Hdisj & Hnd2).
  apply NoDup_cons in Hnd2 as [Hnot2 _].
  rewrite foldl_app. cbn [foldl].
  destruct (runTimers_other t o l1 W) as (Hlog1 & Hfl1 & Hsub1 & Hkeep1 & Hc1).
  { intros h tm Hin Hh Heq. apply (Huniq h tm Hh) in Heq. subst h.
    apply (Hdisj h0 Hin). left. }
  set (w1 := foldl (fun w h => fireTimer h w) W l1) in *.
  assert (Hh1 : timers w1 !! h0 = Some tm0).
  { rewrite Hkeep1; [exact Hh0|]. intros Hin. apply (Hdisj h0 Hin). left. }
  destruct (fireTimer_key t o h0 w1 tm0) as [Hlog2 Ht2]; try done.
  { rewrite Hc1. simpl. lia. }
  { by rewrite Hfl1. }
  destruct (runTimers_other t o l2 (fireTimer h0 w1)) as (Hlog3 & _).
  { intros h tm Hin. rewrite Ht2. intros [Hne Hh]%lookup_delete_Some Heq.
    apply Hsub1 in Hh. apply Hne. symmetry. by apply (Huniq h tm). }
  rewrite Hlog3, Hlog2, upsertsFor_snoc_same, Hlog1. done.
Qed.

Lemma armedNow_clean_none (w : World) :
  armedNow w → ¬ dirty (dash w) t o →
  ∀ h tm, timers w !! h = Some tm → (tm_taskId tm, tm_owner tm) ≠ (t, o).
Proof.
  intros [Harmed _] Hclean h tm Hh [= Ht Ho].
  destruct (Harmed h tm Hh) as (_ & _ & Hd). rewrite Ht, Ho in Hd. done.
Qed.

(** A keystroke in a visible editor, with its effect flush. *)
Lemma typeDraft_spec (w : World) (v : string) :
  timersInv w →
  taskVisible t (dash w) = true →
  let w' := typeDraft t o v w in
  armedNow w' ∧ timersInv w'
  ∧ upsertLog w' = upsertLog w
  ∧ autosaveInFlightRef (dash w') = autosaveInFlightRef (dash w)
  ∧ tasks (dash w') = tasks (dash w)
  ∧ notesByTask (dash w') = notesByTask (dash w)
  ∧ draftOf (draftByTask (dash w')) t o = v
  ∧ clock w' = clock w
  ∧ (nextHandle w ≤ nextHandle w')%positive
  ∧ (∀ h tm, timers w' !! h = Some tm → (nextHandle w ≤ h)%positive).
Proof.
  intros Hinv Hvis w'. subst w'. unfold typeDraft.
  pose proof (step_timersInv (EvEdit t o v) w Hinv) as Hinv1.
  cbn [step] in *. rewrite Hvis in *.
  set (w1 := wDash (editDraft t o v (dash w)) w) in *.
  assert (Hdeps : effectDeps w1 ≠ Some (depsVersion (dash w1))).
  { destruct Hinv as (_ & _ & _ & H4 & _). simpl. intros Hed.
    specialize (H4 _ Hed). lia. }
  destruct (flushEffects_runs w1 Hinv1 Hdeps) as (Harm & Hinv' & _ & Hnh & Hfresh).
  destruct (flushEffects_shape w1) as (r1 & t1 & n1 & e1 & Hsh).
  split; [exact Harm|]. split; [exact Hinv'|].
  rewrite Hsh in Hnh, Hfresh |- *.
  repeat split; try done.
  simpl. unfold draftOf. rewrite lookup_insert_eq. simpl. by rewrite lookup_insert_eq.
Qed.

End window.

(** ** Debounce *)

Section burst.

Variables (t : string) (o : Owner) (w0 : World).

Lemma burst_start (v : string) :
  timersInv w0 → taskVisible t (dash w0) = true →
  burstInv t o w0 v (typeDraft t o v w0).
Proof.
  intros Hinv Hvis.
  destruct (typeDraft_spec t o w0 v Hinv Hvis)
    as (Harm & Hinv' & Hlog & Hfl & Htasks & Hnotes & Hdraft & _ & Hnh & Hfresh).
  split; [exact Hinv'|]. split; [exact Harm|].
  split; [unfold taskVisible in *; by rewrite Htasks|].
  done.
Qed.

Lemma burst_step (v v' : string) (gap : N) (w : World) :
  burstInv t o w0 v w → (gap < delayMs)%N →
  burstInv t o w0 v' (typeDraft t o v' (advance gap w)).
Proof.
  intros (Hinv & Harm & Hvis & Hlog & Hfl & Hnotes & _ & Hnh & _) Hgap.
  rewrite (advance_early w gap Harm Hgap).
  set (w1 := wClock (clock w + gap) w).
  assert (Hinv1 : timersInv w1) by apply (step_timersInv (EvTick gap) w Hinv).
  destruct (typeDraft_spec t o w1 v' Hinv1 Hvis)
    as (Harm' & Hinv' & Hlog' & Hfl' & Htasks' & Hnotes' & Hdraft' & _ & Hnh' & Hfresh').
  split; [exact Hinv'|]. split; [exact Harm'|].
  split; [unfold taskVisible in *; by rewrite Htasks'|].
  split; [by rewrite Hlog'|]. split; [by rewrite Hfl'|].
  split; [by rewrite Hnotes'|]. split; [exact Hdraft'|].
  simpl in Hnh', Hfresh'.
  split; [lia|]. intros h tm Hh. specialize (Hfresh' h tm Hh). lia.
Qed.

Lemma burst_run (es : list (N * string)) (v : string) (w : World) :
  burstInv t o w0 v w →
  Forall (fun e => (e.1 < delayMs)%N) es →
  burstInv t o w0 (default v (last es.*2)) (rapidEdits t o es w).
Proof.
  revert v w. induction es as [|[gap v'] es IH]; intros v w Hb Hall; [done|].
  apply Forall_cons in Hall as [Hgap Hall].
  unfold rapidEdits. cbn [foldl]. fold (rapidEdits t o es).
  replace (default v (last ((gap, v') :: es).*2)) with (default v' (last es.*2)).
  - apply IH; [|done]. by apply (burst_step v).
  - rewrite fmap_cons, last_cons. simpl. by destruct (last es.*2).
Qed.

End burst.

(** C1 (as amended). When the autosave effect has run after a keystroke,
    exactly the dirty pairs of visible tasks have a timer, one each, due
    1500 ms later, and every timer armed before is cancelled.  A burst of
    edits of one editor, each less than 1500 ms after the previous one,
    issues no upsert while it lasts nor before 1500 ms have passed since
    its last edit; once they have, it has issued for that pair exactly one
    upsert, carrying the trimmed final draft, when the final draft differs
    from the cached saved note, and none when it equals it. *)
Theorem debounce_coalesces_burst (w : World) (t : string) (o : Owner) (v0 : string)
    (es : list (N * string)) :
  reachable w →
  taskVisible t (dash w) = true →
  makeKey t o ∉ autosaveInFlightRef (dash w) →
  Forall (fun e => (e.1 < delayMs)%N) es →
  let w' := rapidEdits t o es (typeDraft t o v0 w) in
  let final := default v0 (last es.*2) in
  armedNow w'
  ∧ (∀ h tm, timers w !! h = Some tm → timers w' !! h = None)
  ∧ (∀ h1 h2 tm1 tm2, timers w' !! h1 = Some tm1 → timers w' !! h2 = Some tm2 →
       tm_taskId tm1 = tm_taskId tm2 → tm_owner tm1 = tm_owner tm2 → h1 = h2)
  ∧ draftOf (draftByTask (dash w')) t o = final
  ∧ upsertLog w' = upsertLog w
  ∧ (∀ dt, (dt < delayMs)%N → upsertLog (advance dt w') = upsertLog w)
  ∧ (∀ dt, (delayMs ≤ dt)%N →
       upsertsFor t o (upsertLog (advance dt w'))
       = upsertsFor t o (upsertLog w)
         ++ if decide (final = savedOf (notesByTask (dash w)) t o) then []
            else [noteUpsert t o (trim final)]).
Proof.
  intros Hreach Hvis Hout Hall w' final.
  pose proof (reachable_timersInv w Hreach) as Hinv.
  pose proof (burst_run t o w es v0 _ (burst_start t o w v0 Hinv Hvis) Hall) as Hb.
  fold w' in Hb. fold final in Hb.
  destruct Hb as (Hinv' & Harm & Hvis' & Hlog & Hfl & Hnotes & Hdraft & Hnh & Hfresh).
  split; [exact Harm|]. split.
  { intros h tm Hh. destruct (timers w' !! h) as [tm'|] eqn:E; [|done].
    apply Hfresh in E. destruct Hinv as (H1 & H2 & _).
    apply H1, H2 in Hh. lia. }
  split.
  { intros h1 h2 tm1 tm2 Hh1 Hh2 Ht Ho. destruct Hinv' as (H1 & _).
    apply H1 in Hh1, Hh2. unfold timerKey in *. rewrite Ht, Ho in Hh1. congruence. }
  split; [exact Hdraft|]. split; [exact Hlog|]. split.
  { intros dt Hdt. by rewrite (advance_early w' dt Harm Hdt). }
  intros dt Hdt. rewrite <- Hlog.
  case_decide as Hfinal.
  - rewrite app_nil_r. apply advance_idle_key.
    apply armedNow_clean_none; [exact Harm|].
    unfold dirty. rewrite Hdraft, Hnotes. by intros Hd.
  - rewrite <- Hdraft. apply advance_fires_key; try done.
    + unfold dirty. by rewrite Hdraft, Hnotes.
    + by rewrite Hfl.
Qed.

Lemma debounce_coalesces_burst_witness :
  upsertsFor "t1" OWNER_B
    (upsertLog (advance 1500
       (rapidEdits "t1" OWNER_B [(200%N, "En route")] (typeDraft "t1" OWNER_B "En" week3))))
  = [noteUpsert "t1" OWNER_B "En route"].
Proof.
  assert (Hreach : reachable week3) by (eexists; reflexivity).
  assert (Hvis : taskVisible "t1" (dash week3) = true) by (by vm_compute).
  assert (Hout : makeKey "t1" OWNER_B ∉ autosaveInFlightRef (dash week3))
    by (apply (bool_decide_unpack _); by vm_compute).
  assert (Hall : Forall (fun e : N * string => (e.1 < delayMs)%N) [(200%N, "En route")])
    by (repeat constructor).
  destruct (debounce_coalesces_burst week3 "t1" OWNER_B "En" [(200%N, "En route")]
              Hreach Hvis Hout Hall) as (_ & _ & _ & _ & _ & _ & Hfire).
  rewrite (Hfire 1500%N); [by vm_compute | by vm_compute].
Defined.

(** Every run of the effect clears and re-arms the timers of all dirty
    pairs: a keystroke in one editor also postpones the pending save of
    the other, here to 2500 ms after its own last edit at 0 ms. *)
Example edit_elsewhere_defers_pending_save :
  let w := typeDraft "t1" OWNER_A "x"
             (advance 1000 (typeDraft "t1" OWNER_B "En route" week3)) in
  clock w = 1000%N
  ∧ upsertLog (advance 1499 w) = []
  ∧ upsertsFor "t1" OWNER_B (upsertLog (advance 1500 w))
    = [noteUpsert "t1" OWNER_B "En route"].
Proof. intros w. split; [by vm_compute|]. split; by vm_compute. Qed.

(** The claim as worded fails on a burst that ends where it started (no
    write at all) and on a final draft with surrounding white space (the
    write carries the trimmed text). *)
Lemma burst_back_to_saved_writes_nothing :
  upsertLog (advance 1500
     (rapidEdits "t1" OWNER_B [(200%N, "")] (typeDraft "t1" OWNER_B "En route" week3)))
  = []
  ∧ upsertLog (advance 1500
       (rapidEdits "t1" OWNER_B [(200%N, "En route ")] (typeDraft "t1" OWNER_B "En" week3)))
    = [noteUpsert "t1" OWNER_B "En route"]
  ∧ "En route" ≠ "En route ".
Proof. split; [by vm_compute|]. split; [by vm_compute | discriminate]. Qed.

(** ** Completion of a save *)

Section completion.

Lemma run_rows_one (t : string) (o : Owner) (es : list Event) (w : World) :
  uniqueRows (task_notes w) →
  length (rowsFor t o (task_notes w)) = 1 →
  length (rowsFor t o (task_notes (run es w))) = 1.
Proof.
  intros Hu H1. induction es as [|e es IH] using rev_ind; [done|].
  rewrite run_snoc.
  pose proof (run_uniqueRows es w Hu) as Hu'.
  destruct (step_task_notes e (run es w)) as [-> | (r & st & nid & ->)]; [done|].
  destruct (decide ((t, o) = (u_task_id r, u_owner r))) as [Heq|Hne].
  - injection Heq as -> ->. by apply gatewayUpsert_one.
  - by rewrite gatewayUpsert_rows_other.
Qed.

Lemma upsertDone_dash (w : World) (i : nat) (r : UpsertReq) (error : option string)
    (nowIso stamp newId : string) :
  pendingUpserts w !! i = Some r →
  dash (step (EvUpsertDone i error nowIso stamp newId) w)
  = saveNote_resume r error nowIso (dash w)
  ∧ task_notes (step (EvUpsertDone i error nowIso stamp newId) w)
    = match error with
      | None => gatewayUpsert r stamp newId (task_notes w)
      | Some _ => task_notes w
      end
  ∧ pendingNoteLoads (step (EvUpsertDone i error nowIso stamp newId) w)
    = pendingNoteLoads w
  ∧ pendingTaskLoads (step (EvUpsertDone i error nowIso stamp newId) w)
    = pendingTaskLoads w
  ∧ upsertLog (step (EvUpsertDone i error nowIso stamp newId) w) = upsertLog w.
Proof. intros Hi. cbn [step]. rewrite Hi. by destruct error. Qed.

Lemma entry_after_save (prev : gmap string (gmap Owner NoteEntry)) (t t' : string)
    (o o' : Owner) (e : NoteEntry) :
  <[t := <[o := e]> (default ∅ (prev !! t))]> prev !! t' ≫= (fun m => m !! o')
  = if decide ((t', o') = (t, o)) then Some e else prev !! t' ≫= (fun m => m !! o').
Proof.
  destruct (decide (t = t')) as [<-|Ht].
  - rewrite lookup_insert_eq. simpl.
    destruct (decide (o = o')) as [<-|Ho].
    + rewrite lookup_insert_eq. by rewrite decide_True.
    + rewrite lookup_insert_ne by done.
      rewrite decide_False by congruence.
      destruct (prev !! t); simpl; [done | by rewrite lookup_empty].
  - rewrite lookup_insert_ne by done. rewrite decide_False by congruence. done.
Qed.

End completion.

(** C5. When the awaited upsert [r] of a pair succeeds (an upsert whose
    conflict target is the pair): the note cache entry of that pair, and
    of no other, becomes the written text with the completion's timestamp; no fetch is started; the drafts are untouched;
    the saving flag of the key is cleared and its in-flight mark released;
    the store, which honours the uniqueness constraint, holds exactly one
    row for the pair, carrying the written text.  An empty trimmed text is
    written like any other and leaves the cached note empty. *)
Theorem save_success_in_place (w : World) (i : nat) (r : UpsertReq)
    (nowIso stamp newId : string) :
  reachable w →
  pendingUpserts w !! i = Some r →
  let t := u_task_id r in
  let o := u_owner r in
  let w' := step (EvUpsertDone i None nowIso stamp newId) w in
  u_onConflict r = "task_id,owner"
  ∧ notesByTask (dash w') !! t ≫= (fun m => m !! o)
    = Some (mkNoteEntry (u_note r) (Some nowIso) None)
  ∧ (∀ t' o', (t', o') ≠ (t, o) →
       notesByTask (dash w') !! t' ≫= (fun m => m !! o')
       = notesByTask (dash w) !! t' ≫= (fun m => m !! o'))
  ∧ draftByTask (dash w') = draftByTask (dash w)
  ∧ savingKeys (dash w') !! makeKey t o = Some false
  ∧ (makeKey t o ∉ autosaveInFlightRef (dash w'))
  ∧ pendingNoteLoads w' = pendingNoteLoads w
  ∧ pendingTaskLoads w' = pendingTaskLoads w
  ∧ length (rowsFor t o (task_notes w')) = 1
  ∧ (∀ x, x ∈ rowsFor t o (task_notes w') → nr_note x = Some (u_note r))
  ∧ uniqueRows (task_notes w')
  ∧ (u_note r = "" → savedOf (notesByTask (dash w')) t o = "")
  ∧ (∀ d s raw, trim raw = "" → makeKey t o ∉ autosaveInFlightRef s →
       (saveNote d t o (Some raw) s).2 = Some (noteUpsert t o "")).
Proof.
  intros Hreach Hi t o w'.
  destruct (upsertDone_dash w i r None nowIso stamp newId Hi)
    as (Hdash & Hdb & Hnl & Htl & _).
  fold w' in Hdash, Hdb, Hnl, Htl.
  pose proof (reachable_uniqueRows w Hreach) as Hu.
  assert (Hentry : ∀ t' o', notesByTask (dash w') !! t' ≫= (fun m => m !! o')
            = if decide ((t', o') = (t, o))
              then Some (mkNoteEntry (u_note r) (Some nowIso) None)
              else notesByTask (dash w) !! t' ≫= (fun m => m !! o')).
  { intros t' o'. rewrite Hdash. cbn. apply entry_after_save. }
  split.
  { apply (reachable_keyed w Hreach). by apply list_elem_of_lookup_2 with i. }
  split; [by rewrite Hentry, decide_True|].
  split; [intros t' o' Hne; by rewrite Hentry, decide_False|].
  rewrite Hdash, Hdb, Hnl, Htl.
  split; [done|].
  split; [cbn; by rewrite lookup_insert_eq|].
  split; [cbn; rewrite elem_of_difference, elem_of_singleton; by intros [_ ?]|].
  split; [done|]. split; [done|].
  split; [by apply gatewayUpsert_one|].
  split; [intros x; apply gatewayUpsert_note|].
  split; [by apply gatewayUpsert_unique|].
  split.
  - intros Hempty. unfold savedOf.
    change (notesByTask (saveNote_resume r None nowIso (dash w)))
      with (<[t := <[o := mkNoteEntry (u_note r) (Some nowIso) None]>
                      (default ∅ (notesByTask (dash w) !! t))]> (notesByTask (dash w))).
    rewrite entry_after_save, decide_True by done. done.
  - intros d s raw Hraw Hout.
    destruct (saveNote_shape d t o (Some raw) s) as [[Hin _] | [_ ->]]; [done|].
    simpl. by rewrite Hraw.
Qed.

Lemma save_success_in_place_witness :
  let w := run [EvEdit "t1" OWNER_B " En route "; EvFlushEffects; EvTick 1500; EvTimer 1]
               week3 in
  let w' := step (EvUpsertDone 0 None "2024-05-01T10:00:00Z" "2024-05-01T09:59:59Z" "n1") w in
  notesByTask (dash w') !! "t1" ≫= (fun m => m !! OWNER_B)
    = Some (mkNoteEntry "En route" (Some "2024-05-01T10:00:00Z") None)
  ∧ length (rowsFor "t1" OWNER_B (task_notes w')) = 1
  ∧ savingKeys (dash w') !! makeKey "t1" OWNER_B = Some false.
Proof.
  intros w w'.
  assert (Hreach : reachable w) by (apply reachable_run; eexists; reflexivity).
  assert (Hi : pendingUpserts w !! 0 = Some (noteUpsert "t1" OWNER_B "En route"))
    by (by vm_compute).
  destruct (save_success_in_place w 0 _ "2024-05-01T10:00:00Z" "2024-05-01T09:59:59Z" "n1"
              Hreach Hi) as (_ & Hentry & _ & _ & Hflag & _ & _ & _ & Hone & _).
  split; [exact Hentry|]. split; [exact Hone | exact Hflag].
Defined.





(** ** Saving twice *)

(** C7 (as amended). When the awaited upsert of a pair succeeds and the
    text written is the draft as it then stands (the draft was already
    trimmed and has not been edited meanwhile), the pair is clean; once
    the effect has been flushed no timer is armed for it, so no passing of
    time issues a second upsert for it; and whatever happens next, another
    save of the pair included, the store keeps exactly one row for it. *)
Theorem saved_trimmed_draft_is_clean (w : World) (i : nat) (r : UpsertReq)
    (nowIso stamp newId : string) :
  reachable w →
  pendingUpserts w !! i = Some r →
  let t := u_task_id r in
  let o := u_owner r in
  u_note r = draftOf (draftByTask (dash w)) t o →
  let w' := flushEffects (step (EvUpsertDone i None nowIso stamp newId) w) in
  ¬ dirty (dash w') t o
  ∧ (∀ h tm, timers w' !! h = Some tm → (tm_taskId tm, tm_owner tm) ≠ (t, o))
  ∧ (∀ dt, upsertsFor t o (upsertLog (advance dt w')) = upsertsFor t o (upsertLog w))
  ∧ (∀ es, length (rowsFor t o (task_notes (run es w'))) = 1).
Proof.
  intros Hreach Hi t o Hsame w'.
  set (w1 := step (EvUpsertDone i None nowIso stamp newId) w) in *.
  destruct (upsertDone_dash w i r None nowIso stamp newId Hi)
    as (Hdash & Hdb & _ & _ & Hlog).
  fold w1 in Hdash, Hdb, Hlog.
  pose proof (reachable_uniqueRows w Hreach) as Hu.
  assert (Hentry : notesByTask (dash w1) !! t ≫= (fun m => m !! o)
            = Some (mkNoteEntry (u_note r) (Some nowIso) None)).
  { rewrite Hdash. cbn. by rewrite entry_after_save, decide_True. }
  assert (Hdraft : draftByTask (dash w1) = draftByTask (dash w)) by (by rewrite Hdash).
  assert (Hone : length (rowsFor t o (task_notes w1)) = 1)
    by (rewrite Hdb; by apply gatewayUpsert_one).
  assert (Huniq : uniqueRows (task_notes w1))
    by (rewrite Hdb; by apply gatewayUpsert_unique).
  assert (Hinv1 : timersInv w1) by (apply reachable_timersInv; by apply reachable_step).
  assert (Hdeps : effectDeps w1 ≠ Some (depsVersion (dash w1))).
  { pose proof (reachable_timersInv w Hreach) as (_ & _ & _ & H4 & _).
    assert (effectDeps w1 = effectDeps w) as -> by (unfold w1; cbn [step]; by rewrite Hi).
    rewrite Hdash. cbn. intros Hed. specialize (H4 _ Hed). lia. }
  destruct (flushEffects_runs w1 Hinv1 Hdeps) as (Harm & _).
  destruct (flushEffects_shape w1) as (r1 & t1 & n1 & e1 & Hsh).
  fold w' in Harm.
  assert (Hd' : draftByTask (dash w') = draftByTask (dash w))
    by (unfold w'; rewrite Hsh; exact Hdraft).
  assert (Hn' : notesByTask (dash w') = notesByTask (dash w1))
    by (unfold w'; by rewrite Hsh).
  assert (Hclean : ¬ dirty (dash w') t o).
  { unfold dirty, savedOf. rewrite Hd', Hn', Hentry. cbn.
    intros Hd. apply Hd. by symmetry. }
  split; [exact Hclean|].
  split; [by apply armedNow_clean_none|].
  split.
  - intros dt. rewrite advance_idle_key by (by apply armedNow_clean_none).
    rewrite <- Hlog. unfold w'. by rewrite Hsh.
  - intros es. apply run_rows_one; unfold w'; rewrite Hsh; done.
Qed.

Lemma saved_trimmed_draft_is_clean_witness :
  let w := run [EvEdit "t1" OWNER_B "En route"; EvFlushEffects; EvTick 1500; EvTimer 1]
               week3 in
  let w' := flushEffects (step (EvUpsertDone 0 None "2024-05-01T10:00:00Z" "s1" "n1") w) in
  ¬ dirty (dash w') "t1" OWNER_B
  ∧ upsertsFor "t1" OWNER_B (upsertLog (advance 5000 w'))
    = upsertsFor "t1" OWNER_B (upsertLog w)
  ∧ length (rowsFor "t1" OWNER_B
      (task_notes (run [EvClickSave "t1" OWNER_B; EvUpsertDone 0 None "later" "s2" "n2"] w')))
    = 1.
Proof.
  intros w w'.
  assert (Hreach : reachable w) by (apply reachable_run; eexists; reflexivity).
  assert (Hi : pendingUpserts w !! 0 = Some (noteUpsert "t1" OWNER_B "En route"))
    by (by vm_compute).
  destruct (saved_trimmed_draft_is_clean w 0 _ "2024-05-01T10:00:00Z" "s1" "n1" Hreach Hi)
    as (Hclean & _ & Hidle & Hrows); [by vm_compute|].
  cbn [u_task_id u_owner noteUpsert] in Hclean, Hidle, Hrows.
  split; [exact Hclean|]. split; [apply Hidle | apply Hrows].
Defined.

(** The claim as worded fails: a draft with surrounding white space stays
    different from the trimmed note cached by its successful save, and a
    second save from the Save button is not skipped although the pair is
    clean; the store keeps one row all the same. *)
Lemma padded_draft_dirty_after_save :
  let w := run [EvEdit "t1" OWNER_B "En route "; EvFlushEffects; EvTick 1500; EvTimer 1;
                EvUpsertDone 0 None "2024-05-01T10:00:00Z" "s1" "n1"] week3 in
  let w2 := run [EvEdit "t1" OWNER_B "En route"; EvFlushEffects; EvTick 1500; EvTimer 1;
                 EvUpsertDone 0 None "2024-05-01T10:00:00Z" "s1" "n1"; EvFlushEffects;
                 EvClickSave "t1" OWNER_B] week3 in
  upsertLog w = [noteUpsert "t1" OWNER_B "En route"]
  ∧ draftOf (draftByTask (dash w)) "t1" OWNER_B = "En route "
  ∧ savedOf (notesByTask (dash w)) "t1" OWNER_B = "En route"
  ∧ dirty (dash w) "t1" OWNER_B
  ∧ ¬ dirty (dash w2) "t1" OWNER_B
  ∧ upsertLog w2 = [noteUpsert "t1" OWNER_B "En route"; noteUpsert "t1" OWNER_B "En route"]
  ∧ length (rowsFor "t1" OWNER_B (task_notes w2)) = 1.
Proof.
  intros w w2.
  split; [by vm_compute|]. split; [by vm_compute|]. split; [by vm_compute|].
  split; [intros H; vm_compute in H; discriminate|].
  split; [intros H; apply H; by vm_compute|].
  split; by vm_compute.
Qed.

(** ** What a timer compares when it runs *)

(** The callback's decision depends on the caches its closure captured,
    not on the caches of the state it runs in. *)
Lemma timerCallback_reads_closure (tm : Timer) (s : Dash)
    (d : gmap string (gmap Owner string)) (n : gmap string (gmap Owner NoteEntry)) :
  (timerCallback tm (setDraftByTask d (setNotesByTask n s))).2 = (timerCallback tm s).2.
Proof.
  unfold timerCallback. case_bool_decide; [|done].
  unfold saveNote. cbn. by case_decide.
Qed.

(** Right after an effect run the two coincide. *)
Lemma armed_timer_is_current (w : World) (h : positive) (tm : Timer) :
  armedNow w → timers w !! h = Some tm →
  tm_draftByTask tm = draftByTask (dash w) ∧ tm_notesByTask tm = notesByTask (dash w).
Proof.
  intros [Harmed _] Hh. destruct (Harmed h tm Hh) as (-> & _). done.
Qed.

(** C3 (the code departs from the claim). A draft is typed, its timer
    armed; 1400 ms later the Save button saves it and the save completes
    at 1499 ms, making draft and cached note equal; the timer comes due at
    1500 ms, before React has flushed the effect that would clear it.  The
    callback compares the draft and note of the render that armed it,
    finds them different and issues a second upsert, although the current
    draft and the current saved note are equal.  Had the effect been
    flushed first, the timer would have been cleared and nothing written. *)
Theorem stale_timer_writes_clean_pair :
  let w := run [EvEdit "t1" OWNER_A "a"; EvFlushEffects; EvTick 1400;
                EvClickSave "t1" OWNER_A; EvTick 99;
                EvUpsertDone 0 None "2024-05-01T10:00:01Z" "s1" "n1"; EvTick 1] week3 in
  draftOf (draftByTask (dash w)) "t1" OWNER_A = "a"
  ∧ savedOf (notesByTask (dash w)) "t1" OWNER_A = "a"
  ∧ (∃ tm, timers w !! 1%positive = Some tm
       ∧ draftOf (tm_draftByTask tm) "t1" OWNER_A = "a"
       ∧ savedOf (tm_notesByTask tm) "t1" OWNER_A = "")
  ∧ pendingUpserts w = []
  ∧ upsertLog w = [noteUpsert "t1" OWNER_A "a"]
  ∧ upsertLog (step (EvTimer 1) w)
    = [noteUpsert "t1" OWNER_A "a"; noteUpsert "t1" OWNER_A "a"]
  ∧ upsertLog (run [EvFlushEffects; EvTimer 1] w) = [noteUpsert "t1" OWNER_A "a"].
Proof.
  intros w.
  split; [by vm_compute|]. split; [by vm_compute|].
  split.
  { eexists. split; [by vm_compute|]. split; by vm_compute. }
  split; [by vm_compute|]. split; [by vm_compute|]. split; by vm_compute.
Qed.

(** * Further properties of the page *)

(** ** Keys and trimmed text *)

(** X1. [makeKey] separates pairs: two keys are equal exactly when task id
    and owner both are, whatever the task id contains (a ["::"] included),
    so timer slots, in-flight marks and saving flags of different pairs
    never collide. *)
Theorem makeKey_separates_pairs (t1 t2 : string) (o1 o2 : Owner) :
  (makeKey t1 o1 = makeKey t2 o2 ↔ t1 = t2 ∧ o1 = o2)
  ∧ makeKey (t1 +:+ "::" +:+ owner_str o1) o2 ≠ makeKey t1 o1.
Proof.
  split.
  - split; [apply makeKey_inj | by intros [-> ->]].
  - intros H. apply makeKey_inj in H as [Ht _].
    apply (f_equal String.length) in Ht.
    assert (Hlen : ∀ a b : string,
              String.length (a +:+ b) = String.length a + String.length b).
    { intros a b. induction a as [|c a IH]; simpl; [done | by rewrite IH]. }
    rewrite !Hlen in Ht. simpl in Ht. lia.
Qed.

Section trimmed.

Lemma rev_is_reverse (l : list ascii) : rev l = reverse l.
Proof. unfold reverse. apply rev_alt. Qed.

Lemma dropWs_head (l : list ascii) (c : ascii) :
  head (dropWs l) = Some c → is_ws c = false.
Proof.
  induction l as [|x l IH]; simpl; [done|].
  destruct (is_ws x) eqn:E; [done|]. simpl. by intros [= <-].
Qed.

Lemma dropWs_suffix (l : list ascii) : ∃ p, l = p ++ dropWs l.
Proof.
  induction l as [|x l [p IH]]; simpl; [by exists []|].
  destruct (is_ws x); [|by exists []].
  exists (x :: p). simpl. by rewrite <- IH.
Qed.

Lemma dropWs_last (l : list ascii) (c : ascii) :
  last (dropWs l) = Some c → last l = Some c.
Proof.
  intros H. destruct (dropWs_suffix l) as [p Hp].
  rewrite Hp, last_app. by rewrite H.
Qed.

Lemma trimList_ends (l : list ascii) (c : ascii) :
  (head (trimList l) = Some c → is_ws c = false)
  ∧ (last (trimList l) = Some c → is_ws c = false).
Proof.
  unfold trimList. rewrite !rev_is_reverse. split.
  - rewrite head_reverse. intros H%dropWs_last.
    rewrite last_reverse in H. by apply dropWs_head in H.
  - rewrite last_reverse. apply dropWs_head.
Qed.

End trimmed.

(** ** What is written *)

Section writes.

(** How one event acts on the awaited upserts, the log of issued
    upserts, the in-flight marks and the saving flags together. *)
Lemma step_upserts (e : Event) (w : World) :
  (pendingUpserts (step e w) = pendingUpserts w
   ∧ upsertLog (step e w) = upsertLog w
   ∧ autosaveInFlightRef (dash (step e w)) = autosaveInFlightRef (dash w)
   ∧ savingKeys (dash (step e w)) = savingKeys (dash w))
  ∨ (∃ t o raw,
       (makeKey t o ∉ autosaveInFlightRef (dash w))
       ∧ pendingUpserts (step e w) = pendingUpserts w ++ [noteUpsert t o (trim raw)]
       ∧ upsertLog (step e w) = upsertLog w ++ [noteUpsert t o (trim raw)]
       ∧ autosaveInFlightRef (dash (step e w))
         = {[makeKey t o]} ∪ autosaveInFlightRef (dash w)
       ∧ savingKeys (dash (step e w)) = <[makeKey t o := true]> (savingKeys (dash w)))
  ∨ (∃ i r,
       pendingUpserts w !! i = Some r
       ∧ pendingUpserts (step e w) = delete i (pendingUpserts w)
       ∧ upsertLog (step e w) = upsertLog w
       ∧ autosaveInFlightRef (dash (step e w))
         = autosaveInFlightRef (dash w) ∖ {[upsertKey r]}
       ∧ savingKeys (dash (step e w)) = <[upsertKey r := false]> (savingKeys (dash w))).
Proof.
  destruct e; simpl.
  - left. case_bool_decide; [done|]. unfold startLoadTasks. simpl.
    destruct (bool_decide (wk = 0%Z)); done.
  - left. unfold startLoadTasks. destruct (selectedWeek (dash w)); [|done].
    destruct (noWeekSelected _); done.
  - left. destruct (pendingTaskLoads w !! i); [|done].
    unfold loadTasks_resume, loadNotesForTasks.
    destruct resp as [msg|rows]; [done|].
    destruct (id <$> rows); done.
  - left. destruct (noWeekSelected _); [done|].
    unfold onNotesChange, loadNotesForTasks.
    destruct (payloadTaskId p) as [t|]; [|done].
    destruct (truthy t && bool_decide (t ∈ taskIdSetRef (dash w))); [|done].
    destruct (taskIdSetRef (dash w)); done.
  - left. destruct (pendingNoteLoads w !! i); [|done].
    destruct resp; done.
  - left. destruct (taskVisible _ _); done.
  - destruct (taskVisible _ _); [|by left].
    destruct (saveNote_shape (draftByTask (dash w)) taskId o None (dash w))
      as [[Hin ->] | [Hout ->]]; [by left|].
    right; left. eexists taskId, o, _. done.
  - destruct (pendingUpserts w !! i) as [r|] eqn:E; [|by left].
    right; right. exists i, r. split; [done|].
    destruct error; done.
  - by left.
  - by left.
  - left. unfold addTask. destruct (selectedWeek (dash w)); simpl; [|done].
    destruct (bool_decide _); [done|]. destruct (negb _); done.
  - left. destruct (pendingInserts w !! i); [|done]. destruct error; done.
  - left. destruct (flushEffects_shape w) as (r1 & t1 & n1 & e1 & ->). done.
  - by left.
  - destruct (fireTimer_shape h w) as [-> | (tm & _ & _ & ->)]; [by left|].
    destruct (timerCallback_shape tm (dash w)) as [-> | ->]; [by left|].
    destruct (saveNote_shape (tm_draftByTask tm) (tm_taskId tm) (tm_owner tm)
                (Some (draftOf (tm_draftByTask tm) (tm_taskId tm) (tm_owner tm)))
                (dash w)) as [[Hin ->] | [Hout ->]]; [by left|].
    right; left. eexists (tm_taskId tm), (tm_owner tm), _. done.
Qed.

End writes.

(** X2. Every upsert the page has ever issued names the pair as its
    conflict target and carries a note that is already trimmed: trimming it
    again changes nothing, and neither its first nor its last character is
    white space. *)
Theorem issued_notes_are_trimmed (w : World) (r : UpsertReq) :
  reachable w → r ∈ upsertLog w →
  u_onConflict r = "task_id,owner"
  ∧ trim (u_note r) = u_note r
  ∧ (∀ c, head (list_ascii_of_string (u_note r)) = Some c → is_ws c = false)
  ∧ (∀ c, last (list_ascii_of_string (u_note r)) = Some c → is_ws c = false).
Proof.
  intros Hreach. revert r. revert w Hreach.
  apply (reachable_ind (fun w => ∀ r, r ∈ upsertLog w →
    u_onConflict r = "task_id,owner"
    ∧ trim (u_note r) = u_note r
    ∧ (∀ c, head (list_ascii_of_string (u_note r)) = Some c → is_ws c = false)
    ∧ (∀ c, last (list_ascii_of_string (u_note r)) = Some c → is_ws c = false))).
  - by intros r ?%elem_of_nil.
  - intros e w IH r.
    destruct (step_upserts e w)
      as [(_ & -> & _) | [(t & o & raw & _ & _ & -> & _) | (i & r0 & _ & _ & -> & _)]];
      [apply IH | | apply IH].
    intros [Hin | ->%list_elem_of_singleton]%elem_of_app; [by apply IH|].
    split; [done|]. split; [apply trim_idemp|].
    cbn [u_note noteUpsert]. unfold trim.
    rewrite list_ascii_of_string_of_list_ascii.
    split; intros c; apply trimList_ends.
Qed.

Lemma issued_notes_are_trimmed_witness :
  let w := run [EvEdit "t1" OWNER_B "  En route  "; EvFlushEffects; EvTick 1500; EvTimer 1]
               week3 in
  upsertLog w = [noteUpsert "t1" OWNER_B "En route"]
  ∧ trim "En route" = "En route".
Proof.
  intros w.
  assert (Hlog : upsertLog w = [noteUpsert "t1" OWNER_B "En route"]) by (by vm_compute).
  split; [exact Hlog|].
  assert (Hreach : reachable w) by (apply reachable_run; eexists; reflexivity).
  apply (issued_notes_are_trimmed w (noteUpsert "t1" OWNER_B "En route") Hreach).
  rewrite Hlog. left.
Defined.

(** ** The saving flag *)

Lemma elem_of_delete_other {A} (l : list A) (i : nat) (x y : A) :
  l !! i = Some x → y ∈ l → y ≠ x → y ∈ delete i l.
Proof.
  intros Hi Hy Hne.
  rewrite delete_take_drop. rewrite <- (take_drop_middle l i x Hi) in Hy.
  apply elem_of_app in Hy as [Hy | Hy]; [apply elem_of_app; by left|].
  apply elem_of_cons in Hy as [-> | Hy]; [done|].
  apply elem_of_app. by right.
Qed.

Lemma step_flag_inv (e : Event) (w : World) :
  (∀ k, k ∈ autosaveInFlightRef (dash w) ↔ savingKeys (dash w) !! k = Some true) →
  ∀ k, k ∈ autosaveInFlightRef (dash (step e w))
       ↔ savingKeys (dash (step e w)) !! k = Some true.
Proof.
  intros IH k. specialize (IH k).
  destruct (step_upserts e w)
    as [(_ & _ & -> & ->) | [(t & o & raw & _ & _ & _ & -> & ->)
                            | (i & r0 & _ & _ & _ & -> & ->)]]; [done| |].
  - rewrite elem_of_union, elem_of_singleton, lookup_insert.
    case_decide; intuition congruence.
  - rewrite elem_of_difference, elem_of_singleton, lookup_insert.
    case_decide; intuition congruence.
Qed.

Lemma step_awaited_inv (e : Event) (w : World) :
  inFlightInv w →
  (∀ k, k ∈ autosaveInFlightRef (dash w) ↔ ∃ r, r ∈ pendingUpserts w ∧ upsertKey r = k) →
  ∀ k, k ∈ autosaveInFlightRef (dash (step e w))
       ↔ ∃ r, r ∈ pendingUpserts (step e w) ∧ upsertKey r = k.
Proof.
  intros [Hnd _] IH k.
  destruct (step_upserts e w)
    as [(-> & _ & -> & _) | [(t & o & raw & _ & -> & _ & -> & _)
                            | (i & r0 & Hi & -> & _ & -> & _)]]; [apply IH| |].
  - rewrite elem_of_union, elem_of_singleton, (IH k). split.
    + intros [-> | (r & Hr & Hk)].
      * exists (noteUpsert t o (trim raw)). split; [|done].
        apply elem_of_app. right. left.
      * exists r. split; [|done]. apply elem_of_app. by left.
    + intros (r & [Hr | ->%list_elem_of_singleton]%elem_of_app & Hk).
      * right. by exists r.
      * left. by rewrite <- Hk.
  - rewrite elem_of_difference, elem_of_singleton, (IH k). split.
    + intros [(r & Hr & Hk) Hne]. exists r. split; [|done].
      apply (elem_of_delete_other _ i r0); [done | done |].
      intros ->. congruence.
    + intros (r & Hr & Hk). split.
      * exists r. split; [|done].
        eapply elem_of_sublist; [exact Hr | apply sublist_delete].
      * intros Heq.
        rewrite <- (take_drop_middle _ _ _ Hi) in Hnd.
        rewrite delete_take_drop in Hr.
        rewrite fmap_app, fmap_cons in Hnd.
        apply NoDup_app in Hnd as (_ & Hdisj & Hnd2).
        apply NoDup_cons in Hnd2 as [Hnot _].
        apply elem_of_app in Hr as [Hr | Hr].
        -- apply (Hdisj (upsertKey r)); [by apply list_elem_of_fmap_2|].
           rewrite Hk, Heq. left.
        -- apply Hnot. rewrite <- Heq, <- Hk. by apply list_elem_of_fmap_2.
Qed.

(** X3. In every reachable world, for every key: the in-flight mark is set
    exactly when the saving flag shown as "Saving…" is [true], and exactly
    when an upsert of that key is awaited. *)
Theorem saving_flag_tracks_in_flight (w : World) (k : string) :
  reachable w →
  (k ∈ autosaveInFlightRef (dash w) ↔ savingKeys (dash w) !! k = Some true)
  ∧ (k ∈ autosaveInFlightRef (dash w) ↔ ∃ r, r ∈ pendingUpserts w ∧ upsertKey r = k).
Proof.
  intros Hreach. revert k.
  assert (H : inFlightInv w
    ∧ (∀ k, k ∈ autosaveInFlightRef (dash w) ↔ savingKeys (dash w) !! k = Some true)
    ∧ (∀ k, k ∈ autosaveInFlightRef (dash w)
            ↔ ∃ r, r ∈ pendingUpserts w ∧ upsertKey r = k)).
  { revert w Hreach. apply reachable_ind.
    - split; [split; [constructor | by intros r ?%elem_of_nil]|].
      split; intros k; simpl; rewrite elem_of_empty.
      + by rewrite lookup_empty.
      + split; [done|]. by intros (r & ?%elem_of_nil & _).
    - intros e w (Hinv & Hflag & Hpend).
      split; [by apply step_inFlightInv|].
      split; [by apply step_flag_inv | by apply step_awaited_inv]. }
  destruct H as (_ & Hflag & Hpend). intros k. split; [apply Hflag | apply Hpend].
Qed.

Lemma saving_flag_tracks_in_flight_witness :
  let w := run [EvEdit "t1" OWNER_B "En route"; EvFlushEffects; EvClickSave "t1" OWNER_B]
               week3 in
  savingKeys (dash w) !! makeKey "t1" OWNER_B = Some true
  ∧ savingKeys (dash (step (EvUpsertDone 0 (Some "offline") "" "" "") w))
      !! makeKey "t1" OWNER_B ≠ Some true.
Proof.
  intros w.
  assert (Hreach : reachable w) by (apply reachable_run; eexists; reflexivity).
  split.
  - apply (saving_flag_tracks_in_flight w (makeKey "t1" OWNER_B) Hreach).
    apply (bool_decide_unpack _). by vm_compute.
  - intros Hflag.
    apply (saving_flag_tracks_in_flight _ (makeKey "t1" OWNER_B)
             (reachable_step _ _ Hreach)) in Hflag.
    revert Hflag. apply (bool_decide_unpack _). by vm_compute.
Defined.

(** ** The task list and the visible set *)

Lemma step_tasks (e : Event) (w : World) :
  (tasks (dash (step e w)) = tasks (dash w)
   ∧ taskIdSetRef (dash (step e w)) = taskIdSetRef (dash w))
  ∨ (∃ rows, tasks (dash (step e w)) = rows
       ∧ taskIdSetRef (dash (step e w)) = newSet (id <$> rows)).
Proof.
  destruct e; simpl.
  - left. case_bool_decide; [done|]. unfold startLoadTasks. simpl.
    destruct (bool_decide (wk = 0%Z)); done.
  - left. unfold startLoadTasks. destruct (selectedWeek (dash w)); [|done].
    destruct (noWeekSelected _); done.
  - destruct (pendingTaskLoads w !! i); [|by left].
    unfold loadTasks_resume, loadNotesForTasks.
    destruct resp as [msg|rows]; [by left|].
    right. exists rows. destruct (id <$> rows); done.
  - left. destruct (noWeekSelected _); [done|].
    unfold onNotesChange, loadNotesForTasks.
    destruct (payloadTaskId p) as [t|]; [|done].
    destruct (truthy t && bool_decide (t ∈ taskIdSetRef (dash w))); [|done].
    destruct (taskIdSetRef (dash w)) eqn:E; simpl; rewrite ?E; done.
  - left. destruct (pendingNoteLoads w !! i); [|done].
    destruct resp; done.
  - left. destruct (taskVisible _ _); done.
  - left. destruct (taskVisible _ _); [|done].
    destruct (saveNote_shape (draftByTask (dash w)) taskId o None (dash w))
      as [[_ ->] | [_ ->]]; done.
  - left. destruct (pendingUpserts w !! i) as [r|]; [|done].
    destruct error; done.
  - by left.
  - by left.
  - left. unfold addTask. destruct (selectedWeek (dash w)); simpl; [|done].
    destruct (bool_decide _); [done|]. destruct (negb _); done.
  - left. destruct (pendingInserts w !! i); [|done]. destruct error; done.
  - left. destruct (flushEffects_shape w) as (r1 & t1 & n1 & e1 & ->). done.
  - by left.
  - left. destruct (fireTimer_timers h w) as (_ & _ & _ & _ & _ & _ & _ & _ & Ht).
    split; [exact Ht|].
    destruct (fireTimer_shape h w) as [-> | (tm & _ & _ & ->)]; [done|].
    destruct (timerCallback_shape tm (dash w)) as [-> | ->]; [done|].
    destruct (saveNote_shape (tm_draftByTask tm) (tm_taskId tm) (tm_owner tm)
                (Some (draftOf (tm_draftByTask tm) (tm_taskId tm) (tm_owner tm)))
                (dash w)) as [[_ ->] | [_ ->]]; done.
Qed.

Lemma newSet_acc (xs acc : list string) :
  let f := fun (acc : list string) x =>
             if bool_decide (x ∈ acc) then acc else acc ++ [x] in
  (∀ x, x ∈ foldl f acc xs ↔ x ∈ acc ∨ x ∈ xs)
  ∧ (NoDup acc → NoDup (foldl f acc xs)).
Proof.
  intros f. revert acc. induction xs as [|y xs IH]; intros acc; cbn [foldl].
  - split; [|done]. intros x. rewrite elem_of_nil. tauto.
  - destruct (IH (f acc y)) as [IH1 IH2]. split.
    + intros x. rewrite IH1, elem_of_cons. unfold f. case_bool_decide as Hy.
      * split; [tauto|]. intros [?|[->|?]]; tauto.
      * rewrite elem_of_app, list_elem_of_singleton. tauto.
    + intros Hnd. apply IH2. unfold f. case_bool_decide as Hy; [done|].
      apply NoDup_app. split; [done|]. split; [|apply NoDup_singleton].
      intros x Hx ->%list_elem_of_singleton. done.
Qed.

Lemma elem_of_newSet (xs : list string) (x : string) : x ∈ newSet xs ↔ x ∈ xs.
Proof.
  unfold newSet. rewrite (proj1 (newSet_acc xs [])). rewrite elem_of_nil. tauto.
Qed.

Lemma NoDup_newSet (xs : list string) : NoDup (newSet xs).
Proof. unfold newSet. apply (proj2 (newSet_acc xs [])). apply NoDup_nil_2. Qed.

(** X4. In every reachable world the set used to filter pushed note
    changes holds exactly the ids of the tasks in the task list, each
    once, in the order of the list: a task is in [taskIdSetRef] if and
    only if its editors are on the page. *)
Theorem visible_set_matches_tasks (w : World) (t : string) :
  reachable w →
  taskIdSetRef (dash w) = newSet (id <$> tasks (dash w))
  ∧ (t ∈ taskIdSetRef (dash w) ↔ taskVisible t (dash w) = true)
  ∧ NoDup (taskIdSetRef (dash w)).
Proof.
  intros Hreach.
  assert (H : taskIdSetRef (dash w) = newSet (id <$> tasks (dash w))).
  { revert w Hreach. apply reachable_ind; [done|].
    intros e w IH.
    destruct (step_tasks e w) as [[-> ->] | (rows & -> & ->)]; done. }
  split; [exact H|].
  rewrite H. split; [|apply NoDup_newSet].
  unfold taskVisible. rewrite bool_decide_eq_true.
  apply elem_of_newSet.
Qed.

Lemma visible_set_matches_tasks_witness :
  "t1" ∈ taskIdSetRef (dash week3) ∧ taskVisible "t1" (dash week3) = true.
Proof.
  assert (Hreach : reachable week3) by (eexists; reflexivity).
  destruct (visible_set_matches_tasks week3 "t1" Hreach) as (_ & Hiff & _).
  assert (Hvis : taskVisible "t1" (dash week3) = true) by (by vm_compute).
  split; [by apply Hiff | exact Hvis].
Defined.

(** ** Drafts *)

(** X8. Typing in one editor sets the draft of that pair and leaves the
    draft of every other pair, the note cache and the task list as they
    were. *)
Theorem editDraft_touches_one_pair (t t' : string) (o o' : Owner) (v : string) (s : Dash) :
  draftOf (draftByTask (editDraft t o v s)) t o = v
  ∧ ((t', o') ≠ (t, o) →
       draftByTask (editDraft t o v s) !! t' ≫= (fun m => m !! o')
       = draftByTask s !! t' ≫= (fun m => m !! o'))
  ∧ notesByTask (editDraft t o v s) = notesByTask s
  ∧ tasks (editDraft t o v s) = tasks s.
Proof.
  split; [|split; [|done]].
  - unfold draftOf. simpl. rewrite lookup_insert_eq. simpl. by rewrite lookup_insert_eq.
  - intros Hne. simpl.
    destruct (decide (t = t')) as [<-|Ht].
    + rewrite lookup_insert_eq. simpl.
      rewrite lookup_insert_ne by congruence.
      destruct (draftByTask s !! t); simpl; [done | by rewrite lookup_empty].
    + by rewrite lookup_insert_ne.
Qed.

Lemma editDraft_touches_one_pair_witness :
  let s := editDraft "t1" OWNER_A "left at depot" (dash week3) in
  draftOf (draftByTask (editDraft "t1" OWNER_B "En route" s)) "t1" OWNER_A = "left at depot".
Proof.
  intros s.
  destruct (editDraft_touches_one_pair "t1" "t1" OWNER_B OWNER_A "En route" s)
    as (_ & Hother & _).
  unfold draftOf. rewrite Hother by discriminate. by vm_compute.
Defined.

(** ** Rehydration and pending saves *)

Lemma advance_no_timers (w : World) (dt : N) :
  timers w = ∅ → advance dt w = wClock (clock w + dt) w.
Proof.
  intros Hnone. unfold advance, runDue. apply runTimers_early.
  intros h tm. simpl. by rewrite Hnone, lookup_empty.
Qed.

Lemma armedNow_all_clean (w : World) :
  armedNow w → (∀ t o, ¬ dirty (dash w) t o) → timers w = ∅.
Proof.
  intros [Harmed _] Hclean. apply map_eq. intros h. rewrite lookup_empty.
  destruct (timers w !! h) as [tm|] eqn:E; [|done].
  destruct (Harmed h tm E) as (_ & _ & Hd). by apply Hclean in Hd.
Qed.

(** X5. When a fetch of notes answers, every draft, typed and not yet
    saved ones included, is replaced by the stored note of its pair (the
    fetched row, or empty): no pair is dirty, and once the effect has been
    flushed no autosave timer is left, so however long one waits nothing
    is written for the discarded edits. *)
Theorem rehydration_discards_unsent_edits (w : World) (i : nat) (ids : list string)
    (rows : list TaskNoteRow) :
  reachable w →
  pendingNoteLoads w !! i = Some ids →
  let w' := flushEffects (step (EvNotesLoaded i (inr rows)) w) in
  (∀ t o, ¬ dirty (dash w') t o)
  ∧ (∀ t o, t ∈ ids →
       draftOf (draftByTask (dash w')) t o = ne_note (expectedEntry t o rows))
  ∧ timers w' = ∅
  ∧ (∀ dt, upsertLog (advance dt w') = upsertLog w).
Proof.
  intros Hreach Hi w'.
  set (w1 := step (EvNotesLoaded i (inr rows)) w) in *.
  assert (Hdash : dash w1 = loadNotesForTasks_resume ids (inr rows) (dash w))
    by (unfold w1; cbn [step]; by rewrite Hi).
  assert (Hlog : upsertLog w1 = upsertLog w)
    by (unfold w1; cbn [step]; by rewrite Hi).
  assert (Hed : effectDeps w1 = effectDeps w)
    by (unfold w1; cbn [step]; by rewrite Hi).
  assert (Hinv1 : timersInv w1) by (apply reachable_timersInv; by apply reachable_step).
  assert (Hdeps : effectDeps w1 ≠ Some (depsVersion (dash w1))).
  { pose proof (reachable_timersInv w Hreach) as (_ & _ & _ & H4 & _).
    rewrite Hed, Hdash. cbn. intros Hv. specialize (H4 _ Hv). lia. }
  destruct (flushEffects_runs w1 Hinv1 Hdeps) as (Harm & _).
  destruct (flushEffects_shape w1) as (r1 & t1 & n1 & e1 & Hsh).
  fold w' in Harm.
  assert (Hdw : dash w' = setAutosaveTimers r1 (dash w1))
    by (unfold w'; by rewrite Hsh).
  assert (Hd' : draftByTask (dash w') = (hydrate ids rows).2)
    by (rewrite Hdw; cbn [draftByTask setAutosaveTimers]; by rewrite Hdash).
  assert (Hn' : notesByTask (dash w') = (hydrate ids rows).1)
    by (rewrite Hdw; cbn [notesByTask setAutosaveTimers]; by rewrite Hdash).
  assert (Hmirror : ∀ t o, draftByTask (dash w') !! t ≫= (fun m => m !! o)
            = ne_note <$> (notesByTask (dash w') !! t ≫= (fun m => m !! o))).
  { intros t o. rewrite Hd', Hn', hydrate_mirror, lookup_fmap.
    destruct ((hydrate ids rows).1 !! t) as [inner|]; simpl; [|done].
    by rewrite lookup_fmap. }
  assert (Hclean : ∀ t o, ¬ dirty (dash w') t o).
  { intros t o Hd. apply Hd. unfold draftOf, savedOf. by rewrite Hmirror. }
  assert (Hnone : timers w' = ∅) by (by apply armedNow_all_clean).
  split; [exact Hclean|]. split.
  { intros t o Hin. unfold draftOf. rewrite Hmirror, Hn'.
    by rewrite (hydrate_entry ids rows t o Hin). }
  split; [exact Hnone|].
  intros dt. rewrite (advance_no_timers w' dt Hnone).
  rewrite <- Hlog. unfold w'. by rewrite Hsh.
Qed.

Lemma rehydration_discards_unsent_edits_witness :
  let w := run [EvEdit "t1" OWNER_B "En route"; EvFlushEffects;
                EvNotesPush (mkPayload (Some "t1") None)] week3 in
  let w' := flushEffects (step (EvNotesLoaded 0 (inr [])) w) in
  draftOf (draftByTask (dash w)) "t1" OWNER_B = "En route"
  ∧ draftOf (draftByTask (dash w')) "t1" OWNER_B = ""
  ∧ upsertLog (advance 60000 w') = [].
Proof.
  intros w w'.
  assert (Hreach : reachable w) by (apply reachable_run; eexists; reflexivity).
  assert (Hi : pendingNoteLoads w !! 0 = Some ["t1"]) by (by vm_compute).
  destruct (rehydration_discards_unsent_edits w 0 ["t1"] [] Hreach Hi)
    as (_ & Hdraft & _ & Hlog).
  split; [by vm_compute|]. split.
  - unfold w'. rewrite (Hdraft "t1" OWNER_B); [done|]. left.
  - unfold w'. rewrite (Hlog 60000%N). by vm_compute.
Defined.

(** X6. A failed fetch of tasks or of notes changes nothing but the error
    banner: task list, visible set, both caches, timers and awaited saves
    stay, a failed task fetch starts no fetch of notes, and an autosave
    effect that was up to date has nothing to redo, so armed timers keep
    their deadlines. *)
Theorem failed_load_changes_only_banner (w : World) (i : nat) (msg : string)
    (e : Event) :
  e = EvNotesLoaded i (inl msg) ∨ e = EvTasksLoaded i (inl msg) →
  tasks (dash (step e w)) = tasks (dash w)
  ∧ taskIdSetRef (dash (step e w)) = taskIdSetRef (dash w)
  ∧ notesByTask (dash (step e w)) = notesByTask (dash w)
  ∧ draftByTask (dash (step e w)) = draftByTask (dash w)
  ∧ timers (step e w) = timers w
  ∧ pendingUpserts (step e w) = pendingUpserts w
  ∧ (e = EvTasksLoaded i (inl msg) → pendingNoteLoads (step e w) = pendingNoteLoads w)
  ∧ (e = EvNotesLoaded i (inl msg) → is_Some (pendingNoteLoads w !! i) →
       errorMsg (dash (step e w)) = "Failed to load task notes: " +:+ msg)
  ∧ (e = EvTasksLoaded i (inl msg) → is_Some (pendingTaskLoads w !! i) →
       errorMsg (dash (step e w)) = "Failed to load tasks: " +:+ msg)
  ∧ (effectDeps w = Some (depsVersion (dash w)) →
       flushEffects (step e w) = step e w).
Proof.
  intros [-> | ->]; cbn [step].
  - destruct (pendingNoteLoads w !! i) as [ids|] eqn:E; simpl;
      split_and!; try done;
      try (by intros _ [? ?]);
      intros Hd; by apply flushEffects_idle.
  - destruct (pendingTaskLoads w !! i) as [wk|] eqn:E; simpl;
      split_and!; try done;
      try (by intros _ [? ?]);
      intros Hd; by apply flushEffects_idle.
Qed.

Lemma failed_load_changes_only_banner_witness :
  let w := run [EvEdit "t1" OWNER_B "En route"; EvFlushEffects; EvTasksPush] week3 in
  let w' := step (EvTasksLoaded 0 (inl "timeout")) w in
  errorMsg (dash w') = "Failed to load tasks: timeout"
  ∧ timers w' = timers w
  ∧ pendingNoteLoads w' = pendingNoteLoads w.
Proof.
  intros w w'.
  destruct (failed_load_changes_only_banner w 0 "timeout" (EvTasksLoaded 0 (inl "timeout")))
    as (_ & _ & _ & _ & Ht & _ & Hnl & _ & Herr & _); [by right|].
  split; [apply Herr; [done | eexists; by vm_compute]|].
  split; [exact Ht | by apply Hnl].
Defined.

(** X7. The cleanup of the autosave effect, which also runs when the page
    is unmounted, cancels every armed timer: afterwards no passing of time
    issues an upsert, so drafts not yet written stay unwritten. *)
Theorem cleanup_cancels_every_timer (w : World) :
  reachable w →
  timers (effectCleanup w) = ∅
  ∧ draftByTask (dash (effectCleanup w)) = draftByTask (dash w)
  ∧ (∀ dt, upsertLog (advance dt (effectCleanup w)) = upsertLog w).
Proof.
  intros Hreach.
  pose proof (effectCleanup_clears w (reachable_timersInv w Hreach)) as Hnone.
  split; [exact Hnone|].
  rewrite effectCleanup_eq in Hnone |- *. split; [done|].
  intros dt. by rewrite (advance_no_timers _ dt Hnone).
Qed.

Lemma cleanup_cancels_every_timer_witness :
  let w := run [EvEdit "t1" OWNER_B "En route"; EvFlushEffects] week3 in
  size (timers w) = 1
  ∧ upsertLog (advance 1500 w) = [noteUpsert "t1" OWNER_B "En route"]
  ∧ upsertLog (advance 1500 (effectCleanup w)) = [].
Proof.
  intros w.
  assert (Hreach : reachable w) by (apply reachable_run; eexists; reflexivity).
  destruct (cleanup_cancels_every_timer w Hreach) as (_ & _ & Hlog).
  split; [by vm_compute|]. split; [by vm_compute|].
  rewrite (Hlog 1500%N). by vm_compute.
Defined.

(** X9. In every reachable world a pair has at most one armed autosave
    timer, and the handle of an armed timer is older than the next handle
    the browser will hand out. *)
Theorem one_timer_per_pair (w : World) (h1 h2 : positive) (tm1 tm2 : Timer) :
  reachable w →
  timers w !! h1 = Some tm1 → timers w !! h2 = Some tm2 →
  tm_taskId tm1 = tm_taskId tm2 → tm_owner tm1 = tm_owner tm2 →
  h1 = h2 ∧ tm1 = tm2 ∧ (h1 < nextHandle w)%positive.
Proof.
  intros Hreach Hh1 Hh2 Ht Ho.
  destruct (reachable_timersInv w Hreach) as (H1 & H2 & _).
  pose proof (H1 _ _ Hh1) as Hk1. pose proof (H1 _ _ Hh2) as Hk2.
  unfold timerKey in *. rewrite Ht, Ho in Hk1.
  assert (h1 = h2) as -> by congruence.
  split; [done|]. split; [congruence|]. by apply (H2 _ _ Hk2).
Qed.

Lemma one_timer_per_pair_witness :
  let w := run [EvEdit "t1" OWNER_B "En"; EvFlushEffects; EvTick 200;
                EvEdit "t1" OWNER_B "En route"; EvFlushEffects] week3 in
  size (timers w) = 1 ∧ (2 < nextHandle w)%positive.
Proof.
  intros w.
  assert (Hreach : reachable w) by (apply reachable_run; eexists; reflexivity).
  assert (Hsome : ∃ tm, timers w !! 2%positive = Some tm).
  { eexists. by vm_compute. }
  destruct Hsome as (tm & Htm).
  split; [by vm_compute|].
  by destruct (one_timer_per_pair w 2 2 tm tm Hreach Htm Htm eq_refl eq_refl) as (_ & _ & ?).
Defined.

(** ** After a save has succeeded *)

(** The state once an awaited upsert has succeeded and the effect has been
    flushed. *)
Lemma success_then_flush (w : World) (i : nat) (r : UpsertReq)
    (nowIso stamp newId : string) :
  reachable w →
  pendingUpserts w !! i = Some r →
  let w' := flushEffects (step (EvUpsertDone i None nowIso stamp newId) w) in
  armedNow w' ∧ timersInv w'
  ∧ savedOf (notesByTask (dash w')) (u_task_id r) (u_owner r) = u_note r
  ∧ draftByTask (dash w') = draftByTask (dash w)
  ∧ tasks (dash w') = tasks (dash w)
  ∧ upsertLog w' = upsertLog w
  ∧ (makeKey (u_task_id r) (u_owner r) ∉ autosaveInFlightRef (dash w')).
Proof.
  intros Hreach Hi w'.
  set (w1 := step (EvUpsertDone i None nowIso stamp newId) w) in *.
  destruct (upsertDone_dash w i r None nowIso stamp newId Hi)
    as (Hdash & _ & _ & _ & Hlog).
  fold w1 in Hdash, Hlog.
  assert (Hinv1 : timersInv w1) by (apply reachable_timersInv; by apply reachable_step).
  assert (Hdeps : effectDeps w1 ≠ Some (depsVersion (dash w1))).
  { pose proof (reachable_timersInv w Hreach) as (_ & _ & _ & H4 & _).
    assert (effectDeps w1 = effectDeps w) as -> by (unfold w1; cbn [step]; by rewrite Hi).
    rewrite Hdash. cbn. intros Hed. specialize (H4 _ Hed). lia. }
  destruct (flushEffects_runs w1 Hinv1 Hdeps) as (Harm & Hinv' & _).
  destruct (flushEffects_shape w1) as (r1 & t1 & n1 & e1 & Hsh).
  assert (Hdw : dash w' = setAutosaveTimers r1 (dash w1))
    by (unfold w'; by rewrite Hsh).
  split; [exact Harm|]. split; [exact Hinv'|].
  rewrite Hdw. cbn [notesByTask draftByTask tasks autosaveInFlightRef setAutosaveTimers].
  rewrite Hdash.
  split.
  { unfold savedOf. cbn. by rewrite entry_after_save, decide_True. }
  split; [done|]. split; [done|].
  split; [rewrite <- Hlog; unfold w'; by rewrite Hsh|].
  cbn. rewrite elem_of_difference, elem_of_singleton. by intros [_ ?].
Qed.

(** X10. When a save succeeds while the draft of its pair is no longer the
    text that was written (it was edited while the save was in flight),
    the pair is dirty again, and the effect run that follows arms a timer
    that, once the delay has passed, writes the trimmed current draft:
    edits made during a save are not lost. *)
Theorem edit_during_save_is_saved_after (w : World) (i : nat) (r : UpsertReq)
    (nowIso stamp newId : string) (dt : N) :
  reachable w →
  pendingUpserts w !! i = Some r →
  let t := u_task_id r in
  let o := u_owner r in
  taskVisible t (dash w) = true →
  draftOf (draftByTask (dash w)) t o ≠ u_note r →
  (delayMs ≤ dt)%N →
  let w' := flushEffects (step (EvUpsertDone i None nowIso stamp newId) w) in
  dirty (dash w') t o
  ∧ upsertsFor t o (upsertLog (advance dt w'))
    = upsertsFor t o (upsertLog w)
      ++ [noteUpsert t o (trim (draftOf (draftByTask (dash w)) t o))].
Proof.
  intros Hreach Hi t o Hvis Hne Hdt w'.
  destruct (success_then_flush w i r nowIso stamp newId Hreach Hi)
    as (Harm & Hinv & Hsaved & Hdraft & Htasks & Hlog & Hout).
  fold w' t o in Harm, Hinv, Hsaved, Hdraft, Htasks, Hlog, Hout.
  assert (Hdirty : dirty (dash w') t o) by (unfold dirty; by rewrite Hsaved, Hdraft).
  split; [exact Hdirty|].
  rewrite <- Hlog, <- Hdraft. apply advance_fires_key; try done.
  unfold taskVisible in *. by rewrite Htasks.
Qed.

Lemma edit_during_save_is_saved_after_witness :
  let w := run [EvEdit "t1" OWNER_B "En"; EvFlushEffects; EvClickSave "t1" OWNER_B;
                EvEdit "t1" OWNER_B "En route"; EvFlushEffects; EvTick 1500; EvTimer 2]
               week3 in
  let w' := flushEffects (step (EvUpsertDone 0 None "2024-05-01T10:00:00Z" "s1" "n1") w) in
  upsertLog w = [noteUpsert "t1" OWNER_B "En"]
  ∧ upsertsFor "t1" OWNER_B (upsertLog (advance 1500 w'))
    = [noteUpsert "t1" OWNER_B "En"; noteUpsert "t1" OWNER_B "En route"].
Proof.
  intros w w'.
  assert (Hreach : reachable w) by (apply reachable_run; eexists; reflexivity).
  assert (Hi : pendingUpserts w !! 0 = Some (noteUpsert "t1" OWNER_B "En"))
    by (by vm_compute).
  split; [by vm_compute|].
  destruct (edit_during_save_is_saved_after w 0 _ "2024-05-01T10:00:00Z" "s1" "n1" 1500%N
              Hreach Hi) as [_ Hwrite];
    [by vm_compute | by vm_compute | by vm_compute |].
  cbn [u_task_id u_owner noteUpsert] in Hwrite.
  unfold w'. rewrite Hwrite. by vm_compute.
Defined.

(** X11. A draft with white space at either end never becomes clean by
    being saved: when the save of its trimmed text succeeds the pair is
    still dirty, and 1500 ms after the following effect run the same text
    is upserted once more. *)
Theorem padded_draft_is_saved_again (w : World) (i : nat) (r : UpsertReq)
    (nowIso stamp newId : string) (dt : N) :
  reachable w →
  pendingUpserts w !! i = Some r →
  let t := u_task_id r in
  let o := u_owner r in
  taskVisible t (dash w) = true →
  u_note r = trim (draftOf (draftByTask (dash w)) t o) →
  trim (draftOf (draftByTask (dash w)) t o) ≠ draftOf (draftByTask (dash w)) t o →
  (delayMs ≤ dt)%N →
  let w' := flushEffects (step (EvUpsertDone i None nowIso stamp newId) w) in
  dirty (dash w') t o
  ∧ upsertsFor t o (upsertLog (advance dt w')) = upsertsFor t o (upsertLog w) ++ [r].
Proof.
  intros Hreach Hi t o Hvis Hnote Hpad Hdt w'.
  destruct (success_then_flush w i r nowIso stamp newId Hreach Hi)
    as (Harm & Hinv & Hsaved & Hdraft & Htasks & Hlog & Hout).
  fold w' t o in Harm, Hinv, Hsaved, Hdraft, Htasks, Hlog, Hout.
  assert (Hdirty : dirty (dash w') t o).
  { unfold dirty. rewrite Hsaved, Hdraft, Hnote. by intros Heq. }
  split; [exact Hdirty|].
  assert (Hr : r = noteUpsert t o (trim (draftOf (draftByTask (dash w')) t o))).
  { rewrite Hdraft, <- Hnote. unfold noteUpsert, t, o.
    pose proof (reachable_keyed w Hreach r (list_elem_of_lookup_2 _ _ _ Hi)) as Hkey.
    destruct r as [rt ro rn rc]. simpl in *. by rewrite Hkey. }
  rewrite <- Hlog. rewrite (advance_fires_key t o w' dt); try done.
  - by rewrite <- Hr.
  - unfold taskVisible in *. by rewrite Htasks.
Qed.

Lemma padded_draft_is_saved_again_witness :
  let w := run [EvEdit "t1" OWNER_B "En route "; EvFlushEffects; EvTick 1500; EvTimer 1]
               week3 in
  let w' := flushEffects (step (EvUpsertDone 0 None "2024-05-01T10:00:00Z" "s1" "n1") w) in
  upsertsFor "t1" OWNER_B (upsertLog (advance 1500 w'))
  = [noteUpsert "t1" OWNER_B "En route"; noteUpsert "t1" OWNER_B "En route"].
Proof.
  intros w w'.
  assert (Hreach : reachable w) by (apply reachable_run; eexists; reflexivity).
  assert (Hi : pendingUpserts w !! 0 = Some (noteUpsert "t1" OWNER_B "En route"))
    by (by vm_compute).
  destruct (padded_draft_is_saved_again w 0 _ "2024-05-01T10:00:00Z" "s1" "n1" 1500%N
              Hreach Hi) as [_ Hwrite];
    [by vm_compute | by vm_compute | by vm_compute | by vm_compute |].
  cbn [u_task_id u_owner noteUpsert] in Hwrite.
  unfold w'. rewrite Hwrite. by vm_compute.
Defined.

(** * Further properties: session gate, weeks, status, channels, login *)

(** ** The session gate *)

Section gate.
Implicit Types (sh : Shell) (e : ShellEvent).

Lemma shellRun_snoc es e sh :
  shellRun (es ++ [e]) sh = shellStep e (shellRun es sh).
Proof. unfold shellRun. by rewrite foldl_app. Qed.

Lemma shellRun_app es1 es2 sh :
  shellRun (es1 ++ es2) sh = shellRun es2 (shellRun es1 sh).
Proof. unfold shellRun. by rewrite foldl_app. Qed.

Lemma foldr_delete_empty (hs : list positive) :
  foldr delete (∅ : gmap positive Timer) hs = ∅.
Proof. induction hs as [|h hs IH]; cbn [foldr]; [done|]. rewrite IH. apply delete_empty. Qed.

Lemma flushEffects_quiet (w : World) :
  tasks (dash w) = [] → timers w = ∅ →
  ∃ ed, flushEffects w = wEffectDeps ed w.
Proof.
  intros Ht Htm. unfold flushEffects. case_bool_decide as Hd.
  - exists (effectDeps w). by destruct w.
  - exists (Some (depsVersion (dash w))).
    assert (Hc : effectCleanup w = w).
    { rewrite effectCleanup_eq, Htm, foldr_delete_empty, <- Htm. by destruct w. }
    destruct (effectDeps w); rewrite ?Hc; unfold effectBody; by rewrite Ht.
Qed.

Lemma step_quiet (e0 : Event) (w : World) :
  needsAuth e0 = false →
  tasks (dash w) = [] → selectedWeek (dash w) = None →
  pendingTaskLoads w = [] → pendingNoteLoads w = [] →
  pendingInserts w = [] → pendingUpserts w = [] → timers w = ∅ →
  ∃ ed c, step e0 w = wClock c (wEffectDeps ed w).
Proof.
  intros Hn Ht Hs Hp1 Hp2 Hp3 Hp4 Htm.
  assert (Hid : ∃ ed c, w = wClock c (wEffectDeps ed w)).
  { exists (effectDeps w), (clock w). by destruct w. }
  destruct e0; try discriminate Hn; cbn [step].
  - by rewrite Hp1.
  - by rewrite Hp2.
  - by rewrite Hp4.
  - by rewrite Hp3.
  - destruct (flushEffects_quiet w Ht Htm) as (ed & ->).
    exists ed, (clock w). by destruct w.
  - exists (effectDeps w), (clock w + dt)%N. by destruct w.
  - unfold fireTimer. by rewrite Htm, lookup_empty.
Qed.

Lemma gateInv_init : gateInv initShell.
Proof. split; [done|]. intros _. by repeat split. Qed.

Lemma gateInv_checked sh :
  authChecked sh = true → sessionPending sh = false → gateInv sh.
Proof. intros H1 H2. split; [by rewrite H2|by rewrite H1]. Qed.

Lemma gateInv_pending sh :
  gateInv sh → authChecked sh = true → sessionPending sh = false.
Proof. intros [Hp _] Ha. destruct (sessionPending sh); [|done]. rewrite Hp in Ha; done. Qed.

Lemma loadWeeks_resume_auth rs resp sh :
  authChecked (loadWeeks_resume rs resp sh) = authChecked sh
  ∧ sessionPending (loadWeeks_resume rs resp sh) = sessionPending sh.
Proof.
  unfold loadWeeks_resume. destruct resp as [m|data]; [done|].
  cbn. destruct data as [|d ds]; [done|]. cbn [fmap list_fmap]. by case_match.
Qed.

Lemma tasksEffect_auth old sh :
  authChecked (tasksEffect old sh) = authChecked sh
  ∧ sessionPending (tasksEffect old sh) = sessionPending sh.
Proof. unfold tasksEffect. by case_match. Qed.

Lemma shellStep_authChecked e sh :
  authChecked sh = true → authChecked (shellStep e sh) = true.
Proof.
  intros Ha. destruct e as [session cancelled|session|i resp| |e0]; cbn [shellStep].
  - destruct (sessionPending sh); [|done].
    destruct session as [sess|]; cbn; [destruct cancelled; cbn|]; rewrite Ha; done.
  - by destruct session.
  - destruct (pendingWeekLoads sh !! i) as [rs|]; [|done].
    rewrite (proj1 (tasksEffect_auth _ _)), (proj1 (loadWeeks_resume_auth _ _ _)). done.
  - by rewrite Ha.
  - by case_match.
Qed.

Lemma shellStep_gateInv e sh : gateInv sh → gateInv (shellStep e sh).
Proof.
  intros Hinv. destruct (authChecked sh) eqn:Ea.
  - pose proof (gateInv_pending sh Hinv Ea) as Hsp.
    apply gateInv_checked; [by apply shellStep_authChecked|].
    destruct e as [session cancelled|session|i resp| |e0]; cbn [shellStep].
    + by rewrite Hsp.
    + by destruct session.
    + destruct (pendingWeekLoads sh !! i) as [rs|]; [|done].
      rewrite (proj2 (tasksEffect_auth _ _)), (proj2 (loadWeeks_resume_auth _ _ _)). done.
    + by rewrite Ea.
    + by case_match.
  - destruct Hinv as [Hp Hq]. specialize (Hq Ea).
    assert (Hsame : gateInv sh) by (by split).
    destruct e as [session cancelled|session|i resp| |e0]; cbn [shellStep].
    + destruct (sessionPending sh) eqn:Ep; [|done].
      destruct session as [sess|]; cbn [requireAuth_resume].
      * destruct cancelled; cbn; rewrite ?Ea; cbn; [|by apply gateInv_checked].
        split; [done|]. intros _. exact Hq.
      * cbn. rewrite Ea. cbn. split; [done|]. intros _. exact Hq.
    + destruct session; cbn [onAuthStateChange]; [done|].
      split; [exact Hp|]. intros _. exact Hq.
    + destruct Hq as (Hw & _). by rewrite Hw, lookup_nil.
    + by rewrite Ea.
    + rewrite Ea, andb_true_r. destruct (needsAuth e0) eqn:En; [done|].
      destruct Hq as (H1 & H2 & H3 & H4 & H5 & H6 & H7 & H8 & H9 & H10).
      destruct (step_quiet e0 (world sh) En H3 H4 H5 H6 H7 H8 H10) as (ed & c & Hst).
      split; [exact Hp|]. intros _. cbn. rewrite Hst.
      by repeat split.
Qed.

Lemma shellRun_gateInv es : gateInv (shellRun es initShell).
Proof.
  induction es as [|e es IH] using rev_ind; [apply gateInv_init|].
  rewrite shellRun_snoc. by apply shellStep_gateInv.
Qed.

Lemma loadWeeks_resume_frame rs resp sh :
  userEmail (loadWeeks_resume rs resp sh) = userEmail sh
  ∧ location (loadWeeks_resume rs resp sh) = location sh.
Proof.
  unfold loadWeeks_resume. destruct resp as [m|data]; [done|].
  cbn. destruct data as [|d ds]; [done|]. cbn [fmap list_fmap]. by case_match.
Qed.

Lemma tasksEffect_frame old sh :
  userEmail (tasksEffect old sh) = userEmail sh
  ∧ location (tasksEffect old sh) = location sh.
Proof. unfold tasksEffect. by case_match. Qed.

Lemma shellStep_settled e sh :
  sessionPending sh = false →
  sessionPending (shellStep e sh) = false
  ∧ authChecked (shellStep e sh) = authChecked sh
  ∧ userEmail (shellStep e sh) = userEmail sh.
Proof.
  intros Hsp. destruct e as [session cancelled|session|i resp| |e0]; cbn [shellStep].
  - by rewrite Hsp.
  - by destruct session.
  - destruct (pendingWeekLoads sh !! i) as [rs|]; [|done].
    rewrite (proj2 (tasksEffect_auth _ _)), (proj2 (loadWeeks_resume_auth _ _ _)).
    rewrite (proj1 (tasksEffect_auth _ _)), (proj1 (loadWeeks_resume_auth _ _ _)).
    rewrite (proj1 (tasksEffect_frame _ _)), (proj1 (loadWeeks_resume_frame _ _ _)).
    done.
  - by case_match.
  - by case_match.
Qed.

Lemma shellStep_location e sh :
  location sh = Some "/login" → location (shellStep e sh) = Some "/login".
Proof.
  intros Hl. destruct e as [session cancelled|session|i resp| |e0]; cbn [shellStep].
  - destruct (sessionPending sh); [|done].
    destruct session as [sess|]; cbn [requireAuth_resume]; [|by case_match].
    destruct cancelled; by case_match.
  - by destruct session.
  - destruct (pendingWeekLoads sh !! i) as [rs|]; [|done].
    by rewrite (proj2 (tasksEffect_frame _ _)), (proj2 (loadWeeks_resume_frame _ _ _)).
  - by case_match.
  - by case_match.
Qed.

(** The only event that shows the dashboard: the session check answering
    with a session while the page is mounted. *)
Lemma shellStep_opens e sh :
  authChecked sh = false → authChecked (shellStep e sh) = true →
  ∃ sess, e = SvSession (Some sess) false
          ∧ userEmail (shellStep e sh) = default "" (s_email sess).
Proof.
  intros Ha Ha'. destruct (sessionPending sh) eqn:Hsp.
  - destruct e as [session cancelled|session|i resp| |e0]; cbn [shellStep] in *.
    + rewrite Hsp in *. destruct session as [sess|]; cbn [requireAuth_resume] in *.
      * destruct cancelled; cbn in Ha' |- *; rewrite Ha in *; cbn in Ha' |- *; [congruence|].
        by exists sess.
      * cbn in Ha'. rewrite Ha in Ha'. cbn in Ha'. congruence.
    + destruct session; cbn in Ha'; congruence.
    + destruct (pendingWeekLoads sh !! i) as [rs|]; [|congruence].
      rewrite (proj1 (tasksEffect_auth _ _)), (proj1 (loadWeeks_resume_auth _ _ _)) in Ha'.
      cbn in Ha'. congruence.
    + rewrite Ha in Ha'. congruence.
    + destruct (needsAuth e0 && negb (authChecked sh)); cbn in Ha'; congruence.
  - destruct (shellStep_settled e sh Hsp) as (_ & H & _). congruence.
Qed.

End gate.

(** X12. While the session check has not confirmed a session, the page has
    asked nothing of the gateway and shows nothing: no fetch of weeks,
    tasks or notes, no insert, no upsert, no timer, no week selected,
    whatever the visitor and the browser do in the meantime. *)
Theorem nothing_requested_before_session_check (es : list ShellEvent) :
  authChecked (shellRun es initShell) = false → quiet (shellRun es initShell).
Proof. intros Ha. by apply (shellRun_gateInv es). Qed.

Lemma nothing_requested_before_session_check_witness :
  quiet (shellRun [SvInner (EvSelectWeek 3); SvInner EvAddTask;
                   SvInner (EvEdit "t1" OWNER_A "hello"); SvInner EvFlushEffects;
                   SvSession (Some (mkSession (Some "a@b.c"))) true;
                   SvWeeksLoaded 0 (inr []); SvInner (EvTick 2000)] initShell).
Proof. apply nothing_requested_before_session_check. reflexivity. Defined.

(** X13. The dashboard is shown only after [getSession] has answered with
    a session while the page was still mounted, and the email it shows is
    the one of that session (the empty string when it has none). *)
Theorem dashboard_shown_only_with_session (es : list ShellEvent) :
  authChecked (shellRun es initShell) = true →
  ∃ es1 sess es2,
    es = es1 ++ SvSession (Some sess) false :: es2
    ∧ authChecked (shellRun es1 initShell) = false
    ∧ userEmail (shellRun es initShell) = default "" (s_email sess).
Proof.
  induction es as [|e es IH] using rev_ind; [done|].
  rewrite shellRun_snoc. intros Ha.
  destruct (authChecked (shellRun es initShell)) eqn:Eb.
  - destruct (IH eq_refl) as (es1 & sess & es2 & -> & Hb & Hu).
    exists es1, sess, (es2 ++ [e]). split; [by rewrite <- app_assoc|]. split; [done|].
    rewrite <- Hu.
    apply shellStep_settled.
    by apply gateInv_pending; [apply shellRun_gateInv|].
  - destruct (shellStep_opens e _ Eb Ha) as (sess & -> & Hu).
    exists es, sess, []. done.
Qed.

Lemma dashboard_shown_only_with_session_witness :
  ∃ es1 sess es2,
    [SvInner (EvSelectWeek 3); SvSession (Some (mkSession None)) false;
     SvWeeksLoaded 0 (inr [])]
    = es1 ++ SvSession (Some sess) false :: es2
    ∧ authChecked (shellRun es1 initShell) = false
    ∧ userEmail (shellRun [SvInner (EvSelectWeek 3); SvSession (Some (mkSession None)) false;
                           SvWeeksLoaded 0 (inr [])] initShell)
      = default "" (s_email sess).
Proof. apply dashboard_shown_only_with_session. reflexivity. Defined.

(** X14. When the session check answers without a session, the browser is
    sent to ["/login"] and the dashboard is never shown afterwards nor
    anything requested, also when a later event carries a session. *)
Theorem visitor_without_session_is_sent_to_login
    (es1 es2 : list ShellEvent) (cancelled : bool) :
  sessionPending (shellRun es1 initShell) = true →
  let sh := shellRun (es1 ++ SvSession None cancelled :: es2) initShell in
  authChecked sh = false ∧ location sh = Some "/login" ∧ quiet sh.
Proof.
  intros Hsp sh.
  assert (Hgoal : sessionPending sh = false ∧ authChecked sh = false
                  ∧ location sh = Some "/login").
  { unfold sh. clear sh. induction es2 as [|e es2 IH] using rev_ind.
    - rewrite shellRun_snoc. cbn [shellStep]. rewrite Hsp.
      pose proof (shellRun_gateInv es1) as [Hp _]. specialize (Hp Hsp).
      cbn. rewrite Hp. by cbn.
    - rewrite app_comm_cons, app_assoc, shellRun_snoc.
      destruct IH as (H1 & H2 & H3).
      destruct (shellStep_settled e _ H1) as (H4 & H5 & _).
      split; [done|]. split; [congruence|]. by apply shellStep_location. }
  destruct Hgoal as (_ & Ha & Hl). split; [done|]. split; [done|].
  by apply (shellRun_gateInv _).
Qed.

Lemma visitor_without_session_is_sent_to_login_witness :
  let sh := shellRun ([SvInner EvFlushEffects] ++ SvSession None false
                        :: [SvInner (EvSelectWeek 3); SvSession (Some (mkSession None)) false])
                     initShell in
  authChecked sh = false ∧ location sh = Some "/login" ∧ quiet sh.
Proof. apply visitor_without_session_is_sent_to_login. reflexivity. Defined.


(** ** Loading the weeks *)

Lemma safeWeek_numbers (data : list RawWeek) :
  w_week_number <$> (safeWeek <$> data) = rw_week_number <$> data.
Proof. rewrite <- list_fmap_compose. by apply list_fmap_ext. Qed.

Lemma some_selected (rs : option Z) (data : list RawWeek) :
  existsb (fun x => bool_decide (Some (w_week_number x) = rs)) (safeWeek <$> data)
  = bool_decide (rs ∈ Some <$> (rw_week_number <$> data)).
Proof.
  induction data as [|d ds IH]; [done|].
  cbn [fmap list_fmap existsb]. fold (fmap (M:=list) safeWeek ds).
  fold (fmap (M:=list) rw_week_number ds).
  fold (fmap (M:=list) (@Some Z) (rw_week_number <$> ds)).
  rewrite IH. cbn [safeWeek w_week_number].
  apply eq_true_iff_eq. rewrite orb_true_iff, !bool_decide_eq_true, elem_of_cons.
  intuition congruence.
Qed.

Lemma loadWeeks_resume_ok (rs : option Z) (data : list RawWeek) (sh : Shell) :
  loadWeeks_resume rs (inr data) sh
  = let sh1 := setWeeks (safeWeek <$> data) (setLoadingWeeks false sh) in
    if bool_decide (rs ∈ Some <$> (rw_week_number <$> data)) then sh1
    else match head (rw_week_number <$> data) with
         | Some n => onDash (setSelectedWeek (Some n)) sh1
         | None => sh1
         end.
Proof.
  unfold loadWeeks_resume. cbv zeta. rewrite some_selected.
  destruct data as [|d ds]; [by case_bool_decide|]. reflexivity.
Qed.

(** X15. After [loadWeeks] has succeeded, the loaded weeks carry the week
    numbers of the fetched rows in their order and the task list is as it
    was.  The selection is compared as the closure of the call holds it:
    when that value is among the loaded week numbers the selection is not
    touched, otherwise it becomes the first loaded week (and stays when
    nothing was loaded).  A call started with no week selected, as every
    call of the page is, therefore selects the first loaded week, also
    over a week selected in the meantime that is itself loaded. *)
Theorem loadWeeks_selects_a_loaded_week (sh : Shell) (rs : option Z)
    (data : list RawWeek) :
  let sh' := loadWeeks_resume rs (inr data) sh in
  let nums := rw_week_number <$> data in
  let sel := selectedWeek (dash (world sh)) in
  w_week_number <$> weeks sh' = nums
  ∧ selectedWeek (dash (world sh'))
    = (if bool_decide (rs ∈ Some <$> nums) then sel else from_option Some sel (head nums))
  ∧ (rs = None → selectedWeek (dash (world sh')) = from_option Some sel (head nums))
  ∧ (data ≠ [] → rs = None ∨ rs = sel →
       ∃ n, selectedWeek (dash (world sh')) = Some n ∧ n ∈ nums)
  ∧ tasks (dash (world sh')) = tasks (dash (world sh))
  ∧ loadingWeeks sh' = false.
Proof.
  intros sh' nums sel.
  assert (Hsel : selectedWeek (dash (world sh'))
    = (if bool_decide (rs ∈ Some <$> nums) then sel else from_option Some sel (head nums))).
  { unfold sh'. rewrite loadWeeks_resume_ok. cbv zeta. fold nums.
    destruct (bool_decide (rs ∈ Some <$> nums)); [done|].
    by destruct (head nums). }
  assert (Hnone : rs = None → selectedWeek (dash (world sh'))
                              = from_option Some sel (head nums)).
  { intros ->. rewrite Hsel.
    by rewrite bool_decide_eq_false_2 by (intros (? & ? & _)%list_elem_of_fmap; done). }
  split.
  { transitivity (w_week_number <$> (safeWeek <$> data)); [|apply safeWeek_numbers].
    unfold sh'. rewrite loadWeeks_resume_ok. cbv zeta.
    destruct (bool_decide _); [done|]. by destruct (head _). }
  split; [exact Hsel|]. split; [exact Hnone|]. split; [|split].
  - intros Hne Hrs.
    assert (Hhead : ∃ n, from_option Some sel (head nums) = Some n ∧ n ∈ nums).
    { destruct data as [|d ds]; [done|]. exists (rw_week_number d).
      split; [done|]. unfold nums. cbn. apply list_elem_of_here. }
    destruct Hrs as [Hrs | Hrs]; [by rewrite (Hnone Hrs)|].
    rewrite Hsel. case_bool_decide as Hin; [|exact Hhead].
    rewrite Hrs in Hin.
    apply list_elem_of_fmap in Hin as (n & Hn & Hin). by exists n.
  - unfold sh'. rewrite loadWeeks_resume_ok. cbv zeta.
    destruct (bool_decide _); [done|]. by destruct (head _).
  - unfold sh'. rewrite loadWeeks_resume_ok. cbv zeta.
    destruct (bool_decide _); [done|]. by destruct (head _).
Qed.

Lemma loadWeeks_selects_a_loaded_week_witness :
  let sh := shellRun [SvSession (Some (mkSession None)) false; SvInner (EvSelectWeek 5)]
                     initShell in
  let data := [mkRawWeek 2 None None None None None;
               mkRawWeek 5 (Some "b") None None None None] in
  selectedWeek (dash (world sh)) = Some 5%Z
  ∧ pendingWeekLoads sh = [None]
  ∧ selectedWeek (dash (world (loadWeeks_resume None (inr data) sh))) = Some 2%Z.
Proof.
  intros sh data. split; [reflexivity|]. split; [reflexivity|].
  destruct (loadWeeks_selects_a_loaded_week sh None data) as (_ & _ & Hnone & _).
  exact (Hnone eq_refl).
Defined.

(** X16. On a fresh page the answer of [loadWeeks] selects the first week.
    When its number is not 0 the details panel shows that week and the
    tasks of it are requested; when it is 0 the week counts as not
    selected: the panel stays empty and no tasks are requested. *)
Theorem first_week_opens_after_load (sh : Shell) (i : nat) (first : RawWeek)
    (rest : list RawWeek) :
  authChecked sh = true →
  selectedWeek (dash (world sh)) = None →
  pendingWeekLoads sh !! i = Some None →
  let sh' := shellStep (SvWeeksLoaded i (inr (first :: rest))) sh in
  let n := rw_week_number first in
  selectedWeek (dash (world sh')) = Some n
  ∧ (n ≠ 0%Z →
       week sh' = Some (safeWeek first)
       ∧ pendingTaskLoads (world sh') = pendingTaskLoads (world sh) ++ [n])
  ∧ (n = 0%Z →
       week sh' = None
       ∧ pendingTaskLoads (world sh') = pendingTaskLoads (world sh)).
Proof.
  intros Ha Hs Hp sh' n. unfold sh'. cbn [shellStep]. rewrite Hp, Hs.
  rewrite loadWeeks_resume_ok. cbv zeta.
  rewrite bool_decide_eq_false_2 by (intros (? & ? & _)%list_elem_of_fmap; done).
  cbn [fmap list_fmap head]. fold n.
  unfold tasksEffect. cbn. rewrite Ha. cbn.
  unfold startLoadTasks, week. cbn.
  rewrite (bool_decide_eq_false_2 (Some n = None)) by done. cbn.
  destruct (decide (n = 0%Z)) as [Hz|Hz].
  - rewrite !(bool_decide_eq_true_2 (n = 0%Z)) by done. cbn.
    rewrite !(bool_decide_eq_true_2 (n = 0%Z)) by done. done.
  - rewrite !(bool_decide_eq_false_2 (n = 0%Z)) by done. cbn.
    rewrite !(bool_decide_eq_false_2 (n = 0%Z)) by done.
    rewrite ?bool_decide_eq_true_2 by done. done.
Qed.

Lemma first_week_opens_after_load_witness :
  let sh := shellRun [SvSession (Some (mkSession None)) false] initShell in
  let sh' := shellStep (SvWeeksLoaded 0 (inr [mkRawWeek 0 None None None None None;
                                              mkRawWeek 1 None None None None None])) sh in
  selectedWeek (dash (world sh')) = Some 0%Z
  ∧ week sh' = None
  ∧ pendingTaskLoads (world sh') = pendingTaskLoads (world sh).
Proof.
  intros sh sh'.
  destruct (first_week_opens_after_load sh 0 (mkRawWeek 0 None None None None None)
              [mkRawWeek 1 None None None None None] eq_refl eq_refl eq_refl)
    as (H1 & _ & H3).
  split; [exact H1|]. by apply H3.
Defined.

(** ** Status updates *)

(** X17. The checkbox of a row only ever asks for [Completed] or
    [Pending], for the row it belongs to, and always for a status other
    than the one shown.  Clicking it twice restores the status except for
    a row in progress, which ends [Pending].  The request is the one the
    status button of that name sends, and the task list is left for the
    change feed to refresh. *)
Theorem checkbox_toggles_pending_and_completed (t : TaskRow) (s : Dash) :
  let c1 := checkboxClick t s in
  let c2 := checkboxClick (withStatus (up_status c1.2) t) c1.1 in
  up_id c1.2 = id t ∧ up_id c2.2 = id t
  ∧ up_status c1.2 ≠ InProgress ∧ up_status c2.2 ≠ InProgress
  ∧ up_status c1.2 ≠ status t
  ∧ (up_status c2.2 = status t ↔ status t ≠ InProgress)
  ∧ c1.2 = (updateStatus (id t) (up_status c1.2) s).2
  ∧ tasks c2.1 = tasks s.
Proof.
  intros c1 c2. unfold c2, c1, checkboxClick, setTaskCompleted, updateStatus, withStatus.
  destruct (status t) eqn:E; cbn; rewrite ?E; cbn; repeat split; try done.
Qed.


(** ** The change-feed subscriptions *)

Lemma realtimeCleanup_empty (d : option (bool * option Z)) (r : Realtime) :
  subscribedFor d r →
  channels (realtimeCleanup r) = ∅ ∧ rtCleanup (realtimeCleanup r) = None
  ∧ nextChannel (realtimeCleanup r) = nextChannel r.
Proof.
  intros [_ H]. unfold realtimeCleanup.
  destruct (rtCleanup r) as [[a b]|] eqn:E.
  - destruct H as (wk & _ & _ & Hab & _ & Hc). cbn. split; [|done].
    rewrite Hc. apply map_eq. intros k. rewrite lookup_empty.
    destruct (decide (k = b)) as [->|Hb]; [by rewrite lookup_delete_eq|].
    rewrite lookup_delete_ne by done.
    destruct (decide (k = a)) as [->|Ha]; [by rewrite lookup_delete_eq|].
    by rewrite lookup_delete_ne, !lookup_insert_ne by done.
  - by destruct H.
Qed.

Lemma realtimeEffect_subscribed (d : option (bool * option Z)) (r : Realtime)
    (deps : bool * option Z) :
  subscribedFor d r → subscribedFor (Some deps) (realtimeEffect r deps).
Proof.
  intros Hs. unfold realtimeEffect. case_bool_decide as Hd.
  - destruct Hs as [H1 H2]. split; [done|]. by rewrite <- Hd, H1.
  - destruct (realtimeCleanup_empty d r Hs) as (Hc & Hn & Hx).
    destruct deps as [auth sel]. unfold realtimeBody. cbn [fst snd].
    destruct (negb auth || noWeekSelected sel) eqn:Eg.
    + split; [done|]. cbn. rewrite Hn. split; [done|].
      intros wk [= -> ->]. cbn in Eg. by apply bool_decide_eq_true in Eg.
    + apply orb_false_iff in Eg as [Ea Es]. apply negb_false_iff in Ea. subst auth.
      destruct sel as [wk|]; [|done]. cbn in Es. apply bool_decide_eq_false in Es.
      split; [done|]. cbn. exists wk. rewrite Hc. repeat split; try done; lia.
Qed.

Lemma realtimeAfter_subscribed (renders : list (bool * option Z)) :
  subscribedFor (last renders) (realtimeAfter renders).
Proof.
  induction renders as [|deps renders IH] using rev_ind.
  - split; [done|]. cbn. split; [done|]. intros wk [=].
  - unfold realtimeAfter. rewrite foldl_app, last_snoc. cbn [foldl].
    by eapply realtimeEffect_subscribed.
Qed.

(** X18. After any sequence of renders, the page holds exactly two
    channels, that of the tasks of the selected week and that of the notes,
    when a session is confirmed and a week other than 0 is selected, and
    none otherwise: channels of earlier selections do not pile up. *)
Theorem subscriptions_follow_selected_week (renders : list (bool * option Z))
    (auth : bool) (sel : option Z) :
  let r := realtimeAfter (renders ++ [(auth, sel)]) in
  if auth && negb (noWeekSelected sel)
  then ∃ a b wk, sel = Some wk ∧ a ≠ b
                 ∧ channels r = <[b := NotesChannel]> (<[a := TasksChannel wk]> ∅)
  else channels r = ∅.
Proof.
  intros r. pose proof (realtimeAfter_subscribed (renders ++ [(auth, sel)])) as [Hd Hc].
  fold r in Hd, Hc. rewrite last_snoc in Hd, Hc.
  destruct (rtCleanup r) as [[a b]|].
  - destruct Hc as (wk & [= -> ->] & Hwk & Hab & _ & Hch).
    cbn. rewrite bool_decide_eq_false_2 by done. cbn.
    exists a, b, wk. split; [done|]. split; [lia|done].
  - destruct Hc as [Hch Hz].
    destruct auth; [|done]. destruct sel as [wk|]; [|done]. cbn.
    by rewrite bool_decide_eq_true_2 by (by apply Hz).
Qed.

(** X19. Unmounting after any sequence of renders leaves no channel
    subscribed. *)
Theorem unmount_removes_every_channel (renders : list (bool * option Z)) :
  channels (realtimeCleanup (realtimeAfter renders)) = ∅.
Proof.
  by destruct (realtimeCleanup_empty _ _ (realtimeAfter_subscribed renders)).
Qed.

(** ** The login page *)

(** X20. The login page navigates to ["/"] exactly when [signIn] obtained
    a session, from the sign-in answer or else from [getSession]; signing
    up and signing out never navigate.  Each of the three handlers ends
    with the session line refreshed from [getSession] and leaves the typed
    credentials alone. *)
Theorem signIn_redirects_only_with_session
    (resp : string + option Session) (fallback : option Session)
    (error : option string) (refresh : string + option Session) (l : Login) :
  let l1 := signIn resp fallback refresh l in
  let l2 := signUp error refresh l in
  let l3 := loginSignOut refresh l in
  (l_location l1 = Some "/"
   ↔ l_location l = Some "/"
     ∨ ∃ sess, resp = inr (Some sess) ∨ (resp = inr None ∧ fallback = Some sess))
  ∧ l_location l2 = l_location l
  ∧ l_location l3 = l_location l
  ∧ ∀ l', l' ∈ [l1; l2; l3] →
      l_sessionInfo l' = l_sessionInfo (refreshSessionInfo refresh l)
      ∧ l_email l' = l_email l ∧ l_password l' = l_password l.
Proof.
  intros l1 l2 l3.
  assert (Hr : ∀ k, l_location (refreshSessionInfo refresh k) = l_location k
                    ∧ l_email (refreshSessionInfo refresh k) = l_email k
                    ∧ l_password (refreshSessionInfo refresh k) = l_password k).
  { intros k. unfold refreshSessionInfo. by destruct refresh as [e|[s|]]. }
  assert (Hi : ∀ k, l_sessionInfo (refreshSessionInfo refresh k)
                    = l_sessionInfo (refreshSessionInfo refresh l)).
  { intros k. unfold refreshSessionInfo. by destruct refresh as [e|[s|]]. }
  split; [|split; [|split]].
  - unfold l1, signIn. destruct resp as [e|[s|]]; [|..|destruct fallback as [s|]]; cbn.
    + rewrite (proj1 (Hr _)). cbn. split; [by left|].
      intros [H|(s & [H|[H _]])]; done.
    + split; [|done]. intros _. right. exists s. by left.
    + split; [|done]. intros _. right. exists s. by right.
    + rewrite (proj1 (Hr _)). cbn. split; [by left|].
      intros [H|(s & [H|[_ H]])]; done.
  - unfold l2, signUp. by rewrite (proj1 (Hr _)).
  - unfold l3, loginSignOut. cbn. by rewrite (proj1 (Hr _)).
  - intros l' Hl'. repeat (apply elem_of_cons in Hl' as [->|Hl']);
      [..|by apply elem_of_nil in Hl'].
    + unfold l1, signIn.
      destruct resp as [e|[s|]]; [|..|destruct fallback as [s|]]; cbn;
        rewrite ?(proj1 (proj2 (Hr _))), ?(proj2 (proj2 (Hr _))); cbn;
        (split; [apply Hi|done]).
    + unfold l2, signUp. cbn.
      rewrite ?(proj1 (proj2 (Hr _))), ?(proj2 (proj2 (Hr _))); cbn.
      split; [apply Hi|done].
    + unfold l3, loginSignOut. cbn.
      rewrite ?(proj1 (proj2 (Hr _))), ?(proj2 (proj2 (Hr _))); cbn.
      split; [apply Hi|done].
Qed.

(** ** The selection a weeks load was started with *)

Lemma shellStep_weekLoads (e : ShellEvent) (sh : Shell) :
  gateInv sh →
  (∀ rs, rs ∈ pendingWeekLoads sh → rs = None) →
  ∀ rs, rs ∈ pendingWeekLoads (shellStep e sh) → rs = None.
Proof.
  intros [_ Hq] Hall rs.
  assert (Hlw : ∀ rs0 resp sh0,
            pendingWeekLoads (tasksEffect (selectedWeek (dash (world sh)))
                                (loadWeeks_resume rs0 resp sh0))
            = pendingWeekLoads sh0).
  { intros rs0 resp sh0. unfold tasksEffect, loadWeeks_resume.
    destruct resp as [m|data]; [by case_match|]. cbv zeta.
    destruct (safeWeek <$> data); [by case_match|]. by repeat case_match. }
  destruct e as [session cancelled|session|i resp| |e0]; cbn [shellStep].
  - destruct (sessionPending sh) eqn:Ep; [|apply Hall].
    destruct (authChecked sh) eqn:Ea.
    + rewrite andb_false_r. destruct session as [s|]; [destruct cancelled|]; apply Hall.
    + rewrite andb_true_r. destruct (Hq eq_refl) as (Hw & _ & _ & Hs & _).
      destruct session as [s|]; [destruct cancelled|]; cbn; rewrite ?Ea; try apply Hall.
      rewrite Hw, Hs. cbn. by intros ->%list_elem_of_singleton.
  - destruct session; apply Hall.
  - destruct (pendingWeekLoads sh !! i) as [r0|]; [|apply Hall].
    rewrite Hlw. cbn. intros Hin. apply Hall.
    eapply elem_of_sublist; [exact Hin|apply sublist_delete].
  - destruct (authChecked sh); apply Hall.
  - destruct (needsAuth e0 && negb (authChecked sh)); apply Hall.
Qed.

Lemma shellRun_weekLoads (es : list ShellEvent) :
  ∀ rs, rs ∈ pendingWeekLoads (shellRun es initShell) → rs = None.
Proof.
  induction es as [|e es IH] using rev_ind.
  - cbn. by intros rs ?%elem_of_nil.
  - rewrite shellRun_snoc. apply shellStep_weekLoads; [apply shellRun_gateInv|done].
Qed.

(** X21. Every fetch of the weeks was started while no week was selected,
    so its answer never finds the selection among the loaded weeks: on any
    page, whenever a non-empty answer arrives the first week of it becomes
    the selected one, also over a week chosen in the meantime. *)
Theorem weeks_answer_always_selects_first (es : list ShellEvent) (i : nat)
    (first : RawWeek) (rest : list RawWeek) :
  let sh := shellRun es initShell in
  i < length (pendingWeekLoads sh) →
  selectedWeek (dash (world (shellStep (SvWeeksLoaded i (inr (first :: rest))) sh)))
  = Some (rw_week_number first).
Proof.
  intros sh Hi. apply lookup_lt_is_Some_2 in Hi as [rs Hrs].
  assert (rs = None) as ->.
  { apply (shellRun_weekLoads es). by eapply list_elem_of_lookup_2. }
  cbn [shellStep]. fold sh. rewrite Hrs, loadWeeks_resume_ok. cbv zeta.
  rewrite bool_decide_eq_false_2 by (intros (? & ? & _)%list_elem_of_fmap; done).
  cbn [fmap list_fmap head]. unfold tasksEffect.
  case_match; [|done]. cbn. unfold startLoadTasks. cbn. by case_match.
Qed.

Lemma weeks_answer_always_selects_first_witness :
  selectedWeek (dash (world (shellStep
     (SvWeeksLoaded 0 (inr (mkRawWeek 2 None None None None None :: [])))
     (shellRun [SvSession (Some (mkSession None)) false; SvInner (EvSelectWeek 5)]
               initShell))))
  = Some 2%Z.
Proof.
  apply (weeks_answer_always_selects_first
           [SvSession (Some (mkSession None)) false; SvInner (EvSelectWeek 5)] 0).
  cbn. lia.
Defined.
